(** * dagUtils: graph representations, cycle detection and traversal traces

    A shallow embedding of the graph utilities of the DAG visualizer (the
    module imported as [@/lib/dagUtils]): the adjacency builders,
    [hasCycle], the three trace generators and [generateRandomDAG].

    JavaScript [Map]s that are only read through [get]/[has] are finite
    maps ([gmap]); [Set]s that are only tested for membership are [gset]s;
    the [Set] that is iterated ([remaining]) is an insertion-ordered list
    without duplicates.  Numbers are [Z].  Recursive and looping code whose
    termination is not structural takes a fuel argument and returns [None]
    when it runs out; the entry points are proved to return [Some] with the
    fuel they are given.  [Math.random] is an input of [generateRandomDAG]. *)

From stdpp Require Import gmap strings list fin_maps pretty relations.
From Stdlib Require Import Ascii.

Open Scope string_scope.
Open Scope list_scope.
Open Scope Z_scope.

(** ** Data model *)

(** [GraphNode]: the fields the algorithms read.  The canvas position is
    consumed by the layout only and is left out. *)
Record GraphNode := mkNode { node_id : string; node_label : string }.

Record GraphEdge := mkEdge { edge_id : string; source : string; target : string }.

Definition nodeIds (nodes : list GraphNode) : list string := node_id <$> nodes.

(** JavaScript truthiness of a string: the empty string is falsy. *)
Definition truthy (s : string) : bool :=
  match s with EmptyString => false | String _ _ => true end.

(** [a || b] on optional strings ([undefined] is [None]). *)
Definition orElse (a b : option string) : option string :=
  match a with
  | Some s => if truthy s then Some s else b
  | None => b
  end.

(** [startNodeId || nodes[0]?.id], followed by the truthiness test that
    guards the traversal: [None] when no traversal is started. *)
Definition startNode (nodes : list GraphNode) (startNodeId : option string) : option string :=
  match orElse startNodeId (head (nodeIds nodes)) with
  | Some s => if truthy s then Some s else None
  | None => None
  end.

(** ** Graph representation builders *)

(** [adjList.get(k)!.push(v)], creating the entry first when absent. *)
Definition pushAt (k v : string) (adj : gmap string (list string)) : gmap string (list string) :=
  let adj1 := match adj !! k with Some _ => adj | None => <[k := []]> adj end in
  alter (λ l, l ++ [v]) k adj1.

Definition buildAdjacencyList (edges : list GraphEdge) : gmap string (list string) :=
  fold_left (λ adj e, pushAt (source e) (target e) adj) edges ∅.

Definition buildReverseAdjacencyList (edges : list GraphEdge) : gmap string (list string) :=
  fold_left (λ adj e, pushAt (target e) (source e) adj) edges ∅.

Definition calculateInDegrees (nodes : list GraphNode) (edges : list GraphEdge) : gmap string Z :=
  let init := fold_left (λ m n, <[node_id n := 0]> m) nodes (∅ : gmap string Z) in
  fold_left (λ m e, <[target e := default 0 (m !! target e) + 1]> m) edges init.

(** [nodes.forEach(node => visited.set(node.id, 0))] *)
Definition initVisited (nodes : list GraphNode) : gmap string Z :=
  fold_left (λ m n, <[node_id n := 0]> m) nodes (∅ : gmap string Z).

(** ** Insertion-ordered sets ([new Set(array)], iteration, [delete]) *)

Definition osetAdd (s : list string) (x : string) : list string :=
  if decide (x ∈ s) then s else s ++ [x].

Definition osetOfList (l : list string) : list string := fold_left osetAdd l [].

Definition osetDelete (x : string) (s : list string) : list string :=
  filter (λ y, y ≠ x) s.

(** ** Topological trace generator *)

Module Topo.
Record Step := mkStep
  { removedNode : string; queue : list string; visited : gmap string Z }.
End Topo.

(** The scan [for (const nodeId of remaining) if ((inDegrees.get(nodeId) || 0) === 0)]. *)
Definition zeroInDegree (inDegrees : gmap string Z) (remaining : list string) : list string :=
  filter (λ n, default 0 (inDegrees !! n) = 0) remaining.

(** [for (const neighbor of neighbors) inDegrees.set(neighbor, (inDegrees.get(neighbor) || 0) - 1)] *)
Definition decrementAll (neighbors : list string) (inDegrees : gmap string Z) : gmap string Z :=
  fold_left (λ m nb, <[nb := default 0 (m !! nb) - 1]> m) neighbors inDegrees.

Fixpoint topoLoop (fuel : nat) (adjList : gmap string (list string))
    (inDegrees visited : gmap string Z) (remaining : list string)
    (steps : list Topo.Step) : option (list Topo.Step) :=
  match fuel with
  | O => None
  | S fuel' =>
    match remaining with
    | [] => Some steps
    | _ :: _ =>
      match zeroInDegree inDegrees remaining with
      | [] => Some steps
      | removedNode :: _ =>
        let remaining' := osetDelete removedNode remaining in
        let visited' := <[removedNode := 1]> visited in
        let neighbors := default [] (adjList !! removedNode) in
        let inDegrees' := decrementAll neighbors inDegrees in
        let nextQueue := zeroInDegree inDegrees' remaining' in
        topoLoop fuel' adjList inDegrees' visited' remaining'
          (steps ++ [Topo.mkStep removedNode nextQueue visited'])
      end
    end
  end.

Definition topologicalSortStepsDetailed (nodes : list GraphNode) (edges : list GraphEdge)
    : option (list Topo.Step) :=
  let adjList := buildReverseAdjacencyList edges in
  let inDegrees := calculateInDegrees nodes edges in
  let visited := initVisited nodes in
  let remaining := osetOfList (nodeIds nodes) in
  topoLoop (S (length remaining)) adjList inDegrees visited remaining [].

(** ** Sample graph *)

Definition createSampleDAG : list GraphNode * list GraphEdge :=
  ([ mkNode "A" "A"; mkNode "B" "B"; mkNode "C" "C"; mkNode "D" "D"; mkNode "E" "E" ],
   [ mkEdge "e1" "A" "B"; mkEdge "e2" "A" "C"; mkEdge "e3" "B" "D";
     mkEdge "e4" "C" "D"; mkEdge "e5" "D" "E" ]).

(** ** Cycle detector *)

(** The two [Set]s the recursive [dfs] of [hasCycle] closes over. *)
Record CycleState := mkCycleState { visitedSet : gset string; recursionStack : gset string }.

(** The [for (const neighbor of neighbors)] loop of [hasCycle]'s [dfs];
    [rec] is the recursive call.  The result [true] is the early
    [return true]; [false] means the loop ran to its end. *)
Fixpoint cycleLoop (rec : string → CycleState → option (bool * CycleState))
    (neighbors : list string) (st : CycleState) : option (bool * CycleState) :=
  match neighbors with
  | [] => Some (false, st)
  | neighbor :: rest =>
    if decide (neighbor ∈ visitedSet st) then
      if decide (neighbor ∈ recursionStack st) then Some (true, st)
      else cycleLoop rec rest st
    else
      match rec neighbor st with
      | None => None
      | Some (true, st') => Some (true, st')
      | Some (false, st') => cycleLoop rec rest st'
      end
  end.

Fixpoint cycleDfs (fuel : nat) (adjList : gmap string (list string))
    (nodeId : string) (st : CycleState) : option (bool * CycleState) :=
  match fuel with
  | O => None
  | S fuel' =>
    let st1 := mkCycleState ({[nodeId]} ∪ visitedSet st) ({[nodeId]} ∪ recursionStack st) in
    let neighbors := default [] (adjList !! nodeId) in
    match cycleLoop (cycleDfs fuel' adjList) neighbors st1 with
    | None => None
    | Some (true, st') => Some (true, st')
    | Some (false, st') =>
      Some (false, mkCycleState (visitedSet st') (recursionStack st' ∖ {[nodeId]}))
    end
  end.

(** The outer [for (const node of nodes)] loop of [hasCycle]. *)
Fixpoint cycleRoots (fuel : nat) (adjList : gmap string (list string))
    (ids : list string) (st : CycleState) : option bool :=
  match ids with
  | [] => Some false
  | nodeId :: rest =>
    if decide (nodeId ∈ visitedSet st) then cycleRoots fuel adjList rest st
    else
      match cycleDfs fuel adjList nodeId st with
      | None => None
      | Some (true, _) => Some true
      | Some (false, st') => cycleRoots fuel adjList rest st'
      end
  end.

(** Every call of [dfs] marks a fresh id taken from the node list or from
    an edge target, so the recursion depth is below this bound. *)
Definition cycleFuel (nodes : list GraphNode) (edges : list GraphEdge) : nat :=
  S (length nodes + length edges).

Definition hasCycle (nodes : list GraphNode) (edges : list GraphEdge) : option bool :=
  cycleRoots (cycleFuel nodes edges) (buildAdjacencyList edges) (nodeIds nodes)
    (mkCycleState ∅ ∅).

(** ** DFS trace generator *)

Module DFS.
Record Step := mkStep
  { currentNode : string; stack : list string; visited : gmap string Z }.
End DFS.

(** The mutable [visited] map and [steps] array the recursive [dfs] of
    [dfsStepsDetailed] closes over. *)
Record DfsState := mkDfsState { dfsVisited : gmap string Z; dfsTrace : list DFS.Step }.

(** [for (const neighbor of neighbors) if (visited.get(neighbor) === 0) dfs(neighbor, newStack)] *)
Fixpoint dfsLoop (rec : string → DfsState → option DfsState)
    (neighbors : list string) (st : DfsState) : option DfsState :=
  match neighbors with
  | [] => Some st
  | neighbor :: rest =>
    if decide (dfsVisited st !! neighbor = Some 0) then
      match rec neighbor st with
      | None => None
      | Some st' => dfsLoop rec rest st'
      end
    else dfsLoop rec rest st
  end.

Fixpoint dfsVisit (fuel : nat) (adjList : gmap string (list string))
    (nodeId : string) (stack : list string) (st : DfsState) : option DfsState :=
  match fuel with
  | O => None
  | S fuel' =>
    let newStack := stack ++ [nodeId] in
    let steps1 := dfsTrace st ++ [DFS.mkStep nodeId newStack (dfsVisited st)] in
    let visited1 := <[nodeId := 1]> (dfsVisited st) in
    let steps2 := steps1 ++ [DFS.mkStep nodeId newStack visited1] in
    let neighbors := default [] (adjList !! nodeId) in
    match dfsLoop (λ neighbor, dfsVisit fuel' adjList neighbor newStack)
            neighbors (mkDfsState visited1 steps2) with
    | None => None
    | Some st' =>
      if decide (0 < length newStack)%nat then
        let popped := removelast newStack in
        Some (mkDfsState (dfsVisited st')
                (dfsTrace st' ++ [DFS.mkStep nodeId popped (dfsVisited st')]))
      else Some st'
    end
  end.

(** Every nested call flips one entry of [visited] from 0 to 1. *)
Definition dfsFuel (nodes : list GraphNode) : nat := S (length nodes).

Definition dfsStepsDetailed (nodes : list GraphNode) (edges : list GraphEdge)
    (startNodeId : option string) : option (list DFS.Step) :=
  let adjList := buildAdjacencyList edges in
  let visited := initVisited nodes in
  match startNode nodes startNodeId with
  | None => Some []
  | Some start =>
    dfsTrace <$> dfsVisit (dfsFuel nodes) adjList start [] (mkDfsState visited [])
  end.

(** ** BFS trace generator *)

Module BFS.
Record Step := mkStep
  { currentNode : string; queue : list string; visited : gmap string Z }.
End BFS.

Record BfsState := mkBfsState
  { bfsQueue : list string; bfsVisited : gmap string Z; bfsTrace : list BFS.Step }.

(** The inner [for (const neighbor of neighbors)] loop of [bfsStepsDetailed]. *)
Fixpoint bfsNeighbors (currentNode : string) (neighbors : list string)
    (st : BfsState) : BfsState :=
  match neighbors with
  | [] => st
  | neighbor :: rest =>
    if decide (bfsVisited st !! neighbor = Some 0) then
      let visited' := <[neighbor := 1]> (bfsVisited st) in
      let queue' := bfsQueue st ++ [neighbor] in
      bfsNeighbors currentNode rest
        (mkBfsState queue' visited'
           (bfsTrace st ++ [BFS.mkStep currentNode queue' visited']))
    else bfsNeighbors currentNode rest st
  end.

(** [while (queue.length > 0)] *)
Fixpoint bfsLoop (fuel : nat) (adjList : gmap string (list string))
    (st : BfsState) : option (list BFS.Step) :=
  match fuel with
  | O => None
  | S fuel' =>
    match bfsQueue st with
    | [] => Some (bfsTrace st)
    | currentNode :: queue' =>
      let st1 := mkBfsState queue' (bfsVisited st)
                   (bfsTrace st ++ [BFS.mkStep currentNode queue' (bfsVisited st)]) in
      let neighbors := default [] (adjList !! currentNode) in
      bfsLoop fuel' adjList (bfsNeighbors currentNode neighbors st1)
    end
  end.

(** One iteration per dequeued id, and one more to see the empty queue. *)
Definition bfsFuel (nodes : list GraphNode) : nat := S (S (length nodes)).

Definition bfsStepsDetailed (nodes : list GraphNode) (edges : list GraphEdge)
    (startNodeId : option string) : option (list BFS.Step) :=
  let adjList := buildAdjacencyList edges in
  let visited := initVisited nodes in
  match startNode nodes startNodeId with
  | None => Some []
  | Some start =>
    let visited1 := <[start := 1]> visited in
    bfsLoop (bfsFuel nodes) adjList
      (mkBfsState [start] visited1 [BFS.mkStep start [start] visited1])
  end.

(** ** Random DAG generator *)

(** [`node-${i}`] *)
Definition nodeIdOf (i : nat) : string := "node-" +:+ pretty i.

(** [String.fromCharCode(65 + i)].  The characters of the model are 8-bit:
    the label is the one of the source for [i < 191] (code units below
    256, which covers the node counts the page allows) and wraps around
    above, where the source yields the code unit [65 + i] itself.  Labels
    are display data: no statement below depends on them. *)
Definition labelOf (i : nat) : string := String (Ascii.ascii_of_nat (65 + i)) "".

Definition randomNodes (numNodes : nat) : list GraphNode :=
  (λ i, mkNode (nodeIdOf i) (labelOf i)) <$> seq 0 numNodes.

(** [edges.some(e => e.source === sourceId && e.target === targetId)] *)
Definition edgeExists (edges : list GraphEdge) (sourceId targetId : string) : bool :=
  existsb (λ e, bool_decide (source e = sourceId ∧ target e = targetId)) edges.

(** The edge loop.  [left] is [maxAttempts - attempt]; [rnd attempt] is the
    pair of indices [Math.floor(Math.random() * numNodes)] drawn at that
    attempt (the ambient random source, taken as an input). *)
Fixpoint randomEdges (left attempt numEdges : nat) (nodes : list GraphNode)
    (rnd : nat → nat * nat) (edges : list GraphEdge) (edgeCount : nat)
    : option (list GraphEdge) :=
  match left with
  | O => Some edges
  | S left' =>
    if decide (edgeCount < numEdges)%nat then
      let sourceIndex := (rnd attempt).1 in
      let targetIndex := (rnd attempt).2 in
      if decide (sourceIndex < targetIndex)%nat then
        let sourceId := nodeIdOf sourceIndex in
        let targetId := nodeIdOf targetIndex in
        if edgeExists edges sourceId targetId then
          randomEdges left' (S attempt) numEdges nodes rnd edges edgeCount
        else
          let testEdges := edges ++ [mkEdge ("e-" +:+ pretty edgeCount) sourceId targetId] in
          match hasCycle nodes testEdges with
          | None => None
          | Some true => randomEdges left' (S attempt) numEdges nodes rnd edges edgeCount
          | Some false =>
            randomEdges left' (S attempt) numEdges nodes rnd
              (edges ++ [mkEdge ("edge-" +:+ pretty edgeCount) sourceId targetId])
              (S edgeCount)
          end
      else randomEdges left' (S attempt) numEdges nodes rnd edges edgeCount
    else Some edges
  end.

Definition generateRandomDAG (numNodes numEdges : nat) (rnd : nat → nat * nat)
    : option (list GraphNode * list GraphEdge) :=
  let nodes := randomNodes numNodes in
  let maxAttempts := (numEdges * 10)%nat in
  edges ← randomEdges maxAttempts 0 numEdges nodes rnd [] 0;
  Some (nodes, edges).

(** ** Adjacency representations for display *)

(** [nodes.forEach(node => { if (!adjList.has(node.id)) adjList.set(node.id, []) })] *)
Definition ensureEntries (nodes : list GraphNode) (adjList : gmap string (list string))
    : gmap string (list string) :=
  fold_left (λ adj n,
      match adj !! node_id n with
      | Some _ => adj
      | None => <[node_id n := []]> adj
      end) nodes adjList.

Definition getAdjacencyListRepr (nodes : list GraphNode) (edges : list GraphEdge)
    : gmap string (list string) :=
  ensureEntries nodes (buildAdjacencyList edges).

Definition getAdjacencyList (nodes : list GraphNode) (edges : list GraphEdge)
    : gmap string (list string) :=
  ensureEntries nodes (buildAdjacencyList edges).

(** The template string [`${a}-${b}`] that keys the adjacency matrix. *)
Definition pairKey (a b : string) : string := a +:+ "-" +:+ b.

Definition getAdjacencyMatrix (nodes : list GraphNode) (edges : list GraphEdge)
    : gmap string Z :=
  let init :=
    fold_left (λ m node1,
        fold_left (λ m node2, <[pairKey (node_id node1) (node_id node2) := 0]> m) nodes m)
      nodes (∅ : gmap string Z) in
  fold_left (λ m e, <[pairKey (source e) (target e) := 1]> m) edges init.

(** ** Topological trace generator, simple version *)

Module TopoSimple.
Record Step := mkStep { removedNode : string; remainingNodes : list string }.
End TopoSimple.

Fixpoint topoSimpleLoop (fuel : nat) (adjList : gmap string (list string))
    (inDegrees : gmap string Z) (remaining : list string)
    (steps : list TopoSimple.Step) : option (list TopoSimple.Step) :=
  match fuel with
  | O => None
  | S fuel' =>
    match remaining with
    | [] => Some steps
    | _ :: _ =>
      match zeroInDegree inDegrees remaining with
      | [] => Some steps
      | removedNode :: _ =>
        let remaining' := osetDelete removedNode remaining in
        let neighbors := default [] (adjList !! removedNode) in
        let inDegrees' := decrementAll neighbors inDegrees in
        topoSimpleLoop fuel' adjList inDegrees' remaining'
          (steps ++ [TopoSimple.mkStep removedNode remaining'])
      end
    end
  end.

Definition topologicalSortSteps (nodes : list GraphNode) (edges : list GraphEdge)
    : option (list TopoSimple.Step) :=
  let adjList := buildReverseAdjacencyList edges in
  let inDegrees := calculateInDegrees nodes edges in
  let remaining := osetOfList (nodeIds nodes) in
  topoSimpleLoop (S (length remaining)) adjList inDegrees remaining [].

(** The visited map the canvas rebuilds from a simple step when it has no
    detailed one ([animateTopologicalStep]): 1 for the removed node and for
    every node that is no longer remaining, 0 for the others. *)
Definition fallbackVisited (nodes : list GraphNode) (removedNode : string)
    (remainingNodes : list string) : gmap string Z :=
  fold_left (λ m n,
      if decide (node_id n = removedNode ∨ node_id n ∉ remainingNodes)
      then <[node_id n := 1]> m
      else <[node_id n := 0]> m) nodes (∅ : gmap string Z).

(** ** DFS traversal, simple version *)

(** The [Set] and the array the recursive [dfs] of [dfsSteps] closes over. *)
Record DfsSimpleState := mkDfsSimpleState
  { simpleVisited : gset string; traversal : list string }.

(** [for (const neighbor of neighbors) if (!visited.has(neighbor)) dfs(neighbor)] *)
Fixpoint dfsSimpleLoop (rec : string → DfsSimpleState → option DfsSimpleState)
    (neighbors : list string) (st : DfsSimpleState) : option DfsSimpleState :=
  match neighbors with
  | [] => Some st
  | neighbor :: rest =>
    if decide (neighbor ∈ simpleVisited st) then dfsSimpleLoop rec rest st
    else
      match rec neighbor st with
      | None => None
      | Some st' => dfsSimpleLoop rec rest st'
      end
  end.

Fixpoint dfsSimpleVisit (fuel : nat) (adjList : gmap string (list string))
    (nodeId : string) (st : DfsSimpleState) : option DfsSimpleState :=
  match fuel with
  | O => None
  | S fuel' =>
    let st1 := mkDfsSimpleState ({[nodeId]} ∪ simpleVisited st) (traversal st ++ [nodeId]) in
    let neighbors := default [] (adjList !! nodeId) in
    dfsSimpleLoop (dfsSimpleVisit fuel' adjList) neighbors st1
  end.

(** Every call marks a fresh id: the start or an edge target. *)
Definition dfsSimpleFuel (edges : list GraphEdge) : nat := S (length edges).

Definition dfsSteps (nodes : list GraphNode) (edges : list GraphEdge)
    (startNodeId : option string) : option (list string) :=
  let adjList := buildAdjacencyList edges in
  match startNode nodes startNodeId with
  | None => Some []
  | Some start =>
    traversal <$> dfsSimpleVisit (dfsSimpleFuel edges) adjList start (mkDfsSimpleState ∅ [])
  end.

(** ** Step counts of the controls panel *)

(** [type AnimationMode = 'topological' | 'dfs' | 'bfs'] *)
Inductive AnimationMode := topological | dfs | bfs.

(** [nodes.length > 0 ? steps.length : 0] *)
Definition stepCount {A} (nodes : list GraphNode) (steps : option (list A)) : option nat :=
  match nodes with
  | [] => Some 0%nat
  | _ :: _ => length <$> steps
  end.

Definition topologicalStepCount (nodes : list GraphNode) (edges : list GraphEdge) : option nat :=
  stepCount nodes (topologicalSortStepsDetailed nodes edges).

Definition dfsStepCount (nodes : list GraphNode) (edges : list GraphEdge) : option nat :=
  stepCount nodes (dfsStepsDetailed nodes edges None).

Definition bfsStepCount (nodes : list GraphNode) (edges : list GraphEdge) : option nat :=
  stepCount nodes (bfsStepsDetailed nodes edges None).

Definition maxSteps (mode : AnimationMode) (nodes : list GraphNode) (edges : list GraphEdge)
    : option nat :=
  match mode with
  | topological => topologicalStepCount nodes edges
  | dfs => dfsStepCount nodes edges
  | bfs => bfsStepCount nodes edges
  end.

(** ** Graph-theoretic notions used by the statements *)

(** [edgeRel edges a b]: the edge list has an arc from [a] to [b]. *)
Definition edgeRel (edges : list GraphEdge) (a b : string) : Prop :=
  ∃ e, e ∈ edges ∧ source e = a ∧ target e = b.

(** Successors of [x] in edge insertion order. *)
Definition successors (edges : list GraphEdge) (x : string) : list string :=
  target <$> filter (λ e, source e = x) edges.

(** A directed cycle: a non-empty path from some id back to itself. *)
Definition hasDirectedCycle (edges : list GraphEdge) : Prop :=
  ∃ x, tc (edgeRel edges) x x.

(** The data-model requirement that edge endpoints are existing node ids. *)
Definition edgesReferenceNodes (nodes : list GraphNode) (edges : list GraphEdge) : Prop :=
  Forall (λ e, source e ∈ nodeIds nodes ∧ target e ∈ nodeIds nodes) edges.

Global Instance edgesReferenceNodes_dec nodes edges :
  Decision (edgesReferenceNodes nodes edges).
Proof. unfold edgesReferenceNodes. apply _. Defined.

(** Reachability along the edges. *)
Definition reachable (edges : list GraphEdge) (s x : string) : Prop :=
  rtc (edgeRel edges) s x.

(** An arc whose target is a listed node: the only arcs the DFS and BFS
    generators follow. *)
Definition listedEdge (nodes : list GraphNode) (edges : list GraphEdge) (a b : string) : Prop :=
  edgeRel edges a b ∧ b ∈ nodeIds nodes.

(** [shortest R s x d]: the shortest [R]-path from [s] to [x] has [d] steps. *)
Definition shortest (R : relation string) (s x : string) (d : nat) : Prop :=
  nsteps R d s x ∧ ∀ d', nsteps R d' s x → (d ≤ d')%nat.

(** [isDist edges s x d]: the graph distance from [s] to [x] is [d]. *)
Definition isDist (edges : list GraphEdge) (s x : string) (d : nat) : Prop :=
  shortest (edgeRel edges) s x d.

(** The index of the first record of a BFS trace in which [x] is marked
    visited: the moment [x] becomes visited. *)
Fixpoint firstVisitIndex (T : list BFS.Step) (x : string) : option nat :=
  match T with
  | [] => None
  | r :: T' =>
    if decide (BFS.visited r !! x = Some 1) then Some 0%nat
    else S <$> firstVisitIndex T' x
  end.

(** The ids among [candidates] whose entry is 1 in [cur] and not in [prev]. *)
Definition newMarks (candidates : list string) (prev cur : gmap string Z) : list string :=
  filter (λ k, cur !! k = Some 1 ∧ prev !! k ≠ Some 1) candidates.

(** The order in which the candidates become marked along a BFS trace. *)
Fixpoint visitOrderFrom (prev : gmap string Z) (candidates : list string)
    (T : list BFS.Step) : list string :=
  match T with
  | [] => []
  | r :: T' =>
    newMarks candidates prev (BFS.visited r) ++ visitOrderFrom (BFS.visited r) candidates T'
  end.

Definition visitOrder (nodes : list GraphNode) (T : list BFS.Step) : list string :=
  visitOrderFrom ∅ (nodeIds nodes) T.

(** The records a DFS trace [T] holds for node [m], relative to the arcs
    [E] the traversal follows: a push record, a visit record and a pop
    record, in this order and no other record of [m]; the push and visit
    records carry the same stack ending in [m], the pop record the stack
    without it; [m] is marked between push and visit; at the pop record
    every successor is marked, and a successor that was still unmarked at
    the visit record has all of its own records between the two. *)
Definition dfsNodeRecords (E : relation string) (T : list DFS.Step) (m : string) : Prop :=
  ∃ pre push visit inner pop post,
    T = pre ++ (push :: visit :: inner) ++ (pop :: post) ∧
    (∀ r, r ∈ pre ++ inner ++ post → DFS.currentNode r ≠ m) ∧
    (DFS.currentNode push = m ∧ DFS.currentNode visit = m ∧ DFS.currentNode pop = m) ∧
    (DFS.stack push = DFS.stack pop ++ [m] ∧ DFS.visited push !! m = Some 0) ∧
    (DFS.stack visit = DFS.stack push ∧ DFS.visited visit !! m = Some 1) ∧
    (m ∉ DFS.stack pop) ∧
    (∀ c, E m c → DFS.visited pop !! c = Some 1) ∧
    (∀ c r, E m c → DFS.visited visit !! c = Some 0 → r ∈ pre ++ post →
            DFS.currentNode r ≠ c).

(** A visit record of [m]: [m] is current, on the stack and marked. *)
Definition isVisitRecord (m : string) (r : DFS.Step) : Prop :=
  DFS.currentNode r = m ∧ m ∈ DFS.stack r ∧ DFS.visited r !! m = Some 1.

(** What the DFS claim says of a trace [T] from the start [s], with
    reachability taken along the arcs [E]: every reachable node has its
    three records; the nodes with a visit record are the reachable ones;
    no record marks an unreachable node. *)
Definition dfsTraceCovers (E : relation string) (s : string) (T : list DFS.Step) : Prop :=
  (∀ m, rtc E s m → dfsNodeRecords E T m) ∧
  (∀ m, (∃ r, r ∈ T ∧ isVisitRecord m r) ↔ rtc E s m) ∧
  (∀ m r, ¬ rtc E s m → r ∈ T → DFS.visited r !! m ≠ Some 1).

(** In-degree of [x] once the ids in [removed] are gone: the arcs into
    [x] whose source is still there. *)
Definition residualInDegree (edges : list GraphEdge) (removed : list string) (x : string) : nat :=
  length (filter (λ e, target e = x ∧ source e ∉ removed) edges).

(** The ready set as the specification describes the queue of a record:
    the remaining ids with residual in-degree 0, in the scan order of the
    remaining set. *)
Definition readySet (nodes : list GraphNode) (edges : list GraphEdge)
    (removed : list string) : list string :=
  filter (λ x, (x ∉ removed) ∧ residualInDegree edges removed x = 0%nat)
    (osetOfList (nodeIds nodes)).

(** Graphs with a dangling edge target ([X] is not a node). *)
Definition danglingGraph : list GraphNode * list GraphEdge :=
  ([ mkNode "A" "A"; mkNode "B" "B" ],
   [ mkEdge "e1" "A" "X"; mkEdge "e2" "X" "B" ]).

Definition danglingLoop : list GraphNode * list GraphEdge :=
  ([ mkNode "A" "A" ], [ mkEdge "e1" "A" "X"; mkEdge "e2" "X" "X" ]).

(** ** Notions used by the further properties *)

(** Predecessors of [x] in edge insertion order. *)
Definition predecessors (edges : list GraphEdge) (x : string) : list string :=
  source <$> filter (λ e, target e = x) edges.

(** The number of edges into [x]. *)
Definition inDegree (edges : list GraphEdge) (x : string) : nat :=
  length (filter (λ e, target e = x) edges).

(** No edge other than an edge from [a] to [b] has the matrix key of the
    pair [(a, b)]. *)
Definition noKeyClash (edges : list GraphEdge) (a b : string) : Prop :=
  Forall (λ e, pairKey (source e) (target e) = pairKey a b → source e = a ∧ target e = b) edges.

Global Instance noKeyClash_dec edges a b : Decision (noKeyClash edges a b).
Proof. unfold noKeyClash. apply _. Defined.

(** The string has no ['-']. *)
Fixpoint dashFree (s : string) : Prop :=
  match s with
  | EmptyString => True
  | String c s' => c ≠ "-"%char ∧ dashFree s'
  end.

(** The matrix keys of the edges, and of the pairs of nodes. *)
Definition edgeKeys (edges : list GraphEdge) : list string :=
  (λ e, pairKey (source e) (target e)) <$> edges.

Definition nodePairKeys (nodes1 nodes2 : list GraphNode) : list string :=
  nodes1 ≫= λ n1, (λ n2, pairKey (node_id n1) (node_id n2)) <$> nodes2.

(** The distinct node ids without an incoming edge, in node order. *)
Definition sourceNodes (nodes : list GraphNode) (edges : list GraphEdge) : list string :=
  filter (λ x, inDegree edges x = 0%nat) (osetOfList (nodeIds nodes)).

(** The order in which a detailed DFS trace pushes the nodes: the current
    nodes of the records taken while the node is still unmarked. *)
Definition dfsPushOrder (T : list DFS.Step) : list string :=
  DFS.currentNode <$> filter (λ r, DFS.visited r !! DFS.currentNode r = Some 0) T.

(** [l] is a path along the edges that starts at [s] (or is empty). *)
Definition isPathFrom (edges : list GraphEdge) (s : string) (l : list string) : Prop :=
  (l = [] ∨ head l = Some s) ∧
  ∀ i a b, l !! i = Some a → l !! S i = Some b → edgeRel edges a b.

(** The current node of a DFS record sits on top of its stack (push and
    visit records), or was just popped from it: then the stack is empty
    and the node is the start, or the top of the stack has an edge to it. *)
Definition onOrOffStack (edges : list GraphEdge) (s : string) (r : DFS.Step) : Prop :=
  last (DFS.stack r) = Some (DFS.currentNode r) ∨
  (DFS.stack r = [] ∧ DFS.currentNode r = s) ∨
  (∃ p, last (DFS.stack r) = Some p ∧ edgeRel edges p (DFS.currentNode r)).

(** ** Invariants used by the proofs *)

(** The finished ("black") ids: visited and no longer on the recursion stack. *)
Definition finished (st : CycleState) : gset string :=
  visitedSet st ∖ recursionStack st.

(** What holds of the two sets between any two calls of [dfs]: the stack
    is visited, the finished ids are closed under the arcs, and no cycle
    passes through a finished id. *)
Record cycleInv (edges : list GraphEdge) (st : CycleState) : Prop := mkCycleInv
  { inv_stack : recursionStack st ⊆ visitedSet st;
    inv_closed : ∀ b c, b ∈ finished st → edgeRel edges b c → c ∈ finished st;
    inv_acyclic : ∀ b, b ∈ finished st → ¬ tc (edgeRel edges) b b }.

(** Postcondition shared by [hasCycle]'s [dfs] and its neighbour loop. *)
Definition cyclePost (edges : list GraphEdge) (st0 : CycleState) (b : bool)
    (st' : CycleState) : Prop :=
  if b then hasDirectedCycle edges
  else cycleInv edges st' ∧ recursionStack st' = recursionStack st0 ∧
       visitedSet st0 ⊆ visitedSet st'.

(** [grows V V']: the only change from [V] to [V'] is entries going from 0 to 1. *)
Definition grows (V V' : gmap string Z) : Prop :=
  ∀ k, V' !! k = V !! k ∨ (V !! k = Some 0 ∧ V' !! k = Some 1).

(** [newly V V' k]: [k] is marked between [V] and [V']. *)
Definition newly (V V' : gmap string Z) (k : string) : Prop :=
  V !! k = Some 0 ∧ V' !! k = Some 1.

(** The ids marked 1. *)
Definition oneSet (V : gmap string Z) : gset string :=
  dom (filter (λ kv, kv.2 = 1) V).

(** The ids still marked 0. *)
Definition zeroSet (V : gmap string Z) : gset string :=
  dom (filter (λ kv, kv.2 = 0) V).

(** The entries of a visited map of a graph: listed ids are mapped to 0 or
    1, and nothing else is mapped to 0. *)
Definition okV (nodes : list GraphNode) (V : gmap string Z) : Prop :=
  ∀ k, (k ∈ nodeIds nodes → V !! k = Some 0 ∨ V !! k = Some 1) ∧
       (V !! k = Some 0 → k ∈ nodeIds nodes).

(** What a call of [dfs] on [n] with stack [stk], or a run of its
    neighbour loop, adds to the trace ([new]) and does to the visited map
    (from [V] to [V']). *)
Record dfsPost (nodes : list GraphNode) (edges : list GraphEdge)
    (n : string) (stk : list string) (V : gmap string Z)
    (new : list DFS.Step) (V' : gmap string Z) : Prop := mkDfsPost
  { post_grows : grows V V';
    post_snap : ∀ r, r ∈ new → grows V (DFS.visited r) ∧ grows (DFS.visited r) V';
    post_cur : ∀ r, r ∈ new → newly V V' (DFS.currentNode r);
    post_stack : ∀ r x, r ∈ new → x ∈ DFS.stack r → x ∈ stk ∨ newly V V' x;
    post_reach : ∀ m, newly V V' m → rtc (listedEdge nodes edges) n m;
    post_records : ∀ m, newly V V' m → dfsNodeRecords (listedEdge nodes edges) new m }.

(** [sortedSplit D O]: wherever the list [O] is cut, what stands before
    the cut is no farther (by [D]) than what stands after it. *)
Definition sortedSplit (D : string → nat → Prop) (O : list string) : Prop :=
  ∀ l1 l2 x y dx dy, O = l1 ++ l2 → x ∈ l1 → y ∈ l2 → D x dx → D y dy → (dx ≤ dy)%nat.

(** The loop invariant of [bfsStepsDetailed], for the start [s].  The ids
    marked so far, in marking order, are [P' ++ Q]: [Q] is the queue, [P']
    the ids already dequeued, [closed] those of them whose neighbour loop
    is over.  Distances are measured along the arcs into listed nodes. *)
Record bfsInv (nodes : list GraphNode) (edges : list GraphEdge) (s : string)
    (closed P' Q : list string) (V : gmap string Z) (T : list BFS.Step)
    : Prop := mkBfsInv
  { bi_start : s ∈ P' ++ Q;
    bi_ones : ∀ k, V !! k = Some 1 ↔ k ∈ P' ++ Q;
    bi_listed : ∀ k, k ∈ nodeIds nodes → V !! k = Some 0 ∨ V !! k = Some 1;
    bi_zero : ∀ k, V !! k = Some 0 → k ∈ nodeIds nodes;
    bi_dom : ∀ k, is_Some (V !! k) → k = s ∨ k ∈ nodeIds nodes;
    bi_dist : ∀ x, x ∈ P' ++ Q → ∃ d, shortest (listedEdge nodes edges) s x d;
    bi_sorted : sortedSplit (shortest (listedEdge nodes edges) s) (P' ++ Q);
    bi_closed : ∀ x c, x ∈ closed → listedEdge nodes edges x c → c ∈ P' ++ Q;
    bi_trace : ∀ r, r ∈ T → ∃ Or rest, P' ++ Q = Or ++ rest ∧
                 (∀ k, BFS.visited r !! k = Some 1 ↔ k ∈ Or) ∧
                 (∀ x, x ∈ BFS.queue r → x ∈ Or) ∧ BFS.currentNode r ∈ Or ∧
                 (∀ k, is_Some (BFS.visited r !! k) → k = s ∨ k ∈ nodeIds nodes) }.

(** Relative to the id [u] being processed: nothing marked is more than
    one step farther, and everything nearer is closed. *)
Definition frontBound (nodes : list GraphNode) (edges : list GraphEdge) (s u : string)
    (O : list string) : Prop :=
  ∀ x dx du, x ∈ O → shortest (listedEdge nodes edges) s x dx →
             shortest (listedEdge nodes edges) s u du → (dx ≤ S du)%nat.

Definition frontClosed (nodes : list GraphNode) (edges : list GraphEdge) (s u : string)
    (closed O : list string) : Prop :=
  ∀ p dp du, p ∈ O → shortest (listedEdge nodes edges) s p dp →
             shortest (listedEdge nodes edges) s u du → (dp < du)%nat → p ∈ closed.

(** The endpoints of an edge. *)
Definition ends (e : GraphEdge) : string * string := (source e, target e).

(** What the edge loop of [generateRandomDAG] maintains. *)
Record randomInv (nodes : list GraphNode) (numEdges : nat) (rnd : nat → nat * nat)
    (edges : list GraphEdge) (edgeCount : nat) : Prop := mkRandomInv
  { ri_acyclic : hasCycle nodes edges = Some false;
    ri_nodup : NoDup (ends <$> edges);
    ri_forward : ∀ e, e ∈ edges →
      ∃ k, source e = nodeIdOf (rnd k).1 ∧ target e = nodeIdOf (rnd k).2 ∧
           ((rnd k).1 < (rnd k).2)%nat;
    ri_count : length edges = edgeCount ∧ (edgeCount ≤ numEdges)%nat }.

(** Postcondition shared by [dfsSteps]'s [dfs] and its neighbour loop:
    [new] is what the call appends to the traversal. *)
Record dfsSimplePost (edges : list GraphEdge) (roots : list string)
    (st st' : DfsSimpleState) (new : list string) : Prop := mkDfsSimplePost
  { sp_traversal : traversal st' = traversal st ++ new;
    sp_visited : simpleVisited st' = simpleVisited st ∪ list_to_set new;
    sp_nodup : NoDup new;
    sp_fresh : ∀ x, x ∈ new → x ∉ simpleVisited st;
    sp_reach : ∀ x, x ∈ new → ∃ r, r ∈ roots ∧ rtc (edgeRel edges) r x;
    sp_closed : ∀ x y, x ∈ new → edgeRel edges x y → y ∈ simpleVisited st';
    sp_parent : ∀ i x, new !! i = Some x →
      x ∈ roots ∨ ∃ j p, (j < i)%nat ∧ new !! j = Some p ∧ edgeRel edges p x }.

(** The states of the two DFS generators at corresponding moments: the
    map of the detailed one marks the ids of the set of the simple one,
    and the simple traversal is the push order of the detailed trace. *)
Definition dfsSim (nodes : list GraphNode) (st : DfsState) (sst : DfsSimpleState) : Prop :=
  (∀ k, k ∈ nodeIds nodes →
     dfsVisited st !! k = Some (if decide (k ∈ simpleVisited sst) then 1 else 0)) ∧
  dfsPushOrder (dfsTrace st) = traversal sst.

(** The last record of the BFS trace shows the current queue and map,
    every listed id has an entry 0 or 1, and there are two records for
    each marked id, one of them still to come for the ids in the queue. *)
Definition bfsCurrent (nodes : list GraphNode) (st : BfsState) : Prop :=
  (∃ T r, bfsTrace st = T ++ [r] ∧
          BFS.visited r = bfsVisited st ∧ BFS.queue r = bfsQueue st) ∧
  (∀ k, k ∈ nodeIds nodes → bfsVisited st !! k = Some 0 ∨ bfsVisited st !! k = Some 1) ∧
  (length (bfsTrace st) + length (bfsQueue st) = 2 * size (oneSet (bfsVisited st)))%nat.

(** Three records are added to the DFS trace for each id that gets marked. *)
Definition dfsCount (st st' : DfsState) : Prop :=
  (length (dfsTrace st') + 3 * size (oneSet (dfsVisited st))
   = length (dfsTrace st) + 3 * size (oneSet (dfsVisited st')))%nat.

(** * Graph representation builders *)

Section adjacency.
Implicit Types (adj : gmap string (list string)) (edges : list GraphEdge).

Lemma pushAt_lookup k v adj x :
  pushAt k v adj !! x =
    if decide (x = k) then Some (default [] (adj !! k) ++ [v]) else adj !! x.
Proof.
  unfold pushAt. case_decide as Hx.
  - subst x. rewrite lookup_alter_eq.
    destruct (adj !! k) as [l|] eqn:Hk.
    + by rewrite Hk.
    + by rewrite lookup_insert_eq.
  - rewrite lookup_alter_ne by done.
    destruct (adj !! k); [done|]. by rewrite lookup_insert_ne.
Qed.

Lemma fold_pushAt_lookup (key val : GraphEdge → string) edges adj x :
  default [] (fold_left (λ a e, pushAt (key e) (val e) a) edges adj !! x) =
    default [] (adj !! x) ++ (val <$> filter (λ e, key e = x) edges).
Proof.
  revert adj. induction edges as [|e edges IH]; intros adj; simpl.
  - by rewrite app_nil_r.
  - rewrite IH, pushAt_lookup. rewrite filter_cons.
    destruct (decide (key e = x)) as [->|Hne].
    + rewrite decide_True by done. simpl. by rewrite <- app_assoc.
    + rewrite decide_False by congruence. done.
Qed.

Lemma fold_pushAt_None (key val : GraphEdge → string) edges adj x :
  adj !! x = None → (∀ e, e ∈ edges → key e ≠ x) →
  fold_left (λ a e, pushAt (key e) (val e) a) edges adj !! x = None.
Proof.
  revert adj. induction edges as [|e edges IH]; intros adj Hx Hk; simpl; [done|].
  apply IH.
  - rewrite pushAt_lookup, decide_False; [done|].
    intros ->. by apply (Hk e); [left|].
  - intros e' He'. apply Hk. by right.
Qed.

Lemma buildAdjacencyList_successors edges x :
  default [] (buildAdjacencyList edges !! x) = successors edges x.
Proof. unfold buildAdjacencyList, successors. by rewrite fold_pushAt_lookup. Qed.

Lemma elem_of_successors edges x c : c ∈ successors edges x ↔ edgeRel edges x c.
Proof.
  unfold successors, edgeRel. rewrite list_elem_of_fmap. split.
  - intros (e & -> & He). apply list_elem_of_filter in He as [Hs He]. eauto.
  - intros (e & He & Hs & Ht). exists e. split; [done|].
    apply list_elem_of_filter. done.
Qed.

Lemma edgesReferenceNodes_elem nodes edges e :
  edgesReferenceNodes nodes edges → e ∈ edges →
  source e ∈ nodeIds nodes ∧ target e ∈ nodeIds nodes.
Proof. unfold edgesReferenceNodes. rewrite Forall_forall. auto. Qed.

(** The adjacency list reads the endpoints of the edges only. *)
Lemma buildAdjacencyList_ends edges1 edges2 :
  (λ e, (source e, target e)) <$> edges1 = (λ e, (source e, target e)) <$> edges2 →
  buildAdjacencyList edges1 = buildAdjacencyList edges2.
Proof.
  unfold buildAdjacencyList. generalize (∅ : gmap string (list string)) as adj.
  revert edges2. induction edges1 as [|e1 edges1 IH]; intros [|e2 edges2] adj Heq;
    simpl in *; try done.
  injection Heq as Hs Ht Hrest. rewrite Hs, Ht. by apply IH.
Qed.

Lemma edgeRel_ends edges1 edges2 a b :
  (λ e, (source e, target e)) <$> edges1 = (λ e, (source e, target e)) <$> edges2 →
  edgeRel edges1 a b → edgeRel edges2 a b.
Proof.
  intros Heq (e & He & Hs & Ht).
  assert ((a, b) ∈ (λ e, (source e, target e)) <$> edges2) as Hin.
  { rewrite <- Heq. apply list_elem_of_fmap. exists e. by rewrite Hs, Ht. }
  apply list_elem_of_fmap in Hin as (e' & Hp & He'). injection Hp as -> ->.
  by exists e'.
Qed.
End adjacency.

(** * Cycle detector *)


Section cycle.
Variable edges : list GraphEdge.
Variable U : gset string.
Hypothesis U_targets : ∀ a b, edgeRel edges a b → b ∈ U.

Local Abbreviation R := (edgeRel edges).
Local Abbreviation adj := (buildAdjacencyList edges).

Lemma finished_closed_rtc st b c :
  cycleInv edges st → b ∈ finished st → rtc R b c → c ∈ finished st.
Proof. intros Hinv Hb Hbc. induction Hbc; eauto using inv_closed. Qed.


Lemma cycleLoop_spec (rec : string → CycleState → option (bool * CycleState))
    (fuel : nat) (n : string) :
  (∀ c st, cycleInv edges st → c ∉ visitedSet st → c ∈ U →
     (size (U ∖ visitedSet st) ≤ fuel)%nat →
     (∀ r, r ∈ recursionStack st → rtc R r c) →
     ∃ b st', rec c st = Some (b, st') ∧ cyclePost edges st b st' ∧
              (b = false → c ∈ visitedSet st')) →
  ∀ neighbors st,
    cycleInv edges st → n ∈ recursionStack st →
    (size (U ∖ visitedSet st) ≤ fuel)%nat →
    (∀ r, r ∈ recursionStack st → rtc R r n) →
    (∀ c, c ∈ neighbors → R n c) →
    ∃ b st', cycleLoop rec neighbors st = Some (b, st') ∧ cyclePost edges st b st' ∧
             (b = false → ∀ c, c ∈ neighbors → c ∈ finished st').
Proof.
  intros Hrec. induction neighbors as [|c rest IH]; intros st Hinv Hn Hfuel Hchain Hsucc.
  - exists false, st. split; [done|]. split; [by unfold cyclePost|].
    intros _ c Hc. by apply elem_of_nil in Hc.
  - simpl. assert (R n c) as Hnc by (apply Hsucc; left).
    assert (∀ c', c' ∈ rest → R n c') as Hrest by (intros; apply Hsucc; by right).
    destruct (decide (c ∈ visitedSet st)) as [Hvis|Hvis].
    + destruct (decide (c ∈ recursionStack st)) as [Hstk|Hstk].
      * exists true, st. split; [done|]. split; [|done].
        exists n. eapply tc_rtc_r; [by apply tc_once|]. by apply Hchain.
      * destruct (IH st) as (b & st' & Hres & Hpost & Hfin); try done.
        exists b, st'. split; [done|]. split; [done|].
        intros -> c' [->|Hc']%elem_of_cons; [|by apply Hfin].
        destruct Hpost as (_ & Hstk' & Hsub). unfold finished. rewrite Hstk'. set_solver.
    + destruct (Hrec c st) as (b & st' & Hres & Hpost & Hcvis); try done.
      { by apply (U_targets n). }
      { intros r Hr. eapply rtc_r; [by apply Hchain|done]. }
      rewrite Hres. destruct b.
      { exists true, st'. done. }
      destruct Hpost as (Hinv' & Hstk' & Hsub).
      destruct (IH st') as (b & st'' & Hres' & Hpost' & Hfin); try done.
      { by rewrite Hstk'. }
      { etrans; [|exact Hfuel]. apply subseteq_size. set_solver. }
      { intros r Hr. apply Hchain. by rewrite <- Hstk'. }
      exists b, st''. split; [done|]. destruct b; [done|].
      destruct Hpost' as (Hinv'' & Hstk'' & Hsub').
      split; [split; [done|split; [congruence|set_solver]]|].
      intros _ c' [->|Hc']%elem_of_cons; [|by apply Hfin].
      unfold finished. rewrite Hstk'', Hstk'.
      assert (c ∉ recursionStack st) by (pose proof (inv_stack _ _ Hinv); set_solver).
      specialize (Hcvis eq_refl). set_solver.
Qed.

Lemma cycleDfs_spec fuel : ∀ n st,
  cycleInv edges st → n ∉ visitedSet st → n ∈ U →
  (size (U ∖ visitedSet st) ≤ fuel)%nat →
  (∀ r, r ∈ recursionStack st → rtc R r n) →
  ∃ b st', cycleDfs fuel adj n st = Some (b, st') ∧ cyclePost edges st b st' ∧
           (b = false → n ∈ visitedSet st').
Proof.
  induction fuel as [|fuel IH]; intros n st Hinv Hn HnU Hfuel Hchain.
  { exfalso. assert (size (U ∖ visitedSet st) ≠ 0)%nat; [|lia].
    intros Hz%size_empty_inv. set_solver. }
  simpl. set (st1 := mkCycleState _ _).
  pose proof (inv_stack _ _ Hinv) as Hstk.
  assert (finished st1 = finished st) as Hfin1.
  { unfold finished, st1. simpl. set_solver. }
  assert (cycleInv edges st1) as Hinv1.
  { split.
    - unfold st1. simpl. set_solver.
    - rewrite Hfin1. apply Hinv.
    - rewrite Hfin1. apply Hinv. }
  destruct (cycleLoop_spec (cycleDfs fuel adj) fuel n IH
              (default [] (adj !! n)) st1) as (b & st' & Hres & Hpost & Hsucc); try done.
  { unfold st1. simpl. set_solver. }
  { unfold st1. simpl.
    assert (size (U ∖ visitedSet st) = S (size (U ∖ ({[n]} ∪ visitedSet st))))%nat; [|lia].
    replace (U ∖ visitedSet st) with ({[n]} ∪ U ∖ ({[n]} ∪ visitedSet st)).
    - rewrite size_union by set_solver. by rewrite size_singleton.
    - apply set_eq. intros x. rewrite elem_of_union, !elem_of_difference, elem_of_union,
        elem_of_singleton. destruct (decide (x = n)); naive_solver. }
  { unfold st1. simpl. intros r [->%elem_of_singleton|Hr]%elem_of_union; [done|by apply Hchain]. }
  { intros c Hc. rewrite buildAdjacencyList_successors in Hc. by apply elem_of_successors. }
  rewrite Hres. destruct b.
  { exists true, st'. done. }
  destruct Hpost as (Hinv' & Hstk' & Hsub).
  set (st2 := mkCycleState _ _). exists false, st2. split; [done|].
  assert (recursionStack st2 = recursionStack st) as Hstk2.
  { unfold st2. simpl. rewrite Hstk'. unfold st1. simpl. set_solver. }
  assert (n ∈ visitedSet st') as Hnvis by (unfold st1 in Hsub; simpl in Hsub; set_solver).
  assert (finished st2 = {[n]} ∪ finished st') as Hfin2.
  { unfold finished. rewrite Hstk2. unfold st2. simpl. rewrite Hstk'. unfold st1. simpl.
    apply set_eq. intros x. rewrite elem_of_union, !elem_of_difference, elem_of_union,
      elem_of_singleton. destruct (decide (x = n)) as [->|]; [|naive_solver].
    split; [naive_solver|]. intros _. split; [done|set_solver]. }
  assert (n ∉ finished st') as Hnfin.
  { unfold finished. rewrite Hstk'. unfold st1. simpl. set_solver. }
  assert (∀ c, R n c → c ∈ finished st') as Hsucc'.
  { intros c Hc. apply Hsucc; [done|].
    rewrite buildAdjacencyList_successors. by apply elem_of_successors. }
  split; [|done]. split; [split|split; [done|]].
  - rewrite Hstk2. unfold st2. simpl. unfold st1 in Hsub. simpl in Hsub. set_solver.
  - rewrite Hfin2. intros b c [->%elem_of_singleton|Hb]%elem_of_union Hbc.
    + apply elem_of_union. right. by apply Hsucc'.
    + apply elem_of_union. right. by apply (inv_closed _ _ Hinv' b).
  - rewrite Hfin2. intros b [->%elem_of_singleton|Hb]%elem_of_union Hcyc.
    + apply Hnfin. inversion Hcyc as [x y Hxy|x y z Hxy Hyz]; subst.
      * by apply Hsucc'.
      * apply (finished_closed_rtc st' y); [done|by apply Hsucc'|by apply tc_rtc].
    + by apply (inv_acyclic _ _ Hinv' b).
  - unfold st2, st1 in *. simpl in *. set_solver.
Qed.

Lemma cycleRoots_spec fuel : ∀ ids st,
  cycleInv edges st → recursionStack st = ∅ →
  (size U ≤ fuel)%nat → (∀ x, x ∈ ids → x ∈ U) →
  ∃ b, cycleRoots fuel adj ids st = Some b ∧
       if b then hasDirectedCycle edges
       else ∃ st', cycleInv edges st' ∧ recursionStack st' = ∅ ∧
                   visitedSet st ⊆ visitedSet st' ∧ ∀ x, x ∈ ids → x ∈ visitedSet st'.
Proof.
  induction ids as [|n ids IH]; intros st Hinv Hstk Hfuel HU; simpl.
  - exists false. split; [done|]. exists st. split_and!; try done.
    intros x Hx. by apply elem_of_nil in Hx.
  - assert (∀ x, x ∈ ids → x ∈ U) as HU' by (intros; apply HU; by right).
    destruct (decide (n ∈ visitedSet st)) as [Hn|Hn].
    + destruct (IH st) as (b & Hres & Hpost); try done. exists b. split; [done|].
      destruct b; [done|]. destruct Hpost as (st' & ? & ? & ? & Hall).
      exists st'. split_and!; try done.
      intros x [->|Hx]%elem_of_cons; [set_solver|by apply Hall].
    + destruct (cycleDfs_spec fuel n st) as (b & st' & Hres & Hpost & Hnvis); try done.
      { apply HU. by left. }
      { etrans; [|exact Hfuel]. apply subseteq_size. set_solver. }
      { intros r Hr. rewrite Hstk in Hr. set_solver. }
      rewrite Hres. destruct b.
      { exists true. done. }
      destruct Hpost as (Hinv' & Hstk' & Hsub).
      destruct (IH st') as (b & Hres' & Hpost'); try done; [congruence|].
      exists b. split; [done|]. destruct b; [done|].
      destruct Hpost' as (st'' & ? & ? & ? & Hall).
      exists st''. split_and!; try done; [set_solver|].
      intros x [->|Hx]%elem_of_cons; [|by apply Hall].
      specialize (Hnvis eq_refl). set_solver.
Qed.
End cycle.

Lemma size_list_to_set_le (l : list string) :
  (size (list_to_set l : gset string) ≤ length l)%nat.
Proof.
  induction l as [|x l IH].
  - by rewrite list_to_set_nil, size_empty.
  - rewrite list_to_set_cons, size_union_alt, size_singleton. cbn [length].
    assert (size (list_to_set l ∖ {[x]} : gset string) ≤ size (list_to_set l : gset string))%nat
      by (apply subseteq_size; set_solver).
    lia.
Qed.

(** [hasCycle] returns, and what it returns is sound and, over the visited
    part of the graph, complete. *)
Lemma hasCycle_spec nodes edges :
  ∃ b, hasCycle nodes edges = Some b ∧
       if b then hasDirectedCycle edges
       else ∀ x, x ∈ nodeIds nodes → ¬ tc (edgeRel edges) x x.
Proof.
  set (U := list_to_set (nodeIds nodes ++ (target <$> edges)) : gset string).
  destruct (cycleRoots_spec edges U) with (fuel := cycleFuel nodes edges)
    (ids := nodeIds nodes) (st := mkCycleState ∅ ∅) as (b & Hres & Hpost).
  - intros a b (e & He & _ & <-). apply elem_of_list_to_set, elem_of_app. right.
    by apply list_elem_of_fmap_2.
  - split; unfold finished; simpl; set_solver.
  - done.
  - unfold cycleFuel, U. etrans; [apply size_list_to_set_le|].
    rewrite length_app. unfold nodeIds. rewrite !length_fmap. lia.
  - intros x Hx. apply elem_of_list_to_set, elem_of_app. by left.
  - exists b. split; [done|]. destruct b; [done|].
    destruct Hpost as (st' & Hinv & Hstk & _ & Hall).
    intros x Hx. apply (inv_acyclic _ _ Hinv). unfold finished. rewrite Hstk.
    specialize (Hall x Hx). set_solver.
Qed.

Lemma hasCycle_ends nodes edges1 edges2 :
  (λ e, (source e, target e)) <$> edges1 = (λ e, (source e, target e)) <$> edges2 →
  hasCycle nodes edges1 = hasCycle nodes edges2.
Proof.
  intros Heq. unfold hasCycle, cycleFuel.
  rewrite (buildAdjacencyList_ends _ _ Heq).
  assert (length edges1 = length edges2) as ->; [|done].
  by rewrite <- (length_fmap (λ e, (source e, target e)) edges1), Heq, length_fmap.
Qed.

Lemma cycle_source_listed nodes edges x :
  edgesReferenceNodes nodes edges → tc (edgeRel edges) x x → x ∈ nodeIds nodes.
Proof.
  intros Hwf Hcyc.
  assert (∃ y, edgeRel edges x y) as (y & e & He & <- & _).
  { inversion Hcyc; subst; eauto. }
  by apply (edgesReferenceNodes_elem nodes edges e).
Qed.

Lemma hasCycle_false_acyclic nodes edges :
  edgesReferenceNodes nodes edges → hasCycle nodes edges = Some false →
  ¬ hasDirectedCycle edges.
Proof.
  intros Hwf Hres [x Hx].
  destruct (hasCycle_spec nodes edges) as (b & Hb & Hpost).
  rewrite Hres in Hb. injection Hb as <-.
  apply (Hpost x); [|done]. by eapply cycle_source_listed.
Qed.

Lemma hasCycle_true_cyclic nodes edges :
  hasCycle nodes edges = Some true → hasDirectedCycle edges.
Proof.
  intros Hres. destruct (hasCycle_spec nodes edges) as (b & Hb & Hpost).
  rewrite Hres in Hb. by injection Hb as <-.
Qed.

Lemma hasCycle_total nodes edges :
  hasCycle nodes edges = Some true ∨ hasCycle nodes edges = Some false.
Proof. destruct (hasCycle_spec nodes edges) as ([|] & Hb & _); auto. Qed.

(** * Visited maps *)


Section visited_maps.
Implicit Types V : gmap string Z.

Lemma grows_refl V : grows V V.
Proof. intros k. by left. Qed.

Lemma grows_trans V1 V2 V3 : grows V1 V2 → grows V2 V3 → grows V1 V3.
Proof.
  intros H12 H23 k. destruct (H12 k) as [E1|[E1 E1']], (H23 k) as [E2|[E2 E2']].
  - left. congruence.
  - right. split; congruence.
  - right. split; congruence.
  - congruence.
Qed.

Lemma grows_insert V n : V !! n = Some 0 → grows V (<[n:=1]> V).
Proof.
  intros Hn k. destruct (decide (k = n)) as [->|Hne].
  - right. by rewrite lookup_insert_eq.
  - left. by rewrite lookup_insert_ne.
Qed.

Lemma grows_one V V' k : grows V V' → V !! k = Some 1 → V' !! k = Some 1.
Proof. intros H H1. destruct (H k) as [E|[E _]]; congruence. Qed.

Lemma grows_zero V V' k : grows V V' → V' !! k = Some 0 → V !! k = Some 0.
Proof. intros H H0. destruct (H k) as [E|[_ E]]; congruence. Qed.

Lemma grows_None V V' k : grows V V' → V !! k = None → V' !! k = None.
Proof. intros H H0. destruct (H k) as [E|[E _]]; congruence. Qed.

Lemma grows_one_inv V V' k : grows V V' → V' !! k = Some 1 → V !! k = Some 1 ∨ newly V V' k.
Proof. intros H H1. destruct (H k) as [E|[E _]]; [left; congruence|by right]. Qed.

Lemma newly_split V V1 V2 k :
  grows V V1 → grows V1 V2 → newly V V2 k → newly V V1 k ∨ newly V1 V2 k.
Proof.
  intros H1 H2 [H0 H]. destruct (H1 k) as [E|[_ E]].
  - right. split; congruence.
  - left. by split.
Qed.

Lemma newly_l V V1 V2 k : grows V1 V2 → newly V V1 k → newly V V2 k.
Proof. intros H2 [H0 H]. split; [done|]. by eapply grows_one. Qed.

Lemma newly_r V V1 V2 k : grows V V1 → newly V1 V2 k → newly V V2 k.
Proof. intros H1 [H0 H]. split; [|done]. by eapply grows_zero. Qed.

Lemma elem_of_zeroSet V k : k ∈ zeroSet V ↔ V !! k = Some 0.
Proof.
  unfold zeroSet. rewrite elem_of_dom. split.
  - intros [v Hv]. apply map_lookup_filter_Some in Hv as [Hv Hz]. simpl in Hz. by subst.
  - intros Hk. exists 0. by apply map_lookup_filter_Some.
Qed.

Lemma zeroSet_grows V V' : grows V V' → zeroSet V' ⊆ zeroSet V.
Proof. intros H k. rewrite !elem_of_zeroSet. by apply grows_zero. Qed.

Lemma zeroSet_size_newly V V' k :
  grows V V' → newly V V' k → (S (size (zeroSet V')) ≤ size (zeroSet V))%nat.
Proof.
  intros H [H0 H1]. apply Nat.le_succ_l, subset_size. split.
  - by apply zeroSet_grows.
  - intros Hsub. assert (k ∈ zeroSet V') as Hk by (apply Hsub; by apply elem_of_zeroSet).
    apply elem_of_zeroSet in Hk. congruence.
Qed.

Lemma initVisited_lookup nodes k :
  initVisited nodes !! k = if decide (k ∈ nodeIds nodes) then Some 0 else None.
Proof.
  unfold initVisited.
  assert (∀ V, fold_left (λ m n, <[node_id n := 0]> m) nodes V !! k =
               if decide (k ∈ nodeIds nodes) then Some 0 else V !! k) as Hgen.
  { induction nodes as [|n nodes IH]; intros V; simpl.
    - done.
    - rewrite IH. destruct (decide (k ∈ nodeIds nodes)) as [Hin|Hin].
      + rewrite decide_True; [done|]. by right.
      + destruct (decide (k = node_id n)) as [->|Hne].
        * rewrite decide_True by left. by rewrite lookup_insert_eq.
        * rewrite decide_False; [by rewrite lookup_insert_ne|].
          intros [?|?]%elem_of_cons; done. }
  rewrite Hgen. by rewrite lookup_empty.
Qed.

Lemma zeroSet_initVisited nodes : (size (zeroSet (initVisited nodes)) ≤ length nodes)%nat.
Proof.
  etrans; [apply (subseteq_size _ (list_to_set (nodeIds nodes)))|].
  - intros k Hk%elem_of_zeroSet. rewrite initVisited_lookup in Hk.
    apply elem_of_list_to_set. by destruct (decide (k ∈ nodeIds nodes)).
  - etrans; [apply size_list_to_set_le|]. unfold nodeIds. by rewrite length_fmap.
Qed.
End visited_maps.

(** * DFS trace generator *)

Section dfs_records.
Variable E : relation string.
Implicit Types (T : list DFS.Step) (m : string).

Lemma dfsNodeRecords_app_l T1 T2 m :
  dfsNodeRecords E T1 m →
  (∀ r, r ∈ T2 → DFS.currentNode r ≠ m) →
  (∀ r s s' c, r ∈ T2 → s ∈ T1 → s' ∈ T1 →
     DFS.visited s !! c = Some 0 → DFS.visited s' !! c = Some 1 → DFS.currentNode r ≠ c) →
  dfsNodeRecords E (T1 ++ T2) m.
Proof.
  intros (pre & push & visit & inner & pop & post & -> & Hother & Hcur & Hpush & Hvisit &
          Hpop & Hsucc & Hnest) Hm Hc.
  exists pre, push, visit, inner, pop, (post ++ T2). split_and!; try tauto.
  - by rewrite <- !app_assoc.
  - intros r Hr. rewrite !elem_of_app in Hr. destruct Hr as [?|[?|[?|?]]];
      [apply Hother; rewrite !elem_of_app; auto..|by apply Hm].
  - intros c r Hmc Hzero Hr. rewrite !elem_of_app in Hr. destruct Hr as [?|[?|?]];
      [apply (Hnest c r); rewrite ?elem_of_app; auto..|].
    apply (Hc r visit pop c); try done.
    + rewrite !elem_of_app, !elem_of_cons. auto.
    + rewrite !elem_of_app, !elem_of_cons. auto.
    + by apply Hsucc.
Qed.

Lemma dfsNodeRecords_app_r T1 T2 m :
  dfsNodeRecords E T2 m →
  (∀ r, r ∈ T1 → DFS.currentNode r ≠ m) →
  (∀ r s c, r ∈ T1 → s ∈ T2 → DFS.visited s !! c = Some 0 → DFS.currentNode r ≠ c) →
  dfsNodeRecords E (T1 ++ T2) m.
Proof.
  intros (pre & push & visit & inner & pop & post & -> & Hother & Hcur & Hpush & Hvisit &
          Hpop & Hsucc & Hnest) Hm Hc.
  exists (T1 ++ pre), push, visit, inner, pop, post. split_and!; try tauto.
  - by rewrite <- !app_assoc.
  - intros r Hr. rewrite !elem_of_app in Hr. destruct Hr as [[?|?]|[?|?]];
      [by apply Hm|apply Hother; rewrite !elem_of_app; auto..].
  - intros c r Hmc Hzero Hr. rewrite !elem_of_app in Hr. destruct Hr as [[?|?]|?];
      [|apply (Hnest c r); rewrite ?elem_of_app; auto..].
    apply (Hc r visit c); try done.
    rewrite !elem_of_app, !elem_of_cons. auto.
Qed.

Lemma dfsNodeRecords_intro n stk (V Vend : gmap string Z) inner :
  V !! n = Some 0 → n ∉ stk →
  (∀ r, r ∈ inner → DFS.currentNode r ≠ n) →
  (∀ c, E n c → Vend !! c = Some 1) →
  dfsNodeRecords E
    ([DFS.mkStep n (stk ++ [n]) V; DFS.mkStep n (stk ++ [n]) (<[n:=1]> V)]
       ++ inner ++ [DFS.mkStep n stk Vend]) n.
Proof.
  intros HV Hstk Hinner Hsucc.
  exists [], (DFS.mkStep n (stk ++ [n]) V), (DFS.mkStep n (stk ++ [n]) (<[n:=1]> V)),
    inner, (DFS.mkStep n stk Vend), [].
  split_and!; simpl; try done.
  - intros r Hr. rewrite app_nil_r in Hr. by apply Hinner.
  - by rewrite lookup_insert_eq.
  - intros c r _ _ Hr. by apply elem_of_nil in Hr.
Qed.
End dfs_records.

Section dfs.
Variables (nodes : list GraphNode) (edges : list GraphEdge).

Local Abbreviation ids := (nodeIds nodes).
Local Abbreviation L := (listedEdge nodes edges).
Local Abbreviation adj := (buildAdjacencyList edges).


Lemma okV_grows V V' : okV nodes V → grows V V' → okV nodes V'.
Proof.
  intros Hok Hg k. destruct (Hok k) as [H1 H2]. split.
  - intros Hk. destruct (Hg k) as [E|[_ E]]; [rewrite E; auto|auto].
  - intros Hk. apply H2. by eapply grows_zero.
Qed.

Lemma okV_initVisited : okV nodes (initVisited nodes).
Proof.
  intros k. rewrite initVisited_lookup. destruct (decide (k ∈ ids)); split; auto; done.
Qed.


Lemma dfsPost_nil n stk V : dfsPost nodes edges n stk V [] V.
Proof.
  split; try (intros r; rewrite elem_of_nil; done); try (intros r x; rewrite elem_of_nil; done).
  - apply grows_refl.
  - intros m [H0 H1]. congruence.
  - intros m [H0 H1]. congruence.
Qed.

Lemma dfsPost_root n c stk V new V' :
  rtc L n c → dfsPost nodes edges c stk V new V' → dfsPost nodes edges n stk V new V'.
Proof.
  intros Hnc [Hg Hsnap Hcur Hstack Hreach Hrec]. split; try done.
  intros m Hm. etrans; [exact Hnc|]. by apply Hreach.
Qed.

Lemma dfsPost_app n stk V new1 V1 new2 V2 :
  dfsPost nodes edges n stk V new1 V1 → dfsPost nodes edges n stk V1 new2 V2 →
  dfsPost nodes edges n stk V (new1 ++ new2) V2.
Proof.
  intros [Hg1 Hsnap1 Hcur1 Hstack1 Hreach1 Hrec1] [Hg2 Hsnap2 Hcur2 Hstack2 Hreach2 Hrec2].
  split.
  - by eapply grows_trans.
  - intros r [Hr|Hr]%elem_of_app.
    + destruct (Hsnap1 r Hr). split; [done|]. by eapply grows_trans.
    + destruct (Hsnap2 r Hr). split; [|done]. by eapply grows_trans.
  - intros r [Hr|Hr]%elem_of_app.
    + eapply newly_l; [exact Hg2|]. by apply Hcur1.
    + eapply newly_r; [exact Hg1|]. by apply Hcur2.
  - intros r x [Hr|Hr]%elem_of_app Hx.
    + destruct (Hstack1 r x Hr Hx) as [?|?]; [by left|right]. by eapply newly_l.
    + destruct (Hstack2 r x Hr Hx) as [?|?]; [by left|right]. by eapply newly_r.
  - intros m Hm. destruct (newly_split _ _ _ _ Hg1 Hg2 Hm); auto.
  - intros m Hm. destruct (newly_split _ _ _ _ Hg1 Hg2 Hm) as [Hm1|Hm2].
    + apply dfsNodeRecords_app_l; [by apply Hrec1| |].
      * intros r Hr Heq. subst m. destruct (Hcur2 r Hr) as [H0 _]. destruct Hm1 as [_ H1].
        congruence.
      * intros r s s' c Hr Hs Hs' _ Hone Heq. subst c. destruct (Hcur2 r Hr) as [H0 _].
        destruct (Hsnap1 s' Hs') as [_ Hg]. pose proof (grows_one _ _ _ Hg Hone). congruence.
    + apply dfsNodeRecords_app_r; [by apply Hrec2| |].
      * intros r Hr Heq. subst m. destruct (Hcur1 r Hr) as [_ H1]. destruct Hm2 as [H0 _].
        congruence.
      * intros r s c Hr Hs Hzero Heq. subst c. destruct (Hcur1 r Hr) as [_ H1].
        destruct (Hsnap2 s Hs) as [Hg _]. pose proof (grows_zero _ _ _ Hg Hzero). congruence.
Qed.

Lemma dfsLoop_spec (rec : string → DfsState → option DfsState)
    (fuel : nat) (n : string) (stk : list string) :
  (∀ c st, okV nodes (dfsVisited st) → dfsVisited st !! c = Some 0 →
     (∀ x, x ∈ stk → dfsVisited st !! x = Some 1) →
     (size (zeroSet (dfsVisited st)) ≤ fuel)%nat →
     ∃ st' new, rec c st = Some st' ∧ dfsTrace st' = dfsTrace st ++ new ∧
       dfsPost nodes edges c stk (dfsVisited st) new (dfsVisited st') ∧
       dfsVisited st' !! c = Some 1) →
  ∀ neighbors st,
    okV nodes (dfsVisited st) →
    (∀ x, x ∈ stk → dfsVisited st !! x = Some 1) →
    (size (zeroSet (dfsVisited st)) ≤ fuel)%nat →
    (∀ c, c ∈ neighbors → edgeRel edges n c) →
    ∃ st' new, dfsLoop rec neighbors st = Some st' ∧ dfsTrace st' = dfsTrace st ++ new ∧
      dfsPost nodes edges n stk (dfsVisited st) new (dfsVisited st') ∧
      (∀ c, c ∈ neighbors → c ∈ ids → dfsVisited st' !! c = Some 1).
Proof.
  intros Hrec. induction neighbors as [|c rest IH]; intros st Hok Hstk Hfuel Hsucc.
  - exists st, []. split_and!; [done|by rewrite app_nil_r|apply dfsPost_nil|].
    intros c Hc. by apply elem_of_nil in Hc.
  - simpl. assert (∀ c', c' ∈ rest → edgeRel edges n c') as Hrest
      by (intros; apply Hsucc; by right).
    destruct (decide (dfsVisited st !! c = Some 0)) as [Hzero|Hzero].
    + destruct (Hrec c st) as (st1 & new1 & Hres & Htr1 & Hpost1 & Hc1); try done.
      rewrite Hres. pose proof (post_grows _ _ _ _ _ _ _ Hpost1) as Hg1.
      destruct (IH st1) as (st2 & new2 & Hres2 & Htr2 & Hpost2 & Hall); try done.
      { by eapply okV_grows. }
      { intros x Hx. eapply grows_one; [exact Hg1|]. by apply Hstk. }
      { etrans; [|exact Hfuel]. by apply subseteq_size, zeroSet_grows. }
      exists st2, (new1 ++ new2). split_and!; try done.
      * by rewrite Htr2, Htr1, app_assoc.
      * eapply dfsPost_app; [|exact Hpost2]. eapply dfsPost_root; [|exact Hpost1].
        apply rtc_once. split; [apply Hsucc; by left|]. by apply (Hok c).
      * intros c' [->|Hc']%elem_of_cons Hlisted; [|by apply Hall].
        eapply grows_one; [|exact Hc1]. apply Hpost2.
    + destruct (IH st) as (st2 & new2 & Hres2 & Htr2 & Hpost2 & Hall); try done.
      exists st2, new2. split_and!; try done.
      intros c' [->|Hc']%elem_of_cons Hlisted; [|by apply Hall].
      eapply grows_one; [apply Hpost2|]. destruct (Hok c) as [H01 _].
      destruct (H01 Hlisted); done.
Qed.

Lemma dfsVisit_spec fuel : ∀ n stk st,
  okV nodes (dfsVisited st) → dfsVisited st !! n = Some 0 →
  (∀ x, x ∈ stk → dfsVisited st !! x = Some 1) →
  (size (zeroSet (dfsVisited st)) ≤ fuel)%nat →
  ∃ st' new, dfsVisit fuel adj n stk st = Some st' ∧ dfsTrace st' = dfsTrace st ++ new ∧
    dfsPost nodes edges n stk (dfsVisited st) new (dfsVisited st') ∧
    dfsVisited st' !! n = Some 1.
Proof.
  induction fuel as [|fuel IH]; intros n stk [V T] Hok Hn Hstk Hfuel; simpl in *.
  { exfalso. assert (size (zeroSet V) ≠ 0)%nat; [|lia].
    intros Hz%size_empty_inv. assert (n ∈ zeroSet V) by by apply elem_of_zeroSet. set_solver. }
  pose proof (grows_insert V n Hn) as Hg1.
  assert (<[n:=1]> V !! n = Some 1) as Hn1 by apply lookup_insert_eq.
  destruct (dfsLoop_spec (λ nb, dfsVisit fuel adj nb (stk ++ [n])) fuel n (stk ++ [n])
              (λ c st, IH c (stk ++ [n]) st) (default [] (adj !! n))
              (mkDfsState (<[n:=1]> V)
                 ((T ++ [DFS.mkStep n (stk ++ [n]) V]) ++ [DFS.mkStep n (stk ++ [n]) (<[n:=1]> V)])))
    as ([V' T'] & inner & Hres & Htr & Hpost & Hall); simpl in *.
  { by eapply okV_grows. }
  { intros x [Hx| ->%list_elem_of_singleton]%elem_of_app; [|done].
    eapply grows_one; [exact Hg1|]. by apply Hstk. }
  { pose proof (zeroSet_size_newly V (<[n:=1]> V) n Hg1 (conj Hn Hn1)). lia. }
  { intros c Hc. rewrite buildAdjacencyList_successors in Hc. by apply elem_of_successors. }
  rewrite Hres. rewrite decide_True by (rewrite length_app; simpl; lia).
  rewrite removelast_last.
  destruct Hpost as [Hg Hsnap Hcur Hstack Hreach Hrec].
  assert (grows V V') as HgV by by apply (grows_trans V (<[n:=1]> V) V').
  assert (V' !! n = Some 1) as Hn' by by apply (grows_one (<[n:=1]> V) V').
  assert (n ∉ stk) as Hnstk by (intros Hin; specialize (Hstk n Hin); congruence).
  assert (∀ r, r ∈ inner → DFS.currentNode r ≠ n) as Hinner.
  { intros r Hr Heq. subst n. destruct (Hcur r Hr). congruence. }
  exists (mkDfsState V' (T' ++ [DFS.mkStep n stk V'])),
    ([DFS.mkStep n (stk ++ [n]) V; DFS.mkStep n (stk ++ [n]) (<[n:=1]> V)]
       ++ inner ++ [DFS.mkStep n stk V']).
  cbn [dfsVisited dfsTrace]. split_and!; try done.
  { rewrite Htr. by rewrite <- !app_assoc. }
  split.
  - done.
  - intros r. rewrite !elem_of_app, !elem_of_cons, elem_of_nil.
    intros [[Hr|[Hr|Hr]]|[Hr|[Hr|Hr]]]; try done; try subst r; simpl.
    + split; [apply grows_refl|done].
    + split; done.
    + destruct (Hsnap r Hr). split; [|done].
      by apply (grows_trans V (<[n:=1]> V) (DFS.visited r)).
    + split; [done|apply grows_refl].
  - intros r. rewrite !elem_of_app, !elem_of_cons, elem_of_nil.
    intros [[Hr|[Hr|Hr]]|[Hr|[Hr|Hr]]]; try done; try subst r; simpl; try done.
    apply (newly_r V (<[n:=1]> V) V'); [exact Hg1|]. by apply Hcur.
  - intros r x. rewrite !elem_of_app, !elem_of_cons, elem_of_nil.
    intros [[Hr|[Hr|Hr]]|[Hr|[Hr|Hr]]]; try done; try subst r; simpl.
    + intros [?| ->%list_elem_of_singleton]%elem_of_app; [by left|by right].
    + intros [?| ->%list_elem_of_singleton]%elem_of_app; [by left|by right].
    + intros Hx. destruct (Hstack r x Hr Hx) as [[?| ->%list_elem_of_singleton]%elem_of_app|?].
      * by left.
      * by right.
      * right. by apply (newly_r V (<[n:=1]> V) V').
    + intros ?. by left.
  - intros m Hm. destruct (decide (m = n)) as [->|Hne]; [done|].
    apply Hreach. destruct Hm as [H0 H1]. split; [|done]. by rewrite lookup_insert_ne.
  - intros m Hm. destruct (decide (m = n)) as [->|Hne].
    + apply dfsNodeRecords_intro; try done.
      intros c [Hnc Hc]. apply Hall; [|done].
      rewrite buildAdjacencyList_successors. by apply elem_of_successors.
    + assert (newly (<[n:=1]> V) V' m) as Hm'.
      { destruct Hm as [H0 H1]. split; [|done]. by rewrite lookup_insert_ne. }
      apply dfsNodeRecords_app_r; [apply dfsNodeRecords_app_l; [by apply Hrec| |]| |].
      * intros r ->%list_elem_of_singleton. simpl. congruence.
      * intros r s s' c ->%list_elem_of_singleton Hs _ Hzero _ Heq. simpl in Heq. subst c.
        destruct (Hsnap s Hs) as [Hgs _]. pose proof (grows_one _ _ n Hgs Hn1). congruence.
      * intros r. rewrite !elem_of_cons, elem_of_nil.
        intros [Hr|[Hr|Hr]]; try done; subst r; simpl; congruence.
      * intros r s c. rewrite elem_of_app, !elem_of_cons, !elem_of_nil.
        intros Hr [Hs|[Hs|Hs]] Hzero Heq; try done.
        -- destruct (Hsnap s Hs) as [Hgs _]. pose proof (grows_one _ _ n Hgs Hn1).
           destruct Hr as [Hr|[Hr|Hr]]; try done; subst r; simpl in Heq; congruence.
        -- subst s. simpl in Hzero.
           destruct Hr as [Hr|[Hr|Hr]]; try done; subst r; simpl in Heq; congruence.
Qed.
End dfs.

(** The whole DFS trace: it is produced, and every listed id reachable
    from the start through listed ids is marked by it. *)
Lemma dfsStepsDetailed_spec nodes edges startNodeId s :
  startNode nodes startNodeId = Some s → s ∈ nodeIds nodes →
  ∃ T V', dfsStepsDetailed nodes edges startNodeId = Some T ∧
    dfsPost nodes edges s [] (initVisited nodes) T V' ∧
    (∀ m, newly (initVisited nodes) V' m ↔ rtc (listedEdge nodes edges) s m).
Proof.
  intros Hstart Hs. unfold dfsStepsDetailed. rewrite Hstart.
  assert (initVisited nodes !! s = Some 0) as Hs0.
  { rewrite initVisited_lookup. by rewrite decide_True. }
  destruct (dfsVisit_spec nodes edges (dfsFuel nodes) s [] (mkDfsState (initVisited nodes) []))
    as ([V' T] & new & Hres & Htr & Hpost & Hs1); simpl in *.
  - apply okV_initVisited.
  - done.
  - intros x Hx. by apply elem_of_nil in Hx.
  - unfold dfsFuel. pose proof (zeroSet_initVisited nodes). lia.
  - subst T. exists new, V'. rewrite Hres. split; [done|]. split; [done|].
    intros m. split; [apply Hpost|].
    intros Hm. revert m Hm.
    apply (rtc_ind_r (λ m, newly (initVisited nodes) V' m)); [by split|].
    intros m c Hsm [Hmc Hc] IH. split.
    + rewrite initVisited_lookup. by rewrite decide_True.
    + destruct (post_records _ _ _ _ _ _ _ Hpost m IH)
        as (pre & push & visit & inner & pop & post & -> & _ & _ & _ & _ & _ & Hsucc & _).
      eapply grows_one; [|by apply Hsucc].
      apply (post_snap _ _ _ _ _ _ _ Hpost). rewrite !elem_of_app, !elem_of_cons. auto.
Qed.

Lemma initVisited_not_one nodes k : initVisited nodes !! k ≠ Some 1.
Proof. rewrite initVisited_lookup. by destruct (decide (k ∈ nodeIds nodes)). Qed.

(** With well-formed edge targets the traversal follows every arc. *)
Lemma listedEdge_reachable nodes edges s m :
  edgesReferenceNodes nodes edges →
  rtc (listedEdge nodes edges) s m ↔ reachable edges s m.
Proof.
  intros Hwf. split.
  - apply rtc_subrel. by intros a b [Hab _].
  - apply rtc_subrel. intros a b Hab. split; [done|].
    destruct Hab as (e & He & _ & <-). by apply (edgesReferenceNodes_elem nodes edges e).
Qed.

Lemma dfsNodeRecords_subrel (E1 E2 : relation string) T m :
  (∀ c, E2 m c → E1 m c) → dfsNodeRecords E1 T m → dfsNodeRecords E2 T m.
Proof.
  intros Hsub (pre & push & visit & inner & pop & post & HT & Hother & Hcur & Hpush & Hvisit &
               Hpop & Hsucc & Hnest).
  exists pre, push, visit, inner, pop, post. split_and!; try tauto.
  - intros c Hc. apply Hsucc. by apply Hsub.
  - intros c r Hc. apply Hnest. by apply Hsub.
Qed.

(** [dfsStepsDetailed] returns a trace on every input, also from a start id
    that is not a node. *)
Lemma dfsStepsDetailed_total nodes edges startNodeId :
  is_Some (dfsStepsDetailed nodes edges startNodeId).
Proof.
  destruct (startNode nodes startNodeId) as [s|] eqn:Hstart.
  2: { unfold dfsStepsDetailed. by rewrite Hstart. }
  destruct (decide (s ∈ nodeIds nodes)) as [Hs|Hs].
  { destruct (dfsStepsDetailed_spec nodes edges startNodeId s Hstart Hs) as (T & _ & -> & _).
    done. }
  unfold dfsStepsDetailed, dfsFuel. rewrite Hstart. simpl.
  assert (initVisited nodes !! s = None) as Hnone.
  { rewrite initVisited_lookup. by rewrite decide_False. }
  destruct (dfsLoop_spec nodes edges (λ nb, dfsVisit (length nodes) (buildAdjacencyList edges) nb ([] ++ [s]))
              (length nodes) s ([] ++ [s])
              (λ c st, dfsVisit_spec nodes edges (length nodes) c ([] ++ [s]) st)
              (default [] (buildAdjacencyList edges !! s))
              (mkDfsState (<[s:=1]> (initVisited nodes))
                 (([] ++ [DFS.mkStep s ([] ++ [s]) (initVisited nodes)])
                    ++ [DFS.mkStep s ([] ++ [s]) (<[s:=1]> (initVisited nodes))])))
    as (st' & new & Hres & _); simpl.
  - intros k. destruct (okV_initVisited nodes k) as [H1 H2].
    destruct (decide (k = s)) as [->|Hne].
    + split; [done|]. by rewrite lookup_insert_eq.
    + by rewrite lookup_insert_ne.
  - intros x ->%list_elem_of_singleton. apply lookup_insert_eq.
  - etrans; [|apply zeroSet_initVisited]. apply subseteq_size.
    intros k. rewrite !elem_of_zeroSet. destruct (decide (k = s)) as [->|Hne].
    + by rewrite lookup_insert_eq.
    + by rewrite lookup_insert_ne.
  - intros c Hc. rewrite buildAdjacencyList_successors in Hc. by apply elem_of_successors.
  - simpl in Hres. rewrite Hres. simpl. done.
Qed.

(** * BFS trace generator *)

Section shortest.
Variable R : relation string.

Lemma shortest_fun s x d1 d2 : shortest R s x d1 → shortest R s x d2 → d1 = d2.
Proof. intros [H1 M1] [H2 M2]. apply Nat.le_antisymm; auto. Qed.

Lemma shortest_refl s : shortest R s s 0.
Proof. split; [constructor|]. intros; lia. Qed.

Lemma shortest_rtc s x d : shortest R s x d → rtc R s x.
Proof. intros [H _]. by eapply rtc_nsteps_2. Qed.
End shortest.

Lemma shortest_ext (R1 R2 : relation string) s x d :
  (∀ a b, R1 a b ↔ R2 a b) → shortest R1 s x d → shortest R2 s x d.
Proof.
  intros Heq [Hpath Hmin]. split.
  - eapply (nsteps_congruence (λ a, a)); [|exact Hpath]. intros a b. by apply Heq.
  - intros d' Hd'. apply Hmin.
    eapply (nsteps_congruence (λ a, a)); [|exact Hd']. intros a b. by apply Heq.
Qed.


Lemma app_snoc_split {A} (O l1 l2 : list A) c :
  O ++ [c] = l1 ++ l2 →
  (∃ l2', l2 = l2' ++ [c] ∧ O = l1 ++ l2') ∨ (l2 = [] ∧ l1 = O ++ [c]).
Proof.
  destruct l2 as [|a l2 _] using rev_ind.
  - rewrite app_nil_r. intros ->. by right.
  - rewrite app_assoc. intros [-> ->]%app_inj_tail. left. by exists l2.
Qed.

Lemma sortedSplit_snoc D O c :
  sortedSplit D O →
  (∀ x dx dc, x ∈ O → D x dx → D c dc → (dx ≤ dc)%nat) →
  sortedSplit D (O ++ [c]).
Proof.
  intros Hsorted Hc l1 l2 x y dx dy Heq Hx Hy Dx Dy.
  apply app_snoc_split in Heq as [(l2' & -> & ->)|[-> ->]].
  - apply elem_of_app in Hy as [Hy| ->%list_elem_of_singleton].
    + by apply (Hsorted l1 l2' x y).
    + apply (Hc x); [|done..]. apply elem_of_app. by left.
  - by apply elem_of_nil in Hy.
Qed.

Section bfs.
Variables (nodes : list GraphNode) (edges : list GraphEdge) (s : string).

Local Abbreviation ids := (nodeIds nodes).
Local Abbreviation L := (listedEdge nodes edges).
Local Abbreviation adj := (buildAdjacencyList edges).
Local Abbreviation D := (shortest (listedEdge nodes edges) s).


Lemma bfs_complete closed P' Q V T u du :
  bfsInv nodes edges s closed P' Q V T → frontClosed nodes edges s u closed (P' ++ Q) → D u du →
  ∀ j x, nsteps L j s x → (j ≤ du)%nat → x ∈ P' ++ Q.
Proof.
  intros Hinv Hfc Hu. induction j as [|j IH]; intros x Hpath Hj.
  - inversion Hpath; subst. apply Hinv.
  - apply nsteps_inv_r in Hpath as (p & Hsp & Hpx).
    assert (p ∈ P' ++ Q) as Hp by (apply IH; [done|lia]).
    destruct (bi_dist _ _ _ _ _ _ _ _ Hinv p Hp) as [dp Hdp].
    assert (dp ≤ j)%nat by by apply Hdp.
    apply (bi_closed _ _ _ _ _ _ _ _ Hinv p); [|done].
    apply (Hfc p dp du); [done..|lia].
Qed.

Lemma bfs_new_dist closed P' Q V T u du c :
  bfsInv nodes edges s closed P' Q V T → frontClosed nodes edges s u closed (P' ++ Q) → D u du →
  edgeRel edges u c → V !! c = Some 0 → D c (S du).
Proof.
  intros Hinv Hfc Hu Huc Hc.
  assert (L u c) as HL by (split; [done|by apply Hinv]).
  split.
  - eapply nsteps_r; [apply Hu|done].
  - intros d' Hd'. destruct (decide (d' ≤ du)%nat) as [Hle|]; [|lia].
    assert (c ∈ P' ++ Q) as Hin by by eapply bfs_complete.
    apply (bi_ones _ _ _ _ _ _ _ _ Hinv) in Hin. congruence.
Qed.

Lemma bfsInv_enqueue closed P' Q V T u c :
  bfsInv nodes edges s closed P' Q V T → u ∈ P' →
  frontBound nodes edges s u (P' ++ Q) → frontClosed nodes edges s u closed (P' ++ Q) →
  edgeRel edges u c → V !! c = Some 0 →
  bfsInv nodes edges s closed P' (Q ++ [c]) (<[c:=1]> V)
    (T ++ [BFS.mkStep u (Q ++ [c]) (<[c:=1]> V)]) ∧
  frontBound nodes edges s u (P' ++ Q ++ [c]) ∧ frontClosed nodes edges s u closed (P' ++ Q ++ [c]).
Proof.
  intros Hinv Hu Hfb Hfc Huc Hc.
  assert (u ∈ P' ++ Q) as HuO by (apply elem_of_app; by left).
  destruct (bi_dist _ _ _ _ _ _ _ _ Hinv u HuO) as [du Hdu].
  pose proof (bfs_new_dist _ _ _ _ _ _ _ _ Hinv Hfc Hdu Huc Hc) as Hdc.
  assert (c ∉ P' ++ Q) as HcO.
  { intros Hin. apply (bi_ones _ _ _ _ _ _ _ _ Hinv) in Hin. congruence. }
  assert (∀ k, <[c:=1]> V !! k = Some 1 ↔ k ∈ (P' ++ Q) ++ [c]) as Hones.
  { intros k. rewrite elem_of_app, list_elem_of_singleton.
    destruct (decide (k = c)) as [->|Hne].
    - rewrite lookup_insert_eq. naive_solver.
    - rewrite lookup_insert_ne by done. rewrite (bi_ones _ _ _ _ _ _ _ _ Hinv). naive_solver. }
  assert (∀ k, is_Some (<[c:=1]> V !! k) → k = s ∨ k ∈ ids) as Hdom.
  { intros k. destruct (decide (k = c)) as [->|Hne].
    - intros _. right. by apply Hinv.
    - rewrite lookup_insert_ne by done. apply Hinv. }
  rewrite !app_assoc. split_and!.
  - split; rewrite ?app_assoc.
    + apply elem_of_app. left. apply Hinv.
    + done.
    + intros k Hk. destruct (decide (k = c)) as [->|Hne].
      * right. apply lookup_insert_eq.
      * rewrite lookup_insert_ne by done. by apply Hinv.
    + intros k. destruct (decide (k = c)) as [->|Hne].
      * by rewrite lookup_insert_eq.
      * rewrite lookup_insert_ne by done. apply Hinv.
    + done.
    + intros x [Hx| ->%list_elem_of_singleton]%elem_of_app; [by apply Hinv|by exists (S du)].
    + apply sortedSplit_snoc; [apply Hinv|].
      intros x dx dc Hx Dx Dc. rewrite (shortest_fun _ _ _ _ _ Dc Hdc). by apply (Hfb x).
    + intros x c' Hx Hxc. apply elem_of_app. left. by apply (bi_closed _ _ _ _ _ _ _ _ Hinv x).
    + intros r [Hr| ->%list_elem_of_singleton]%elem_of_app.
      * destruct (bi_trace _ _ _ _ _ _ _ _ Hinv r Hr) as (Or & rest & Heq & ?).
        exists Or, (rest ++ [c]). split; [|done]. by rewrite Heq, app_assoc.
      * exists ((P' ++ Q) ++ [c]), []. simpl. split_and!.
        -- by rewrite app_nil_r.
        -- done.
        -- intros x Hx. rewrite <- app_assoc. apply elem_of_app. by right.
        -- rewrite !elem_of_app. auto.
        -- done.
  - intros x dx du' [Hx| ->%list_elem_of_singleton]%elem_of_app Dx Du.
    + by apply (Hfb x).
    + rewrite (shortest_fun _ _ _ _ _ Dx Hdc), (shortest_fun _ _ _ _ _ Du Hdu). lia.
  - intros p dp du' [Hp| ->%list_elem_of_singleton]%elem_of_app Dp Du Hlt.
    + by apply (Hfc p dp du').
    + rewrite (shortest_fun _ _ _ _ _ Dp Hdc), (shortest_fun _ _ _ _ _ Du Hdu) in Hlt. lia.
Qed.

Lemma bfsNeighbors_spec closed P' u : ∀ neighbors Q V T,
  bfsInv nodes edges s closed P' Q V T → u ∈ P' →
  frontBound nodes edges s u (P' ++ Q) → frontClosed nodes edges s u closed (P' ++ Q) →
  (∀ c, c ∈ neighbors → edgeRel edges u c) →
  ∃ Qn new V',
    bfsNeighbors u neighbors (mkBfsState Q V T) = mkBfsState (Q ++ Qn) V' (T ++ new) ∧
    bfsInv nodes edges s closed P' (Q ++ Qn) V' (T ++ new) ∧
    frontBound nodes edges s u (P' ++ Q ++ Qn) ∧ frontClosed nodes edges s u closed (P' ++ Q ++ Qn) ∧
    (∀ c, c ∈ neighbors → c ∈ ids → c ∈ P' ++ Q ++ Qn) ∧
    (length (Q ++ Qn) + size (zeroSet V') ≤ length Q + size (zeroSet V))%nat.
Proof.
  induction neighbors as [|c rest IH]; intros Q V T Hinv Hu Hfb Hfc Hsucc.
  - exists [], [], V. rewrite !app_nil_r. split_and!; try done.
    intros c Hc. by apply elem_of_nil in Hc.
  - assert (∀ c', c' ∈ rest → edgeRel edges u c') as Hrest
      by (intros; apply Hsucc; by right).
    simpl. destruct (decide (V !! c = Some 0)) as [Hzero|Hzero].
    + destruct (bfsInv_enqueue closed P' Q V T u c) as (Hinv1 & Hfb1 & Hfc1); try done.
      { apply Hsucc. by left. }
      destruct (IH (Q ++ [c]) (<[c:=1]> V) (T ++ [BFS.mkStep u (Q ++ [c]) (<[c:=1]> V)]))
        as (Qn & new & V' & Hres & Hinv2 & Hfb2 & Hfc2 & Hall & Hsize); try done.
      exists ([c] ++ Qn), ([BFS.mkStep u (Q ++ [c]) (<[c:=1]> V)] ++ new), V'.
      rewrite !app_assoc. rewrite <- !app_assoc in Hfb2, Hfc2. rewrite !app_assoc in Hfb2, Hfc2.
      split_and!; try done.
      * intros c' [->|Hc']%elem_of_cons Hlisted.
        -- rewrite !elem_of_app, list_elem_of_singleton. auto.
        -- specialize (Hall c' Hc' Hlisted). by rewrite !app_assoc in Hall.
      * etrans; [exact Hsize|]. rewrite length_app. simpl.
        pose proof (zeroSet_size_newly V (<[c:=1]> V) c (grows_insert V c Hzero)
                      (conj Hzero (lookup_insert_eq V c 1))).
        lia.
    + destruct (IH Q V T) as (Qn & new & V' & Hres & Hinv2 & Hfb2 & Hfc2 & Hall & Hsize);
        try done.
      exists Qn, new, V'. split_and!; try done.
      intros c' [->|Hc']%elem_of_cons Hlisted; [|by apply Hall].
      rewrite app_assoc. apply elem_of_app. left. apply (bi_ones _ _ _ _ _ _ _ _ Hinv).
      destruct (bi_listed _ _ _ _ _ _ _ _ Hinv c Hlisted); done.
Qed.

Lemma bfsInv_close closed P' Q V T u :
  bfsInv nodes edges s closed P' Q V T → (∀ c, L u c → c ∈ P' ++ Q) →
  bfsInv nodes edges s (closed ++ [u]) P' Q V T.
Proof.
  intros [] Hu. split; try done.
  intros x c [Hx| ->%list_elem_of_singleton]%elem_of_app Hxc; eauto.
Qed.

Lemma bfsLoop_spec fuel : ∀ P Q V T,
  bfsInv nodes edges s P P Q V T →
  (∀ f, head Q = Some f → frontBound nodes edges s f (P ++ Q)) →
  (length Q + size (zeroSet V) < fuel)%nat →
  ∃ Tf O Vf new, bfsLoop fuel adj (mkBfsState Q V T) = Some Tf ∧
    Tf = T ++ new ∧ bfsInv nodes edges s O O [] Vf Tf.
Proof.
  induction fuel as [|fuel IH]; intros P Q V T Hinv Hfront Hfuel; [lia|].
  destruct Q as [|u Q]; simpl.
  { exists T, P, V, []. by rewrite app_nil_r. }
  assert ((P ++ [u]) ++ Q = P ++ u :: Q) as Heq by by rewrite <- app_assoc.
  assert (u ∈ P ++ [u]) as Hu by (apply elem_of_app; right; by left).
  assert (bfsInv nodes edges s P (P ++ [u]) Q V (T ++ [BFS.mkStep u Q V])) as Hinv1.
  { destruct Hinv. split; rewrite ?Heq; try done.
    intros r [Hr| ->%list_elem_of_singleton]%elem_of_app; [by auto|].
    exists (P ++ u :: Q), []. simpl. split_and!.
    - by rewrite app_nil_r.
    - done.
    - intros x Hx. apply elem_of_app. right. by right.
    - apply elem_of_app. right. by left.
    - done. }
  assert (frontBound nodes edges s u ((P ++ [u]) ++ Q)) as Hfb by (rewrite Heq; by apply Hfront).
  assert (frontClosed nodes edges s u P ((P ++ [u]) ++ Q)) as Hfc.
  { intros p dp du Hp Dp Du Hlt.
    rewrite !elem_of_app, list_elem_of_singleton in Hp. destruct Hp as [[Hp| ->]|Hp].
    - done.
    - rewrite (shortest_fun _ _ _ _ _ Dp Du) in Hlt. lia.
    - assert (du ≤ dp)%nat; [|lia].
      by apply (bi_sorted _ _ _ _ _ _ _ _ Hinv1 (P ++ [u]) Q u p). }
  destruct (bfsNeighbors_spec P (P ++ [u]) u (default [] (adj !! u)) Q V
              (T ++ [BFS.mkStep u Q V]))
    as (Qn & new & V' & Hres & Hinv2 & Hfb2 & Hfc2 & Hall & Hsize); try done.
  { intros c Hc. rewrite buildAdjacencyList_successors in Hc. by apply elem_of_successors. }
  rewrite Hres.
  destruct (IH (P ++ [u]) (Q ++ Qn) V' ((T ++ [BFS.mkStep u Q V]) ++ new))
    as (Tf & O & Vf & new' & Hloop & HTf & Hfinal).
  - apply bfsInv_close; [done|]. intros c [Huc Hc]. apply Hall; [|done].
    rewrite buildAdjacencyList_successors. by apply elem_of_successors.
  - intros f Hf x dx df Hx Dx Df.
    assert (f ∈ Q ++ Qn) as HfQ by (destruct (Q ++ Qn); simplify_eq/=; by left).
    assert (u ∈ (P ++ [u]) ++ Q ++ Qn) as HuO by (apply elem_of_app; by left).
    destruct (bi_dist _ _ _ _ _ _ _ _ Hinv2 u HuO) as [du Du].
    assert (du ≤ df)%nat by by apply (bi_sorted _ _ _ _ _ _ _ _ Hinv2 (P ++ [u]) (Q ++ Qn) u f).
    assert (dx ≤ S du)%nat by by apply (Hfb2 x).
    lia.
  - simpl in Hfuel. lia.
  - exists Tf, O, Vf, ([BFS.mkStep u Q V] ++ new ++ new'). split_and!; try done.
    by rewrite HTf, <- !app_assoc.
Qed.

(** The whole BFS trace, for the start [s]. *)
Lemma bfsStepsDetailed_inv startNodeId :
  startNode nodes startNodeId = Some s →
  ∃ T O V rest, bfsStepsDetailed nodes edges startNodeId = Some T ∧
    T = BFS.mkStep s [s] (<[s:=1]> (initVisited nodes)) :: rest ∧
    bfsInv nodes edges s O O [] V T.
Proof.
  intros Hstart. unfold bfsStepsDetailed. rewrite Hstart.
  set (V0 := <[s:=1]> (initVisited nodes)).
  destruct (bfsLoop_spec (bfsFuel nodes) [] [s] V0 [BFS.mkStep s [s] V0])
    as (Tf & O & Vf & new & Hres & HTf & Hfinal).
  - assert (∀ k, is_Some (V0 !! k) → k = s ∨ k ∈ ids) as Hdom.
    { intros k. unfold V0. destruct (decide (k = s)) as [->|Hne]; [by left|].
      rewrite lookup_insert_ne by done. rewrite initVisited_lookup.
      destruct (decide (k ∈ ids)); [by right|]. by intros [? ?]. }
    assert (∀ k, V0 !! k = Some 1 ↔ k ∈ [s]) as Hones.
    { intros k. rewrite list_elem_of_singleton. unfold V0.
      destruct (decide (k = s)) as [->|Hne].
      - by rewrite lookup_insert_eq.
      - rewrite lookup_insert_ne by done. pose proof (initVisited_not_one nodes k).
        naive_solver. }
    split; simpl.
    + by left.
    + done.
    + intros k Hk. unfold V0. destruct (decide (k = s)) as [->|Hne].
      * right. apply lookup_insert_eq.
      * rewrite lookup_insert_ne by done. left. rewrite initVisited_lookup.
        by rewrite decide_True.
    + intros k. unfold V0. destruct (decide (k = s)) as [->|Hne].
      * by rewrite lookup_insert_eq.
      * rewrite lookup_insert_ne by done. rewrite initVisited_lookup.
        by destruct (decide (k ∈ ids)).
    + done.
    + intros x ->%list_elem_of_singleton. exists 0%nat. apply shortest_refl.
    + intros l1 l2 x y dx dy Heq Hx Hy Dx Dy.
      assert (x ∈ [s]) as ->%list_elem_of_singleton by (rewrite Heq, elem_of_app; auto).
      assert (y ∈ [s]) as ->%list_elem_of_singleton by (rewrite Heq, elem_of_app; auto).
      by rewrite (shortest_fun _ _ _ _ _ Dx Dy).
    + intros x c Hx. by apply elem_of_nil in Hx.
    + intros r ->%list_elem_of_singleton. exists [s], []. simpl. split_and!; try done.
      by left.
  - intros f [= <-] x dx df ->%list_elem_of_singleton Dx Df.
    rewrite (shortest_fun _ _ _ _ _ Dx Df). lia.
  - simpl. unfold bfsFuel.
    assert (size (zeroSet V0) ≤ size (zeroSet (initVisited nodes)))%nat.
    { apply subseteq_size. intros k. rewrite !elem_of_zeroSet. unfold V0.
      destruct (decide (k = s)) as [->|Hne].
      - by rewrite lookup_insert_eq.
      - by rewrite lookup_insert_ne. }
    pose proof (zeroSet_initVisited nodes). lia.
  - exists Tf, O, Vf, new. split_and!; done.
Qed.
End bfs.

(** * Random DAG generator *)


Lemma edgeExists_false edges sourceId targetId :
  edgeExists edges sourceId targetId = false → (sourceId, targetId) ∉ ends <$> edges.
Proof.
  unfold edgeExists. intros Hex (e & Heq & He)%list_elem_of_fmap.
  injection Heq as -> ->.
  assert (existsb (λ e', bool_decide (source e' = source e ∧ target e' = target e)) edges = true)
    as Htrue; [|congruence].
  apply existsb_exists. exists e. split; [by apply list_elem_of_In|].
  by apply bool_decide_eq_true.
Qed.

Lemma hasCycle_no_edges nodes : hasCycle nodes [] = Some false.
Proof.
  destruct (hasCycle_spec nodes []) as ([|] & Hres & Hpost); [|done].
  destruct Hpost as [x Hx]. exfalso.
  assert (∃ y, edgeRel [] x y) as (y & e & He & _) by (inversion Hx; eauto).
  by apply elem_of_nil in He.
Qed.

Section random.
Variables (nodes : list GraphNode) (numEdges : nat) (rnd : nat → nat * nat).


Lemma randomEdges_spec left : ∀ attempt edges edgeCount,
  randomInv nodes numEdges rnd edges edgeCount →
  ∃ edges', randomEdges left attempt numEdges nodes rnd edges edgeCount = Some edges' ∧
            randomInv nodes numEdges rnd edges' (length edges').
Proof.
  induction left as [|left IH]; intros attempt edges edgeCount Hinv; simpl.
  { exists edges. split; [done|]. destruct Hinv as [? ? ? [<- ?]]. by split. }
  destruct (decide (edgeCount < numEdges)%nat) as [Hlt|Hge].
  2: { exists edges. split; [done|]. destruct Hinv as [? ? ? [<- ?]]. by split. }
  destruct (decide ((rnd attempt).1 < (rnd attempt).2)%nat) as [Hfwd|Hbwd]; [|by apply IH].
  destruct (edgeExists edges _ _) eqn:Hex; [by apply IH|].
  set (sourceId := nodeIdOf (rnd attempt).1) in *.
  set (targetId := nodeIdOf (rnd attempt).2) in *.
  set (testEdges := edges ++ [mkEdge ("e-" +:+ pretty edgeCount) sourceId targetId]).
  destruct (hasCycle_spec nodes testEdges) as ([|] & Hres & _); rewrite Hres; [by apply IH|].
  apply IH. destruct Hinv as [Hacyc Hnodup Hforward [Hlen Hcount]]. split.
  - rewrite <- Hres. apply hasCycle_ends. unfold testEdges. by rewrite !fmap_app.
  - change (NoDup (ends <$> edges ++ [mkEdge ("edge-" +:+ pretty edgeCount) sourceId targetId])).
    rewrite fmap_app. apply NoDup_app. split_and!; [done| |apply NoDup_singleton].
    intros p Hp ->%list_elem_of_singleton. by apply edgeExists_false in Hex.
  - intros e [He| ->%list_elem_of_singleton]%elem_of_app; [by apply Hforward|].
    by exists attempt.
  - rewrite length_app. simpl. split; lia.
Qed.
End random.

Lemma randomNodes_lookup numNodes i :
  (i < numNodes)%nat → randomNodes numNodes !! i = Some (mkNode (nodeIdOf i) (labelOf i)).
Proof.
  intros Hi. unfold randomNodes. rewrite list_lookup_fmap, lookup_seq_lt by done. done.
Qed.

Lemma generateRandomDAG_spec numNodes numEdges rnd :
  ∃ edges, generateRandomDAG numNodes numEdges rnd = Some (randomNodes numNodes, edges) ∧
           randomInv (randomNodes numNodes) numEdges rnd edges (length edges).
Proof.
  unfold generateRandomDAG.
  destruct (randomEdges_spec (randomNodes numNodes) numEdges rnd (numEdges * 10) 0 [] 0)
    as (edges & Hres & Hinv).
  - split; simpl.
    + apply hasCycle_no_edges.
    + constructor.
    + intros e He. by apply elem_of_nil in He.
    + split; [done|lia].
  - exists edges. rewrite Hres. done.
Qed.

(** * Topological trace generator *)

Section topological.
Variables (nodes : list GraphNode) (edges : list GraphEdge).

Local Abbreviation inDeg := (calculateInDegrees nodes edges).
Local Abbreviation radj := (buildReverseAdjacencyList edges).

(** The in-degree map counts the edges into each id. *)
Lemma calculateInDegrees_lookup x :
  default 0 (inDeg !! x) = Z.of_nat (length (filter (λ e, target e = x) edges)).
Proof.
  unfold calculateInDegrees. fold (initVisited nodes).
  assert (∀ m : gmap string Z,
    default 0 (fold_left (λ m e, <[target e := default 0 (m !! target e) + 1]> m) edges m !! x)
    = default 0 (m !! x) + Z.of_nat (length (filter (λ e, target e = x) edges))) as Hgen.
  { induction edges as [|e es IH]; intros m; simpl; [lia|].
    rewrite IH, filter_cons. destruct (decide (target e = x)) as [->|Hne].
    - rewrite lookup_insert_eq. simpl. lia.
    - by rewrite lookup_insert_ne. }
  rewrite Hgen, initVisited_lookup. by destruct (decide (x ∈ nodeIds nodes)).
Qed.

(** An id of in-degree 0 has no entry in the reverse adjacency list, which
    is the list the removal loop walks. *)
Lemma reverse_adjacency_of_source x :
  default 0 (inDeg !! x) = 0 → radj !! x = None.
Proof.
  rewrite calculateInDegrees_lookup. intros Hz.
  apply fold_pushAt_None; [done|]. intros e He Ht.
  assert (e ∈ filter (λ e, target e = x) edges) as Hin by by apply list_elem_of_filter.
  destruct (filter (λ e, target e = x) edges); [by apply elem_of_nil in Hin|simpl in Hz; lia].
Qed.
End topological.

Lemma osetOfList_spec (l : list string) :
  NoDup (osetOfList l) ∧ (∀ x, x ∈ osetOfList l ↔ x ∈ l) ∧
  (length (osetOfList l) ≤ length l)%nat.
Proof.
  unfold osetOfList.
  assert (∀ acc, NoDup acc →
    NoDup (fold_left osetAdd l acc) ∧
    (∀ x, x ∈ fold_left osetAdd l acc ↔ x ∈ acc ∨ x ∈ l) ∧
    (length (fold_left osetAdd l acc) ≤ length acc + length l)%nat) as Hgen.
  { induction l as [|y l IH]; intros acc Hacc; simpl.
    - split_and!; [done| |lia]. intros x. rewrite elem_of_nil. tauto.
    - unfold osetAdd at 2 4 6. destruct (decide (y ∈ acc)) as [Hy|Hy].
      + destruct (IH acc Hacc) as (Hnd & Hin & Hlen). split_and!; [done| |lia].
        intros x. rewrite Hin, elem_of_cons. naive_solver.
      + destruct (IH (acc ++ [y])) as (Hnd & Hin & Hlen).
        { apply NoDup_app. split_and!; [done| |apply NoDup_singleton].
          intros x Hx ->%list_elem_of_singleton. done. }
        split_and!; [done| |rewrite length_app in Hlen; simpl in Hlen; lia].
        intros x. rewrite Hin, elem_of_app, !elem_of_cons, elem_of_nil. tauto. }
  destruct (Hgen [] (NoDup_nil_2)) as (Hnd & Hin & Hlen). split_and!; [done| |done].
  intros x. rewrite Hin, elem_of_nil. tauto.
Qed.

Lemma filter_all (P : string → Prop) `{∀ x, Decision (P x)} (l : list string) :
  (∀ x, x ∈ l → P x) → filter P l = l.
Proof.
  induction l as [|y l IH]; intros Hall; [done|].
  rewrite filter_cons_True by (apply Hall; by left).
  f_equal. apply IH. intros x Hx. apply Hall. by right.
Qed.

Lemma zeroInDegree_delete inDegrees remaining r zs :
  NoDup remaining → zeroInDegree inDegrees remaining = r :: zs →
  zeroInDegree inDegrees (osetDelete r remaining) = zs.
Proof.
  unfold zeroInDegree, osetDelete. intros Hnd Hz.
  rewrite list_filter_filter.
  erewrite (list_filter_iff _ (λ y, y ≠ r ∧ default 0 (inDegrees !! y) = 0)) by (intros; tauto).
  rewrite <- list_filter_filter, Hz, filter_cons_False by (intros Hne; by apply Hne).
  apply filter_all. intros x Hx ->.
  assert (NoDup (r :: zs)) as Hnd' by (rewrite <- Hz; by apply NoDup_filter).
  apply NoDup_cons in Hnd' as [Hr _]. done.
Qed.

(** What the loop of [topologicalSortStepsDetailed] does when the in-degree
    map is the one of the input graph: it removes the ids of in-degree 0 of
    that graph, in scan order, and nothing more; each queue holds the ids
    of in-degree 0 not yet removed. *)
Lemma topoLoop_spec nodes edges fuel : ∀ remaining visited steps,
  NoDup remaining → (length remaining < fuel)%nat →
  ∃ T, topoLoop fuel (buildReverseAdjacencyList edges) (calculateInDegrees nodes edges)
         visited remaining steps = Some (steps ++ T) ∧
       Topo.removedNode <$> T = zeroInDegree (calculateInDegrees nodes edges) remaining ∧
       ∀ i r, T !! i = Some r →
         Topo.queue r = drop (S i) (zeroInDegree (calculateInDegrees nodes edges) remaining).
Proof.
  induction fuel as [|fuel IH]; intros remaining visited steps Hnd Hfuel; [lia|].
  simpl. destruct remaining as [|x0 rem0] eqn:Hrem.
  { exists []. rewrite app_nil_r. split_and!; try done. }
  rewrite <- Hrem in *. clear Hrem x0 rem0.
  destruct (zeroInDegree _ remaining) as [|r zs] eqn:Hz.
  { exists []. rewrite app_nil_r. split_and!; try done. }
  assert (r ∈ zeroInDegree (calculateInDegrees nodes edges) remaining) as Hr
    by (rewrite Hz; by left).
  apply list_elem_of_filter in Hr as [Hr0 Hrin].
  rewrite (reverse_adjacency_of_source nodes edges r Hr0). simpl.
  rewrite (zeroInDegree_delete _ remaining r zs Hnd Hz).
  destruct (IH (osetDelete r remaining) (<[r:=1]> visited)
              (steps ++ [Topo.mkStep r zs (<[r:=1]> visited)])) as (T & Hres & Hrem & Hq).
  { by apply NoDup_filter. }
  { assert (length (osetDelete r remaining) < length remaining)%nat; [|lia].
    apply (length_filter_lt _ _ r); [done|]. intros Hne. by apply Hne. }
  exists (Topo.mkStep r zs (<[r:=1]> visited) :: T). split_and!.
  - rewrite Hres. by rewrite <- app_assoc.
  - rewrite fmap_cons, Hrem. simpl.
    by rewrite (zeroInDegree_delete _ remaining r zs Hnd Hz).
  - intros [|i] r'; simpl.
    + by intros [= <-].
    + intros Hi. rewrite (Hq i r' Hi).
      by rewrite (zeroInDegree_delete _ remaining r zs Hnd Hz).
Qed.

(** The topological trace of any graph: it is produced, and it removes
    exactly the nodes that have in-degree 0 in the input graph. *)
Lemma topologicalSortStepsDetailed_spec nodes edges :
  ∃ T, topologicalSortStepsDetailed nodes edges = Some T ∧
       Topo.removedNode <$> T =
         zeroInDegree (calculateInDegrees nodes edges) (osetOfList (nodeIds nodes)) ∧
       ∀ i r, T !! i = Some r →
         Topo.queue r =
           drop (S i) (zeroInDegree (calculateInDegrees nodes edges) (osetOfList (nodeIds nodes))).
Proof.
  destruct (osetOfList_spec (nodeIds nodes)) as (Hnd & _ & _).
  destruct (topoLoop_spec nodes edges (S (length (osetOfList (nodeIds nodes))))
              (osetOfList (nodeIds nodes)) (initVisited nodes) []) as (T & Hres & HT);
    [done|lia|].
  exists T. split; [|done]. exact Hres.
Qed.

(** Hence a graph with well-formed endpoints and at least one edge gets a
    trace shorter than its node count, acyclic or not. *)
Lemma topological_trace_short_with_edges nodes edges e :
  edgesReferenceNodes nodes edges → e ∈ edges →
  ∃ T, topologicalSortStepsDetailed nodes edges = Some T ∧ (length T < length nodes)%nat.
Proof.
  intros Hwf He.
  destruct (topologicalSortStepsDetailed_spec nodes edges) as (T & Hres & Hrem & _).
  exists T. split; [done|].
  destruct (osetOfList_spec (nodeIds nodes)) as (_ & Hin & Hlen).
  rewrite <- (length_fmap Topo.removedNode T), Hrem.
  assert (length (nodeIds nodes) = length nodes) as Hids by (unfold nodeIds; by rewrite length_fmap).
  assert (length (zeroInDegree (calculateInDegrees nodes edges) (osetOfList (nodeIds nodes)))
          < length (osetOfList (nodeIds nodes)))%nat; [|lia].
  apply (length_filter_lt _ _ (target e)).
  - apply Hin. by apply (edgesReferenceNodes_elem nodes edges e).
  - rewrite calculateInDegrees_lookup.
    assert (e ∈ filter (λ e', target e' = target e) edges) as Hf by by apply list_elem_of_filter.
    destruct (filter (λ e', target e' = target e) edges); [by apply elem_of_nil in Hf|].
    simpl. lia.
Qed.

(** * The specification's claims *)

(** ** Topological trace generator *)

Example sample_wellformed : edgesReferenceNodes createSampleDAG.1 createSampleDAG.2.
Proof. compute_done. Qed.

Example hasCycle_sample : hasCycle createSampleDAG.1 createSampleDAG.2 = Some false.
Proof. vm_compute. reflexivity. Qed.

(** C1.  The claim (trace length equals the node count iff the graph is
    acyclic) fails on the code: for the acyclic sample graph, five nodes
    with well-formed edges, the trace has one record.  The loop walks the
    reverse adjacency list of the removed node, its predecessors, so no
    in-degree is ever lowered and the loop stops after the nodes that had
    in-degree 0 to begin with. *)
Theorem topological_trace_short_on_acyclic_sample :
  ∃ T, topologicalSortStepsDetailed createSampleDAG.1 createSampleDAG.2 = Some T ∧
       length T = 1%nat ∧ length createSampleDAG.1 = 5%nat ∧
       edgesReferenceNodes createSampleDAG.1 createSampleDAG.2 ∧
       hasCycle createSampleDAG.1 createSampleDAG.2 = Some false ∧
       ¬ hasDirectedCycle createSampleDAG.2.
Proof.
  eexists. split; [vm_compute; reflexivity|]. split_and!.
  - reflexivity.
  - reflexivity.
  - apply sample_wellformed.
  - apply hasCycle_sample.
  - apply (hasCycle_false_acyclic createSampleDAG.1);
      [apply sample_wellformed|apply hasCycle_sample].
Qed.

(** The half of the claim that holds: a graph with a directed cycle gets a
    trace shorter than its node count, as every graph with an edge does. *)
Lemma topological_trace_short_when_cyclic nodes edges :
  edgesReferenceNodes nodes edges → hasDirectedCycle edges →
  ∃ T, topologicalSortStepsDetailed nodes edges = Some T ∧ (length T < length nodes)%nat.
Proof.
  intros Hwf [x Hx].
  assert (∃ y, edgeRel edges x y) as (y & e & He & _) by (inversion Hx; eauto).
  by apply (topological_trace_short_with_edges nodes edges e).
Qed.

(** A three-node cycle: [hasCycle] is true and the trace is empty. *)
Example topological_triangle :
  topologicalSortStepsDetailed
    [mkNode "A" "A"; mkNode "B" "B"; mkNode "C" "C"]
    [mkEdge "e1" "A" "B"; mkEdge "e2" "B" "C"; mkEdge "e3" "C" "A"] = Some [].
Proof. vm_compute. reflexivity. Qed.

(** C2.  On the sample graph the code's trace is the single record that
    removes [A], with an empty queue: the claim asks for the queue [B, C]
    and for a linearization of all five nodes. *)
Theorem topological_sample_trace :
  ∃ T, topologicalSortStepsDetailed createSampleDAG.1 createSampleDAG.2 = Some T ∧
       (λ r, (Topo.removedNode r, Topo.queue r)) <$> T = [("A", [])].
Proof. eexists. split; [vm_compute; reflexivity|]. reflexivity. Qed.

(** C7.  On the sample graph the queue of the record of step 0 is empty,
    while the remaining nodes of residual in-degree 0 after the removal of
    [A] are [B] and [C]: the code's queue is not the residual ready set. *)
Theorem topological_queue_not_residual_ready :
  ∃ r T, topologicalSortStepsDetailed createSampleDAG.1 createSampleDAG.2 = Some (r :: T) ∧
         Topo.removedNode r = "A" ∧ Topo.queue r = [] ∧
         readySet createSampleDAG.1 createSampleDAG.2 ["A"] = ["B"; "C"].
Proof. eexists _, _. split; [vm_compute; reflexivity|]. split_and!; reflexivity. Qed.

(** ** Empty node list *)

Lemma dfsLoop_no_unvisited (rec : string → DfsState → option DfsState) neighbors st :
  (∀ c, c ∈ neighbors → dfsVisited st !! c ≠ Some 0) → dfsLoop rec neighbors st = Some st.
Proof.
  induction neighbors as [|c rest IH]; intros Hall; simpl; [done|].
  rewrite decide_False by (apply Hall; by left).
  apply IH. intros c' Hc'. apply Hall. by right.
Qed.

Lemma bfsNeighbors_no_unvisited currentNode neighbors st :
  (∀ c, c ∈ neighbors → bfsVisited st !! c ≠ Some 0) →
  bfsNeighbors currentNode neighbors st = st.
Proof.
  induction neighbors as [|c rest IH]; intros Hall; simpl; [done|].
  rewrite decide_False by (apply Hall; by left).
  apply IH. intros c' Hc'. apply Hall. by right.
Qed.

Lemma start_only_no_unvisited (s c : string) : <[s:=1]> (∅ : gmap string Z) !! c ≠ Some 0.
Proof.
  destruct (decide (c = s)) as [->|Hne].
  - by rewrite lookup_insert_eq.
  - by rewrite lookup_insert_ne, lookup_empty.
Qed.

(** C9.  For an empty node list, whatever the edge list, the topological
    generator returns the empty trace, and the DFS and BFS generators
    return the empty trace when no traversal is started, that is when the
    start id is absent or the empty string.  With a non-empty start id
    they traverse that id alone, although it is no node: the DFS trace is
    its push, visit and pop records, the BFS trace its initial and its
    dequeue record.  No generator fails. *)
Theorem empty_node_list_traces (edges : list GraphEdge) (startNodeId : option string) :
  topologicalSortStepsDetailed [] edges = Some [] ∧
  (startNode [] startNodeId = None ↔ startNodeId = None ∨ startNodeId = Some "") ∧
  match startNode [] startNodeId with
  | None =>
    dfsStepsDetailed [] edges startNodeId = Some [] ∧
    bfsStepsDetailed [] edges startNodeId = Some []
  | Some s =>
    dfsStepsDetailed [] edges startNodeId =
      Some [ DFS.mkStep s [s] ∅; DFS.mkStep s [s] (<[s:=1]> ∅);
             DFS.mkStep s [] (<[s:=1]> ∅) ] ∧
    bfsStepsDetailed [] edges startNodeId =
      Some [ BFS.mkStep s [s] (<[s:=1]> ∅); BFS.mkStep s [] (<[s:=1]> ∅) ]
  end.
Proof.
  split; [reflexivity|]. split.
  { destruct startNodeId as [[|a z]|]; simpl; split; try done; try tauto.
    intros [?|?]; done. }
  destruct (startNode [] startNodeId) as [s|] eqn:Hstart.
  - split.
    + unfold dfsStepsDetailed, dfsFuel. rewrite Hstart. simpl.
      rewrite dfsLoop_no_unvisited by (intros c _; apply start_only_no_unvisited).
      reflexivity.
    + unfold bfsStepsDetailed, bfsFuel. rewrite Hstart. simpl.
      rewrite bfsNeighbors_no_unvisited by (intros c _; apply start_only_no_unvisited).
      reflexivity.
  - unfold dfsStepsDetailed, bfsStepsDetailed. rewrite Hstart. done.
Qed.

(** C9, as stated, fails when a start id is supplied: with no node, no
    edge and the start id [Z], the DFS trace has three records and the BFS
    trace two. *)
Lemma empty_node_list_start_counterexample :
  ∃ T1 T2, dfsStepsDetailed [] [] (Some "Z") = Some T1 ∧
           bfsStepsDetailed [] [] (Some "Z") = Some T2 ∧
           DFS.currentNode <$> T1 = ["Z"; "Z"; "Z"] ∧
           BFS.currentNode <$> T2 = ["Z"; "Z"] ∧
           T1 ≠ [] ∧ T2 ≠ [].
Proof.
  eexists _, _. split; [vm_compute; reflexivity|]. split; [vm_compute; reflexivity|].
  split_and!; done.
Qed.

(** ** Cycle detector *)

(** C3.  On a graph whose edge endpoints are existing node ids, [hasCycle]
    returns, answers [false] exactly when there is no directed cycle and
    [true] exactly when there is one; a self-loop is flagged. *)
Theorem hasCycle_iff_directed_cycle nodes edges :
  edgesReferenceNodes nodes edges →
  (hasCycle nodes edges = Some false ↔ ¬ hasDirectedCycle edges) ∧
  (hasCycle nodes edges = Some true ↔ hasDirectedCycle edges) ∧
  (∀ x, edgeRel edges x x → hasCycle nodes edges = Some true).
Proof.
  intros Hwf.
  assert (hasDirectedCycle edges → hasCycle nodes edges = Some true) as Hcyc.
  { intros Hc. destruct (hasCycle_total nodes edges) as [?|Hf]; [done|].
    by destruct (hasCycle_false_acyclic nodes edges Hwf Hf). }
  split_and!.
  - split; [by apply hasCycle_false_acyclic|].
    intros Hno. destruct (hasCycle_total nodes edges) as [Ht|?]; [|done].
    destruct Hno. by apply (hasCycle_true_cyclic nodes).
  - split; [apply hasCycle_true_cyclic|done].
  - intros x Hx. apply Hcyc. exists x. by apply tc_once.
Qed.

Lemma hasCycle_iff_directed_cycle_witness :
  (hasCycle createSampleDAG.1 createSampleDAG.2 = Some false
     ↔ ¬ hasDirectedCycle createSampleDAG.2) ∧
  (hasCycle createSampleDAG.1 createSampleDAG.2 = Some true
     ↔ hasDirectedCycle createSampleDAG.2) ∧
  (∀ x, edgeRel createSampleDAG.2 x x →
        hasCycle createSampleDAG.1 createSampleDAG.2 = Some true).
Proof.
  apply (hasCycle_iff_directed_cycle createSampleDAG.1 createSampleDAG.2).
  apply (bool_decide_unpack _). vm_compute. exact I.
Defined.

(** The sample graph holds a diamond ([D] is reached through [B] and
    through [C]); a self-loop and a three-node cycle are flagged. *)
Example hasCycle_selfloop :
  hasCycle [mkNode "A" "A"] [mkEdge "e1" "A" "A"] = Some true.
Proof. vm_compute. reflexivity. Qed.

Example hasCycle_triangle :
  hasCycle [mkNode "A" "A"; mkNode "B" "B"; mkNode "C" "C"]
           [mkEdge "e1" "A" "B"; mkEdge "e2" "B" "C"; mkEdge "e3" "C" "A"] = Some true.
Proof. vm_compute. reflexivity. Qed.

(** ** Random DAG generator *)

(** C6.  For every node count in [3,20], every target edge count in
    [1,30] and every sequence of drawn index pairs within range,
    [generateRandomDAG] returns; [hasCycle] over its result is [false], no
    (source, target) pair is repeated, every edge goes from a node of
    smaller index to a node of larger index, and there are at most
    [numEdges] edges. *)
Theorem generateRandomDAG_acyclic (numNodes numEdges : nat) (rnd : nat → nat * nat) :
  (3 ≤ numNodes ≤ 20)%nat → (1 ≤ numEdges ≤ 30)%nat →
  (∀ k, ((rnd k).1 < numNodes)%nat ∧ ((rnd k).2 < numNodes)%nat) →
  ∃ nodes edges, generateRandomDAG numNodes numEdges rnd = Some (nodes, edges) ∧
    hasCycle nodes edges = Some false ∧
    NoDup ((λ e, (source e, target e)) <$> edges) ∧
    (∀ e, e ∈ edges →
       ∃ i j ni nj, (i < j)%nat ∧ nodes !! i = Some ni ∧ nodes !! j = Some nj ∧
                    source e = node_id ni ∧ target e = node_id nj) ∧
    (length edges ≤ numEdges)%nat.
Proof.
  intros _ _ Hrnd.
  destruct (generateRandomDAG_spec numNodes numEdges rnd) as (edges & Hres & Hinv).
  exists (randomNodes numNodes), edges. destruct Hinv as [Hacyc Hnodup Hfwd [_ Hcount]].
  split_and!; try done.
  intros e He. destruct (Hfwd e He) as (k & Hs & Ht & Hlt). destruct (Hrnd k) as [H1 H2].
  exists (rnd k).1, (rnd k).2, (mkNode (nodeIdOf (rnd k).1) (labelOf (rnd k).1)),
    (mkNode (nodeIdOf (rnd k).2) (labelOf (rnd k).2)).
  split_and!; try done; by apply randomNodes_lookup.
Qed.

Lemma generateRandomDAG_acyclic_witness :
  ∃ nodes edges,
    generateRandomDAG 4 3 (λ k, (k mod 4, (k * 3 + 1) mod 4)%nat) = Some (nodes, edges) ∧
    hasCycle nodes edges = Some false ∧
    NoDup ((λ e, (source e, target e)) <$> edges) ∧
    (∀ e, e ∈ edges →
       ∃ i j ni nj, (i < j)%nat ∧ nodes !! i = Some ni ∧ nodes !! j = Some nj ∧
                    source e = node_id ni ∧ target e = node_id nj) ∧
    (length edges ≤ 3)%nat.
Proof.
  apply (generateRandomDAG_acyclic 4 3 (λ k, (k mod 4, (k * 3 + 1) mod 4)%nat)).
  - lia.
  - lia.
  - intros k. cbv beta. cbn [fst snd]. split; apply Nat.mod_upper_bound; lia.
Defined.

(** ** DFS trace generator *)

Lemma dfsNodeRecords_current E T m :
  dfsNodeRecords E T m → m ∈ DFS.currentNode <$> T.
Proof.
  intros (pre & push & visit & inner & pop & post & -> & _ & (Hpush & _) & _).
  subst m. rewrite fmap_app, elem_of_app. right. simpl. left.
Qed.

(** The DFS trace from a listed start, with reachability along the arcs
    whose target is a listed node. *)
Lemma dfs_trace_covers_listed nodes edges startNodeId s :
  startNode nodes startNodeId = Some s → s ∈ nodeIds nodes →
  ∃ T, dfsStepsDetailed nodes edges startNodeId = Some T ∧
       dfsTraceCovers (listedEdge nodes edges) s T.
Proof.
  intros Hstart Hs.
  destruct (dfsStepsDetailed_spec nodes edges startNodeId s Hstart Hs)
    as (T & V' & Hres & Hpost & Hnew).
  exists T. split; [done|]. split_and!.
  - intros m Hm. apply (post_records _ _ _ _ _ _ _ Hpost), Hnew, Hm.
  - intros m. split.
    + intros (r & Hr & Hcur & _). subst m. apply Hnew. by apply (post_cur _ _ _ _ _ _ _ Hpost).
    + intros Hm. apply Hnew in Hm.
      destruct (post_records _ _ _ _ _ _ _ Hpost m Hm)
        as (pre & push & visit & inner & pop & post & -> & _ & (_ & Hcur & _) &
            (Hstk & _) & (Hstk' & Hone) & _).
      exists visit. split.
      * rewrite !elem_of_app, !elem_of_cons. auto.
      * split_and!; [done| |done]. rewrite Hstk', Hstk. apply elem_of_app. right. by left.
  - intros m r Hm Hr Hone. apply Hm, Hnew.
    destruct (post_snap _ _ _ _ _ _ _ Hpost r Hr) as [Hg1 Hg2].
    destruct (grows_one_inv _ _ _ Hg1 Hone) as [Hinit|Hnewly].
    + by destruct (initVisited_not_one nodes m).
    + by eapply newly_l.
Qed.

Lemma dfsTraceCovers_ext (E1 E2 : relation string) s T :
  (∀ a b, E1 a b ↔ E2 a b) → dfsTraceCovers E1 s T → dfsTraceCovers E2 s T.
Proof.
  intros Heq (Hrec & Hvisit & Hnot).
  assert (∀ m, rtc E2 s m ↔ rtc E1 s m) as Hreach.
  { intros m. split; apply rtc_subrel; intros a b; apply Heq. }
  split_and!.
  - intros m Hm. eapply dfsNodeRecords_subrel; [|apply Hrec, Hreach, Hm].
    intros c. apply Heq.
  - intros m. by rewrite Hreach.
  - intros m r Hm. apply Hnot. by rewrite <- Hreach.
Qed.

(** C4, as amended.  From a start node of the node list, the DFS trace
    holds for every node reachable along arcs into listed nodes exactly a
    push, a visit and a pop record, in this order; these nodes are exactly
    the ones with a visit record, and no record marks any other node.  On
    a graph whose edge endpoints are existing node ids this is the claim
    with plain reachability. *)
Theorem dfs_trace_records nodes edges startNodeId s :
  startNode nodes startNodeId = Some s → s ∈ nodeIds nodes →
  ∃ T, dfsStepsDetailed nodes edges startNodeId = Some T ∧
       dfsTraceCovers (listedEdge nodes edges) s T ∧
       (edgesReferenceNodes nodes edges → dfsTraceCovers (edgeRel edges) s T).
Proof.
  intros Hstart Hs.
  destruct (dfs_trace_covers_listed nodes edges startNodeId s Hstart Hs) as (T & Hres & Hcov).
  exists T. split_and!; try done.
  intros Hwf. eapply dfsTraceCovers_ext; [|exact Hcov].
  intros a b. split; [by intros [? _]|]. intros Hab. split; [done|].
  destruct Hab as (e & He & _ & <-). by apply (edgesReferenceNodes_elem nodes edges e).
Qed.

Lemma dfs_trace_records_witness :
  ∃ T, dfsStepsDetailed createSampleDAG.1 createSampleDAG.2 None = Some T ∧
       dfsTraceCovers (listedEdge createSampleDAG.1 createSampleDAG.2) "A" T ∧
       (edgesReferenceNodes createSampleDAG.1 createSampleDAG.2 →
        dfsTraceCovers (edgeRel createSampleDAG.2) "A" T).
Proof.
  apply (dfs_trace_records createSampleDAG.1 createSampleDAG.2 None "A").
  - reflexivity.
  - apply (bool_decide_unpack _). vm_compute. exact I.
Defined.

(** C4, as stated, fails where an edge target is not a node: in
    [danglingGraph], [B] is reachable from [A] (through [X]) and the trace,
    three records of [A], holds no record of [B]. *)
Lemma dfs_dangling_counterexample :
  ∃ T, dfsStepsDetailed danglingGraph.1 danglingGraph.2 None = Some T ∧
       reachable danglingGraph.2 "A" "B" ∧
       DFS.currentNode <$> T = ["A"; "A"; "A"] ∧
       ¬ dfsTraceCovers (edgeRel danglingGraph.2) "A" T.
Proof.
  eexists. split; [vm_compute; reflexivity|].
  assert (reachable danglingGraph.2 "A" "B") as Hreach.
  { apply rtc_l with "X"; [|apply rtc_once].
    - exists (mkEdge "e1" "A" "X"). split_and!; try done. by left.
    - exists (mkEdge "e2" "X" "B"). split_and!; try done. right. by left. }
  split_and!; [done|reflexivity|].
  intros (Hrec & _). apply Hrec, dfsNodeRecords_current in Hreach.
  vm_compute in Hreach. set_solver.
Qed.

(** A start id that is not a node is traversed all the same; its push
    record has no visited entry for it. *)
Example dfs_unlisted_start :
  ∃ push T, dfsStepsDetailed [mkNode "A" "A"] [] (Some "Z") = Some (push :: T) ∧
            DFS.currentNode push = "Z" ∧ DFS.visited push !! "Z" = None.
Proof. eexists _, _. split; [vm_compute; reflexivity|]. split; reflexivity. Qed.

(** On the sample graph from [A] the nodes are entered in the order
    A, B, D, E, C. *)
Example dfs_sample_trace :
  ∃ T, dfsStepsDetailed createSampleDAG.1 createSampleDAG.2 None = Some T ∧
       DFS.currentNode <$> T =
         ["A"; "A"; "B"; "B"; "D"; "D"; "E"; "E"; "E"; "D"; "B"; "C"; "C"; "C"; "A"].
Proof. eexists. split; [vm_compute; reflexivity|]. reflexivity. Qed.

(** ** BFS trace generator *)

Lemma firstVisitIndex_Some T x i :
  firstVisitIndex T x = Some i →
  ∃ r, T !! i = Some r ∧ BFS.visited r !! x = Some 1 ∧
       ∀ j r', (j < i)%nat → T !! j = Some r' → BFS.visited r' !! x ≠ Some 1.
Proof.
  revert i. induction T as [|r0 T IH]; intros i; simpl; [done|].
  destruct (decide (BFS.visited r0 !! x = Some 1)) as [Hone|Hnot].
  - intros [= <-]. exists r0. split_and!; try done. intros j r' Hj. lia.
  - destruct (firstVisitIndex T x) as [i'|] eqn:Hi'; simpl; [|done].
    intros [= <-]. destruct (IH i' eq_refl) as (r & Hr & Hone & Hbefore).
    exists r. split_and!; try done.
    intros [|j] r' Hj; simpl.
    + by intros [= <-].
    + apply Hbefore. lia.
Qed.

(** The order of marking along the BFS trace is an order of distance,
    measured along the arcs into listed nodes. *)
Lemma bfs_distance_order_listed nodes edges startNodeId s :
  startNode nodes startNodeId = Some s →
  ∃ T, bfsStepsDetailed nodes edges startNodeId = Some T ∧
    ∀ x y ix iy,
      firstVisitIndex T x = Some ix → firstVisitIndex T y = Some iy → (ix < iy)%nat →
      ∃ dx dy, shortest (listedEdge nodes edges) s x dx ∧
               shortest (listedEdge nodes edges) s y dy ∧ (dx ≤ dy)%nat.
Proof.
  intros Hstart.
  destruct (bfsStepsDetailed_inv nodes edges s startNodeId Hstart)
    as (T & O & V & rest & Hres & _ & Hinv).
  exists T. split; [done|]. intros x y ix iy Hx Hy Hlt.
  apply firstVisitIndex_Some in Hx as (rx & Hrx & Hxone & _).
  apply firstVisitIndex_Some in Hy as (ry & Hry & Hyone & Hybefore).
  assert (BFS.visited rx !! y ≠ Some 1) as Hynot by by apply (Hybefore ix).
  destruct (bi_trace _ _ _ _ _ _ _ _ Hinv rx) as (Ox & restx & Heqx & Honesx & _).
  { by eapply list_elem_of_lookup_2. }
  destruct (bi_trace _ _ _ _ _ _ _ _ Hinv ry) as (Oy & resty & Heqy & Honesy & _).
  { by eapply list_elem_of_lookup_2. }
  assert (x ∈ Ox) as HxO by by apply Honesx.
  assert (y ∈ restx) as HyO.
  { assert (y ∈ Ox ++ restx) as [?|?]%elem_of_app; [|by destruct Hynot; apply Honesx|done].
    rewrite <- Heqx, Heqy. apply elem_of_app. left. by apply Honesy. }
  destruct (bi_dist _ _ _ _ _ _ _ _ Hinv x) as [dx Dx].
  { rewrite Heqx. apply elem_of_app. by left. }
  destruct (bi_dist _ _ _ _ _ _ _ _ Hinv y) as [dy Dy].
  { rewrite Heqx. apply elem_of_app. by right. }
  exists dx, dy. split_and!; try done.
  by apply (bi_sorted _ _ _ _ _ _ _ _ Hinv Ox restx x y).
Qed.

(** C5.  On a graph whose edge endpoints are existing node ids, a node
    that becomes visited strictly earlier in the BFS trace is at most as
    far from the start as one that becomes visited later; on the sample
    graph from [A] the nodes become visited in the order A, B, C, D, E. *)
Theorem bfs_visits_in_distance_order :
  (∀ nodes edges startNodeId s,
     edgesReferenceNodes nodes edges → startNode nodes startNodeId = Some s →
     ∃ T, bfsStepsDetailed nodes edges startNodeId = Some T ∧
       ∀ x y ix iy,
         firstVisitIndex T x = Some ix → firstVisitIndex T y = Some iy → (ix < iy)%nat →
         ∃ dx dy, isDist edges s x dx ∧ isDist edges s y dy ∧ (dx ≤ dy)%nat) ∧
  (∃ T, bfsStepsDetailed createSampleDAG.1 createSampleDAG.2 None = Some T ∧
        visitOrder createSampleDAG.1 T = ["A"; "B"; "C"; "D"; "E"] ∧
        firstVisitIndex T <$> ["A"; "B"; "C"; "D"; "E"]
          = [Some 0; Some 2; Some 3; Some 5; Some 8]%nat).
Proof.
  split.
  - intros nodes edges startNodeId s Hwf Hstart.
    destruct (bfs_distance_order_listed nodes edges startNodeId s Hstart) as (T & Hres & Hord).
    exists T. split; [done|]. intros x y ix iy Hx Hy Hlt.
    destruct (Hord x y ix iy Hx Hy Hlt) as (dx & dy & Dx & Dy & Hle).
    assert (∀ a b, listedEdge nodes edges a b ↔ edgeRel edges a b) as Heq.
    { intros a b. split; [by intros [? _]|]. intros Hab. split; [done|].
      destruct Hab as (e & He & _ & <-). by apply (edgesReferenceNodes_elem nodes edges e). }
    exists dx, dy. split_and!; [by eapply shortest_ext|by eapply shortest_ext|done].
  - eexists. split; [vm_compute; reflexivity|]. split; vm_compute; reflexivity.
Qed.

Lemma bfs_visits_in_distance_order_witness :
  ∃ T, bfsStepsDetailed createSampleDAG.1 createSampleDAG.2 None = Some T ∧
    ∀ x y ix iy,
      firstVisitIndex T x = Some ix → firstVisitIndex T y = Some iy → (ix < iy)%nat →
      ∃ dx dy, isDist createSampleDAG.2 "A" x dx ∧ isDist createSampleDAG.2 "A" y dy ∧
               (dx ≤ dy)%nat.
Proof.
  apply (proj1 bfs_visits_in_distance_order createSampleDAG.1 createSampleDAG.2 None "A").
  - apply (bool_decide_unpack _). vm_compute. exact I.
  - reflexivity.
Defined.

(** C8.  In every record of every BFS trace, each id in the queue is
    marked visited in that record; when a traversal is started, the first
    record has the start as current node, the queue [[start]] and the
    start already marked. *)
Theorem bfs_queue_only_visited nodes edges startNodeId :
  ∃ T, bfsStepsDetailed nodes edges startNodeId = Some T ∧
    (∀ r x, r ∈ T → x ∈ BFS.queue r → BFS.visited r !! x = Some 1) ∧
    (∀ s, startNode nodes startNodeId = Some s →
       ∃ r rest, T = r :: rest ∧ BFS.currentNode r = s ∧ BFS.queue r = [s] ∧
                 BFS.visited r !! s = Some 1).
Proof.
  destruct (startNode nodes startNodeId) as [s|] eqn:Hstart.
  - destruct (bfsStepsDetailed_inv nodes edges s startNodeId Hstart)
      as (T & O & V & rest & Hres & HT & Hinv).
    exists T. split_and!; [done| |].
    + intros r x Hr Hx.
      destruct (bi_trace _ _ _ _ _ _ _ _ Hinv r Hr) as (Or & _ & _ & Hones & Hq & _).
      by apply Hones, Hq.
    + intros s' [= <-]. eexists _, rest. split_and!; [exact HT|done..|].
      simpl. apply lookup_insert_eq.
  - exists []. unfold bfsStepsDetailed. rewrite Hstart. split_and!; [done| |done].
    intros r x Hr. by apply elem_of_nil in Hr.
Qed.

(** ** Dangling edge targets *)

Lemma listed_reach_listed nodes edges s x :
  s ∈ nodeIds nodes → rtc (listedEdge nodes edges) s x → x ∈ nodeIds nodes.
Proof. intros Hs Hreach. apply rtc_inv_r in Hreach as [<-|(y & _ & _ & Hx)]; done. Qed.

(** C10.  With the start in the node list, an id [x] that is not a node
    is never the current node of a DFS or BFS record, never on the stack
    or in the queue, and has no entry in any record's visited map; the
    current node of every record is reached from the start through listed
    nodes only.  [hasCycle] does follow such targets: in [danglingLoop]
    the only cycle is the self-loop of the unlisted [X], and it is found. *)
Theorem dangling_target_never_traversed :
  (∀ nodes edges startNodeId s x,
     startNode nodes startNodeId = Some s → s ∈ nodeIds nodes → x ∉ nodeIds nodes →
     (∃ T, dfsStepsDetailed nodes edges startNodeId = Some T ∧
        ∀ r, r ∈ T →
          DFS.currentNode r ≠ x ∧ (x ∉ DFS.stack r) ∧ DFS.visited r !! x = None ∧
          rtc (listedEdge nodes edges) s (DFS.currentNode r)) ∧
     (∃ T, bfsStepsDetailed nodes edges startNodeId = Some T ∧
        ∀ r, r ∈ T →
          BFS.currentNode r ≠ x ∧ (x ∉ BFS.queue r) ∧ BFS.visited r !! x = None ∧
          rtc (listedEdge nodes edges) s (BFS.currentNode r))) ∧
  (hasCycle danglingLoop.1 danglingLoop.2 = Some true ∧
   ∃ T, dfsStepsDetailed danglingLoop.1 danglingLoop.2 None = Some T ∧
        DFS.currentNode <$> T = ["A"; "A"; "A"]).
Proof.
  split; [|split; [vm_compute; reflexivity|eexists; split; vm_compute; reflexivity]].
  intros nodes edges startNodeId s x Hstart Hs Hx. split.
  - destruct (dfsStepsDetailed_spec nodes edges startNodeId s Hstart Hs)
      as (T & V' & Hres & Hpost & Hnew).
    exists T. split; [done|]. intros r Hr.
    assert (initVisited nodes !! x = None) as Hnone.
    { rewrite initVisited_lookup. by rewrite decide_False. }
    assert (∀ y, newly (initVisited nodes) V' y → y ≠ x) as Hne.
    { intros y [H0 _] ->. congruence. }
    split_and!.
    + by apply Hne, (post_cur _ _ _ _ _ _ _ Hpost).
    + intros Hin. destruct (post_stack _ _ _ _ _ _ _ Hpost r x Hr Hin) as [Hnil|Hnewly].
      * by apply elem_of_nil in Hnil.
      * by apply (Hne x).
    + eapply grows_None; [|exact Hnone]. by apply (post_snap _ _ _ _ _ _ _ Hpost).
    + by apply Hnew, (post_cur _ _ _ _ _ _ _ Hpost).
  - destruct (bfsStepsDetailed_inv nodes edges s startNodeId Hstart)
      as (T & O & V & rest & Hres & _ & Hinv).
    exists T. split; [done|]. intros r Hr.
    destruct (bi_trace _ _ _ _ _ _ _ _ Hinv r Hr) as (Or & restr & Heq & Hones & Hq & Hcur & Hdom).
    assert (∀ y, y ∈ Or → rtc (listedEdge nodes edges) s y) as Hreach.
    { intros y Hy. destruct (bi_dist _ _ _ _ _ _ _ _ Hinv y) as [d Hd].
      - rewrite Heq. apply elem_of_app. by left.
      - by eapply shortest_rtc. }
    assert (x ∉ Or) as HxO.
    { intros Hin. apply Hx. eapply listed_reach_listed; [exact Hs|]. by apply Hreach. }
    split_and!.
    + intros Heqx. apply HxO. by rewrite <- Heqx.
    + intros Hin. by apply HxO, Hq.
    + destruct (BFS.visited r !! x) eqn:Hv; [|done].
      destruct (Hdom x) as [->|?]; [by rewrite Hv|done..].
    + by apply Hreach.
Qed.

Lemma dangling_target_never_traversed_witness :
  (∃ T, dfsStepsDetailed danglingGraph.1 danglingGraph.2 None = Some T ∧
     ∀ r, r ∈ T →
       DFS.currentNode r ≠ "X" ∧ ("X" ∉ DFS.stack r) ∧ DFS.visited r !! "X" = None ∧
       rtc (listedEdge danglingGraph.1 danglingGraph.2) "A" (DFS.currentNode r)) ∧
  (∃ T, bfsStepsDetailed danglingGraph.1 danglingGraph.2 None = Some T ∧
     ∀ r, r ∈ T →
       BFS.currentNode r ≠ "X" ∧ ("X" ∉ BFS.queue r) ∧ BFS.visited r !! "X" = None ∧
       rtc (listedEdge danglingGraph.1 danglingGraph.2) "A" (BFS.currentNode r)).
Proof.
  apply (proj1 dangling_target_never_traversed danglingGraph.1 danglingGraph.2 None "A" "X").
  - reflexivity.
  - apply (bool_decide_unpack _). vm_compute. exact I.
  - apply (bool_decide_unpack _). vm_compute. exact I.
Defined.

(** * Further properties: the graph representation builders *)

Lemma filter_all_edges (P : GraphEdge → Prop) `{∀ e, Decision (P e)} (l : list GraphEdge) :
  (∀ e, e ∈ l → P e) → filter P l = l.
Proof.
  induction l as [|y l IH]; intros Hall; [done|].
  rewrite filter_cons_True by (apply Hall; by left).
  f_equal. apply IH. intros x Hx. apply Hall. by right.
Qed.

Section builders.
Implicit Types (adj : gmap string (list string)) (edges : list GraphEdge).

Lemma fold_pushAt_lookup_exact (key val : GraphEdge → string) edges adj x :
  fold_left (λ a e, pushAt (key e) (val e) a) edges adj !! x =
    match val <$> filter (λ e, key e = x) edges with
    | [] => adj !! x
    | l => Some (default [] (adj !! x) ++ l)
    end.
Proof.
  revert adj. induction edges as [|e edges IH]; intros adj; simpl; [done|].
  rewrite IH, pushAt_lookup, filter_cons.
  destruct (decide (key e = x)) as [->|Hne].
  - rewrite decide_True by done. rewrite fmap_cons.
    destruct (val <$> filter _ edges) as [|y l]; simpl; [done|].
    by rewrite <- app_assoc.
  - by rewrite decide_False by congruence.
Qed.

Lemma ensureEntries_lookup nodes adj x :
  ensureEntries nodes adj !! x =
    match adj !! x with
    | Some l => Some l
    | None => if decide (x ∈ nodeIds nodes) then Some [] else None
    end.
Proof.
  unfold ensureEntries. revert adj. induction nodes as [|n nodes IH]; intros adj; simpl.
  - by destruct (adj !! x).
  - rewrite IH. destruct (decide (x = node_id n)) as [->|Hne].
    + destruct (adj !! node_id n) as [l|] eqn:Hn.
      * by rewrite Hn.
      * rewrite lookup_insert_eq. rewrite decide_True; [done|by left].
    + assert ((match adj !! node_id n with
               | Some _ => adj | None => <[node_id n:=[]]> adj end) !! x = adj !! x) as ->.
      { destruct (adj !! node_id n); [done|by rewrite lookup_insert_ne]. }
      destruct (adj !! x); [done|].
      destruct (decide (x ∈ nodeIds nodes)) as [Hin|Hin].
      * rewrite decide_True; [done|by right].
      * rewrite decide_False; [done|]. intros [?|?]%elem_of_cons; done.
Qed.

Lemma buildAdjacencyList_lookup edges x :
  buildAdjacencyList edges !! x = match successors edges x with [] => None | l => Some l end.
Proof.
  unfold buildAdjacencyList, successors. by rewrite fold_pushAt_lookup_exact, lookup_empty.
Qed.

Lemma getAdjacencyListRepr_lookup nodes edges x :
  getAdjacencyListRepr nodes edges !! x =
    if decide (x ∈ nodeIds nodes ∨ successors edges x ≠ [])
    then Some (successors edges x) else None.
Proof.
  unfold getAdjacencyListRepr. rewrite ensureEntries_lookup, buildAdjacencyList_lookup.
  destruct (successors edges x) as [|c l] eqn:Hsucc.
  - destruct (decide (x ∈ nodeIds nodes)).
    + rewrite decide_True; [done|by left].
    + rewrite decide_False; [done|]. intros [?|?]; done.
  - rewrite decide_True; [done|by right].
Qed.

(** X1.  [buildAdjacencyList] maps an id to the targets of the edges
    leaving it, in edge order, and has no entry for an id that no edge
    leaves; [buildReverseAdjacencyList] does the same with the sources of
    the edges entering it. *)
Theorem adjacency_lists_lookup edges x :
  buildAdjacencyList edges !! x =
    match successors edges x with [] => None | l => Some l end ∧
  buildReverseAdjacencyList edges !! x =
    match predecessors edges x with [] => None | l => Some l end.
Proof.
  unfold buildAdjacencyList, buildReverseAdjacencyList, successors, predecessors.
  rewrite !fold_pushAt_lookup_exact, lookup_empty. done.
Qed.

Lemma elem_of_predecessors edges x c : c ∈ predecessors edges x ↔ edgeRel edges c x.
Proof.
  unfold predecessors, edgeRel. rewrite list_elem_of_fmap. split.
  - intros (e & -> & He). apply list_elem_of_filter in He as [Hs He]. eauto.
  - intros (e & He & Hs & Ht). exists e. split; [done|].
    apply list_elem_of_filter. done.
Qed.

(** X2.  The two adjacency lists are dual: [c] is listed under [x] in the
    forward list exactly when [x] is listed under [c] in the reverse one. *)
Theorem adjacency_lists_dual edges x c :
  c ∈ default [] (buildAdjacencyList edges !! x) ↔
  x ∈ default [] (buildReverseAdjacencyList edges !! c).
Proof.
  rewrite buildAdjacencyList_successors, elem_of_successors.
  unfold buildReverseAdjacencyList. rewrite fold_pushAt_lookup, lookup_empty. simpl.
  by rewrite (elem_of_predecessors edges c x).
Qed.

(** X3.  [getAdjacencyListRepr] and [getAdjacencyList] return the same map:
    every node id and every edge source has an entry, holding the targets
    of the edges leaving it in edge order (the empty list for a node without
    outgoing edges); no other id has an entry. *)
Theorem adjacency_list_repr_lookup nodes edges x :
  getAdjacencyListRepr nodes edges !! x =
    (if decide (x ∈ nodeIds nodes ∨ successors edges x ≠ [])
     then Some (successors edges x) else None) ∧
  getAdjacencyList nodes edges = getAdjacencyListRepr nodes edges.
Proof.
  split; [apply getAdjacencyListRepr_lookup|done].
Qed.

Lemma fold_increment_lookup edges (m : gmap string Z) x :
  fold_left (λ m e, <[target e := default 0 (m !! target e) + 1]> m) edges m !! x =
    match inDegree edges x with
    | O => m !! x
    | S _ => Some (default 0 (m !! x) + Z.of_nat (inDegree edges x))
    end.
Proof.
  unfold inDegree. revert m. induction edges as [|e edges IH]; intros m; simpl; [done|].
  rewrite IH, filter_cons. destruct (decide (target e = x)) as [->|Hne].
  - rewrite lookup_insert_eq. cbn [length default]. unfold id.
    destruct (length (filter _ edges)) as [|k]; f_equal; lia.
  - by rewrite lookup_insert_ne.
Qed.

(** X4.  [calculateInDegrees] maps every node id, and every edge target
    (listed or not), to the number of edges entering it; no other id has
    an entry. *)
Theorem calculateInDegrees_exact nodes edges x :
  calculateInDegrees nodes edges !! x =
    if decide (x ∈ nodeIds nodes ∨ inDegree edges x ≠ 0%nat)
    then Some (Z.of_nat (inDegree edges x)) else None.
Proof.
  unfold calculateInDegrees. fold (initVisited nodes).
  rewrite fold_increment_lookup, initVisited_lookup.
  destruct (inDegree edges x) as [|k] eqn:Hk.
  - destruct (decide (x ∈ nodeIds nodes)).
    + rewrite decide_True; [done|by left].
    + rewrite decide_False; [done|]. intros [?|?]; done.
  - rewrite (decide_True (P := x ∈ nodeIds nodes ∨ S k ≠ 0%nat)) by (right; lia).
    destruct (decide (x ∈ nodeIds nodes)); simpl; f_equal; lia.
Qed.

Lemma count_listed_target (nodes : list GraphNode) (t : string) :
  NoDup (nodeIds nodes) →
  sum_list_with (λ n, if decide (t = node_id n) then 1%nat else 0%nat) nodes =
    if decide (t ∈ nodeIds nodes) then 1%nat else 0%nat.
Proof.
  induction nodes as [|n nodes IH]; intros Hnd; simpl; [done|].
  apply NoDup_cons in Hnd as [Hn Hnd]. rewrite IH by done.
  destruct (decide (t = node_id n)) as [->|Hne].
  - rewrite decide_False by done. rewrite decide_True; [done|by left].
  - destruct (decide (t ∈ nodeIds nodes)).
    + rewrite decide_True; [done|by right].
    + rewrite decide_False; [done|]. intros [?|?]%elem_of_cons; done.
Qed.

Lemma sum_inDegree nodes edges :
  NoDup (nodeIds nodes) →
  sum_list_with (λ n, inDegree edges (node_id n)) nodes =
    length (filter (λ e, target e ∈ nodeIds nodes) edges).
Proof.
  intros Hnd. induction edges as [|e edges IH].
  - unfold inDegree. simpl. induction nodes as [|n nodes IHn]; simpl; [done|].
    apply IHn. by apply NoDup_cons in Hnd as [_ ?].
  - rewrite filter_cons.
    assert (sum_list_with (λ n, inDegree (e :: edges) (node_id n)) nodes =
            (sum_list_with (λ n, if decide (target e = node_id n) then 1 else 0) nodes
             + sum_list_with (λ n, inDegree edges (node_id n)) nodes)%nat) as ->.
    { clear. induction nodes as [|n nodes IHn]; simpl; [done|].
      rewrite IHn. unfold inDegree at 1. rewrite filter_cons.
      destruct (decide (target e = node_id n)); simpl; unfold inDegree; lia. }
    rewrite count_listed_target, IH by done.
    destruct (decide (target e ∈ nodeIds nodes)); simpl; lia.
Qed.

(** X5.  When the node ids are distinct, the in-degrees of the nodes add
    up to the number of edges whose target is a node (to the number of
    edges, when every target is one). *)
Theorem inDegrees_sum nodes edges :
  NoDup (nodeIds nodes) →
  sum_list_with (λ n, Z.to_nat (default 0 (calculateInDegrees nodes edges !! node_id n))) nodes
    = length (filter (λ e, target e ∈ nodeIds nodes) edges) ∧
  (edgesReferenceNodes nodes edges →
   sum_list_with (λ n, Z.to_nat (default 0 (calculateInDegrees nodes edges !! node_id n))) nodes
     = length edges).
Proof.
  intros Hnd.
  assert (∀ l, sum_list_with
            (λ n, Z.to_nat (default 0 (calculateInDegrees nodes edges !! node_id n))) l
          = sum_list_with (λ n, inDegree edges (node_id n)) l) as ->.
  { induction l as [|n l IHl]; simpl; [done|].
    rewrite IHl, calculateInDegrees_lookup. unfold inDegree. by rewrite Nat2Z.id. }
  rewrite sum_inDegree by done. split; [done|]. intros Hwf. f_equal.
  apply filter_all_edges. intros e He.
  by apply (edgesReferenceNodes_elem nodes edges e).
Qed.

Lemma inDegrees_sum_witness :
  NoDup (nodeIds createSampleDAG.1) ∧
  sum_list_with (λ n, Z.to_nat (default 0
      (calculateInDegrees createSampleDAG.1 createSampleDAG.2 !! node_id n))) createSampleDAG.1
    = length (filter (λ e, target e ∈ nodeIds createSampleDAG.1) createSampleDAG.2) ∧
  sum_list_with (λ n, Z.to_nat (default 0
      (calculateInDegrees createSampleDAG.1 createSampleDAG.2 !! node_id n))) createSampleDAG.1
    = length createSampleDAG.2.
Proof.
  assert (NoDup (nodeIds createSampleDAG.1)) as Hnd.
  { apply (bool_decide_unpack _). vm_compute. exact I. }
  assert (edgesReferenceNodes createSampleDAG.1 createSampleDAG.2) as Hwf.
  { apply (bool_decide_unpack _). vm_compute. exact I. }
  split; [exact Hnd|].
  destruct (inDegrees_sum createSampleDAG.1 createSampleDAG.2 Hnd) as [Hsum Hall].
  split; [exact Hsum|exact (Hall Hwf)].
Defined.
End builders.

(** ** The adjacency matrix *)

Section matrix.
Implicit Types (nodes : list GraphNode) (edges : list GraphEdge) (m : gmap string Z).

Lemma fold_insert_const {A} (key : A → string) (v : Z) (l : list A) m x :
  fold_left (λ m a, <[key a := v]> m) l m !! x =
    if decide (x ∈ key <$> l) then Some v else m !! x.
Proof.
  revert m. induction l as [|a l IH]; intros m; simpl; [done|]. rewrite IH.
  destruct (decide (x ∈ key <$> l)) as [Hin|Hin].
  - rewrite decide_True; [done|by right].
  - destruct (decide (x = key a)) as [->|Hne].
    + rewrite lookup_insert_eq. rewrite decide_True; [done|by left].
    + rewrite lookup_insert_ne by done.
      rewrite decide_False; [done|]. intros [?|?]%elem_of_cons; done.
Qed.

Lemma fold_node_pairs_lookup nodes1 nodes2 m x :
  fold_left (λ m node1,
      fold_left (λ m node2, <[pairKey (node_id node1) (node_id node2) := 0]> m) nodes2 m)
    nodes1 m !! x =
    if decide (x ∈ nodePairKeys nodes1 nodes2) then Some 0 else m !! x.
Proof.
  unfold nodePairKeys.
  revert m. induction nodes1 as [|n nodes1 IH]; intros m; simpl; [done|].
  rewrite IH, (fold_insert_const (λ n2, pairKey (node_id n) (node_id n2))).
  destruct (decide (x ∈ nodes1 ≫= _)) as [Hin|Hin].
  - rewrite decide_True; [done|]. apply elem_of_app. by right.
  - destruct (decide (x ∈ _ <$> nodes2)) as [Hin2|Hin2].
    + rewrite decide_True; [done|]. apply elem_of_app. by left.
    + rewrite decide_False; [done|]. intros [?|?]%elem_of_app; done.
Qed.

Lemma getAdjacencyMatrix_lookup nodes edges k :
  getAdjacencyMatrix nodes edges !! k =
    if decide (k ∈ edgeKeys edges) then Some 1
    else if decide (k ∈ nodePairKeys nodes nodes) then Some 0 else None.
Proof.
  unfold getAdjacencyMatrix, edgeKeys.
  rewrite (fold_insert_const (λ e, pairKey (source e) (target e))).
  destruct (decide _); [done|]. by rewrite fold_node_pairs_lookup, lookup_empty.
Qed.

Lemma elem_of_nodePairKeys nodes a b :
  a ∈ nodeIds nodes → b ∈ nodeIds nodes → pairKey a b ∈ nodePairKeys nodes nodes.
Proof.
  unfold nodeIds, nodePairKeys.
  intros (n1 & -> & Hn1)%list_elem_of_fmap (n2 & -> & Hn2)%list_elem_of_fmap.
  apply list_elem_of_bind. exists n1. split; [|done].
  apply list_elem_of_fmap. by exists n2.
Qed.

Lemma elem_of_edgeKeys edges a b :
  edgeRel edges a b → pairKey a b ∈ edgeKeys edges.
Proof.
  intros (e & He & <- & <-). apply list_elem_of_fmap. by exists e.
Qed.

Lemma elem_of_edgeKeys_noKeyClash edges a b :
  noKeyClash edges a b → pairKey a b ∈ edgeKeys edges → edgeRel edges a b.
Proof.
  intros Hno (e & Hk & He)%list_elem_of_fmap.
  unfold noKeyClash in Hno. rewrite Forall_forall in Hno.
  destruct (Hno e He) as [? ?]; [done|]. by exists e.
Qed.

Lemma pairKey_inj a b c d :
  dashFree a → dashFree c → pairKey a b = pairKey c d → a = c ∧ b = d.
Proof.
  unfold pairKey. revert c. induction a as [|x a IH]; intros [|y c]; simpl.
  - intros _ _ Heq. by simplify_eq.
  - intros _ [Hy _] Heq. by simplify_eq.
  - intros [Hx _] _ Heq. by simplify_eq.
  - intros [_ Ha] [_ Hc] Heq. simplify_eq.
    destruct (IH c Ha Hc) as [-> ->]; done.
Qed.

Lemma dashFree_noKeyClash edges a b :
  dashFree a → Forall (λ e, dashFree (source e)) edges → noKeyClash edges a b.
Proof.
  intros Ha Hall. unfold noKeyClash. eapply Forall_impl; [exact Hall|].
  intros e He Hk. simpl in *. by apply (pairKey_inj _ _ _ _ He Ha).
Qed.

Lemma dashFree_app s t : dashFree s → dashFree t → dashFree (s +:+ t).
Proof. induction s as [|c s IH]; simpl; [done|]. intros [? ?] ?. split; auto. Qed.

Lemma dashFree_pretty_N_go (x : N) s : dashFree s → dashFree (pretty_N_go x s).
Proof.
  revert s. induction (N.lt_wf_0 x) as [x _ IH]; intros s Hs.
  assert (x = 0 ∨ 0 < x)%N as [->|?] by lia.
  - by rewrite pretty_N_go_0.
  - rewrite pretty_N_go_step by done. apply IH.
    { by apply N.div_lt. }
    simpl. split; [|done]. unfold pretty_N_char. by repeat case_match.
Qed.

Lemma dashFree_pretty_nat (i : nat) : dashFree (pretty i).
Proof.
  unfold pretty, pretty_nat, pretty, pretty_N. case_decide.
  - simpl. split; [done|done].
  - by apply dashFree_pretty_N_go.
Qed.

Lemma nodeIdOf_pairKey_inj i j a b :
  pairKey (nodeIdOf i) b = pairKey (nodeIdOf j) a → nodeIdOf i = nodeIdOf j ∧ b = a.
Proof.
  unfold pairKey, nodeIdOf. intros Heq. simpl in Heq. simplify_eq.
  change ("" +:+ pretty i) with (pretty i) in Heq.
  change ("" +:+ pretty j) with (pretty j) in Heq.
  by destruct (pairKey_inj (pretty i) b (pretty j) a) as [-> ->];
    [apply dashFree_pretty_nat..|exact Heq|].
Qed.

Lemma matrix_exact_aux nodes edges a b :
  noKeyClash edges a b →
  (getAdjacencyMatrix nodes edges !! pairKey a b = Some 1 ↔ edgeRel edges a b) ∧
  (a ∈ nodeIds nodes → b ∈ nodeIds nodes → ¬ edgeRel edges a b →
   getAdjacencyMatrix nodes edges !! pairKey a b = Some 0).
Proof.
  intros Hno. rewrite getAdjacencyMatrix_lookup. split; [split|].
  - destruct (decide (_ ∈ edgeKeys edges)) as [Hin|Hin].
    + intros _. by apply elem_of_edgeKeys_noKeyClash.
    + by destruct (decide _).
  - intros Hrel. rewrite decide_True; [done|]. by apply elem_of_edgeKeys.
  - intros Ha Hb Hrel. rewrite decide_False.
    + rewrite decide_True; [done|]. by apply elem_of_nodePairKeys.
    + intros Hin. by apply Hrel, elem_of_edgeKeys_noKeyClash.
Qed.

(** X6.  Whatever the ids look like, the matrix has the entry 1 for every
    edge and an entry (0 or 1) for every pair of node ids; every entry is
    0 or 1, and every key is the key of an edge or of a pair of nodes. *)
Theorem adjacency_matrix_entries nodes edges :
  (∀ a b, edgeRel edges a b → getAdjacencyMatrix nodes edges !! pairKey a b = Some 1) ∧
  (∀ a b, a ∈ nodeIds nodes → b ∈ nodeIds nodes →
     getAdjacencyMatrix nodes edges !! pairKey a b = Some 0 ∨
     getAdjacencyMatrix nodes edges !! pairKey a b = Some 1) ∧
  (∀ k v, getAdjacencyMatrix nodes edges !! k = Some v →
     (v = 0 ∨ v = 1) ∧ (k ∈ edgeKeys edges ∨ k ∈ nodePairKeys nodes nodes)).
Proof.
  split_and!.
  - intros a b Hrel. rewrite getAdjacencyMatrix_lookup.
    rewrite decide_True; [done|]. by apply elem_of_edgeKeys.
  - intros a b Ha Hb. rewrite getAdjacencyMatrix_lookup.
    destruct (decide (_ ∈ edgeKeys edges)); [by right|].
    left. rewrite decide_True; [done|]. by apply elem_of_nodePairKeys.
  - intros k v. rewrite getAdjacencyMatrix_lookup.
    destruct (decide (_ ∈ edgeKeys edges)); [intros [= <-]; auto|].
    destruct (decide _); [intros [= <-]; auto|done].
Qed.

(** X7.  For a pair [(a, b)] whose key [a-b] is the key of no other pair
    of edge ends, the matrix entry is 1 exactly when there is an edge from
    [a] to [b], and it is 0 when [a] and [b] are nodes without such an
    edge. *)
Theorem adjacency_matrix_exact nodes edges a b :
  noKeyClash edges a b →
  (getAdjacencyMatrix nodes edges !! pairKey a b = Some 1 ↔ edgeRel edges a b) ∧
  (a ∈ nodeIds nodes → b ∈ nodeIds nodes → ¬ edgeRel edges a b →
   getAdjacencyMatrix nodes edges !! pairKey a b = Some 0).
Proof. apply matrix_exact_aux. Qed.

Lemma adjacency_matrix_exact_witness :
  noKeyClash createSampleDAG.2 "B" "A" ∧
  (getAdjacencyMatrix createSampleDAG.1 createSampleDAG.2 !! pairKey "B" "A" = Some 1
     ↔ edgeRel createSampleDAG.2 "B" "A") ∧
  ("B" ∈ nodeIds createSampleDAG.1 → "A" ∈ nodeIds createSampleDAG.1 →
   ¬ edgeRel createSampleDAG.2 "B" "A" →
   getAdjacencyMatrix createSampleDAG.1 createSampleDAG.2 !! pairKey "B" "A" = Some 0).
Proof.
  assert (noKeyClash createSampleDAG.2 "B" "A") as Hno.
  { apply (bool_decide_unpack _). vm_compute. exact I. }
  split; [exact Hno|].
  exact (adjacency_matrix_exact createSampleDAG.1 createSampleDAG.2 "B" "A" Hno).
Defined.

(** X8.  Ids without ['-'] never clash: when no edge source has a dash,
    the matrix entry of every pair of nodes [(a, b)] with [a] dash-free
    is 1 if there is an edge from [a] to [b] and 0 otherwise. *)
Theorem adjacency_matrix_exact_dashFree nodes edges a b :
  Forall (λ e, dashFree (source e)) edges → dashFree a →
  a ∈ nodeIds nodes → b ∈ nodeIds nodes →
  (edgeRel edges a b ∧ getAdjacencyMatrix nodes edges !! pairKey a b = Some 1) ∨
  (¬ edgeRel edges a b ∧ getAdjacencyMatrix nodes edges !! pairKey a b = Some 0).
Proof.
  intros Hall Ha Hina Hinb.
  destruct (matrix_exact_aux nodes edges a b) as [Hone Hzero];
    [by apply dashFree_noKeyClash|].
  destruct (getAdjacencyMatrix nodes edges !! pairKey a b) as [v|] eqn:Hv.
  - destruct (decide (v = 1)) as [->|Hne].
    + left. split; [by apply Hone|done].
    + right. assert (¬ edgeRel edges a b) as Hrel.
      { intros Hrel. apply Hone in Hrel. congruence. }
      split; [done|]. rewrite <- Hv. rewrite Hv. rewrite <- (Hzero Hina Hinb Hrel). done.
  - right. assert (¬ edgeRel edges a b) as Hrel.
    { intros Hrel. apply Hone in Hrel. congruence. }
    split; [done|]. rewrite <- (Hzero Hina Hinb Hrel). done.
Qed.

Lemma adjacency_matrix_exact_dashFree_witness :
  (edgeRel createSampleDAG.2 "A" "B" ∧
   getAdjacencyMatrix createSampleDAG.1 createSampleDAG.2 !! pairKey "A" "B" = Some 1) ∨
  (¬ edgeRel createSampleDAG.2 "A" "B" ∧
   getAdjacencyMatrix createSampleDAG.1 createSampleDAG.2 !! pairKey "A" "B" = Some 0).
Proof.
  apply (adjacency_matrix_exact_dashFree createSampleDAG.1 createSampleDAG.2 "A" "B").
  - simpl. repeat constructor; simpl; intuition discriminate.
  - simpl. intuition discriminate.
  - apply (bool_decide_unpack _). vm_compute. exact I.
  - apply (bool_decide_unpack _). vm_compute. exact I.
Defined.

(** X9.  Ids with dashes can clash: there is a graph with distinct node
    ids, whose edges join nodes, and two nodes [a], [b] without an edge
    from [a] to [b] whose matrix entry is nevertheless 1. *)
Theorem adjacency_matrix_key_clash :
  ∃ nodes edges a b,
    NoDup (nodeIds nodes) ∧ edgesReferenceNodes nodes edges ∧
    a ∈ nodeIds nodes ∧ b ∈ nodeIds nodes ∧ ¬ edgeRel edges a b ∧
    getAdjacencyMatrix nodes edges !! pairKey a b = Some 1.
Proof.
  exists [mkNode "a-b" "P"; mkNode "c" "Q"; mkNode "a" "R"; mkNode "b-c" "S"],
    [mkEdge "e1" "a-b" "c"], "a", "b-c".
  split_and!.
  - apply (bool_decide_unpack _). vm_compute. exact I.
  - apply (bool_decide_unpack _). vm_compute. exact I.
  - apply (bool_decide_unpack _). vm_compute. exact I.
  - apply (bool_decide_unpack _). vm_compute. exact I.
  - intros (e & He & Hs & _). apply list_elem_of_singleton in He as ->. done.
  - rewrite getAdjacencyMatrix_lookup. apply decide_True.
    apply (bool_decide_unpack _). vm_compute. exact I.
Qed.

(** X10.  The two representations shown side by side agree: for a pair
    [(a, b)] whose key is the key of no other pair of edge ends, the
    matrix entry is 1 exactly when [b] stands in the adjacency list of
    [a]. *)
Theorem adjacency_matrix_agrees_with_list nodes edges a b :
  noKeyClash edges a b →
  (getAdjacencyMatrix nodes edges !! pairKey a b = Some 1 ↔
   b ∈ default [] (getAdjacencyListRepr nodes edges !! a)).
Proof.
  intros Hno. destruct (matrix_exact_aux nodes edges a b Hno) as [-> _].
  rewrite getAdjacencyListRepr_lookup, <- elem_of_successors.
  destruct (decide (a ∈ nodeIds nodes ∨ successors edges a ≠ [])) as [Hd|Hd]; [done|].
  simpl. split; [|by intros ?%elem_of_nil].
  intros Hb. destruct Hd. right. intros Hnil. rewrite Hnil in Hb. by apply elem_of_nil in Hb.
Qed.

Lemma adjacency_matrix_agrees_with_list_witness :
  noKeyClash createSampleDAG.2 "C" "D" ∧
  (getAdjacencyMatrix createSampleDAG.1 createSampleDAG.2 !! pairKey "C" "D" = Some 1 ↔
   "D" ∈ default [] (getAdjacencyListRepr createSampleDAG.1 createSampleDAG.2 !! "C")).
Proof.
  assert (noKeyClash createSampleDAG.2 "C" "D") as Hno.
  { apply (bool_decide_unpack _). vm_compute. exact I. }
  split; [exact Hno|].
  exact (adjacency_matrix_agrees_with_list createSampleDAG.1 createSampleDAG.2 "C" "D" Hno).
Defined.
End matrix.

(** ** The cycle detector on arbitrary edge lists *)

Section cycle_reach.
Variable edges : list GraphEdge.

Local Abbreviation R := (edgeRel edges).
Local Abbreviation adj := (buildAdjacencyList edges).

Lemma cycleLoop_reach (rec : string → CycleState → option (bool * CycleState)) (n : string) :
  (∀ c st b st', rec c st = Some (b, st') → (∀ r, r ∈ recursionStack st → rtc R r c) →
     if b then ∃ x, rtc R c x ∧ tc R x x else recursionStack st' ⊆ recursionStack st) →
  ∀ neighbors st b st',
    cycleLoop rec neighbors st = Some (b, st') →
    (∀ r, r ∈ recursionStack st → rtc R r n) →
    (∀ c, c ∈ neighbors → R n c) →
    if b then ∃ x, rtc R n x ∧ tc R x x else recursionStack st' ⊆ recursionStack st.
Proof.
  intros Hrec. induction neighbors as [|c rest IH]; intros st b st' Hres Hchain Hsucc.
  { simpl in Hres. by simplify_eq. }
  simpl in Hres. assert (R n c) as Hnc by (apply Hsucc; left).
  assert (∀ c', c' ∈ rest → R n c') as Hrest by (intros; apply Hsucc; by right).
  destruct (decide (c ∈ visitedSet st)) as [Hvis|Hvis].
  - destruct (decide (c ∈ recursionStack st)) as [Hstk|Hstk]; [|by apply (IH st)].
    simplify_eq. exists n. split; [done|].
    eapply tc_rtc_r; [by apply tc_once|]. by apply Hchain.
  - destruct (rec c st) as [[[|] st1]|] eqn:Hc; [| |done].
    + simplify_eq. destruct (Hrec c st true st' Hc) as (x & Hcx & Hx).
      { intros r Hr. eapply rtc_r; [by apply Hchain|done]. }
      exists x. split; [|done]. by eapply rtc_l.
    + pose proof (Hrec c st false st1 Hc) as Hsub. simpl in Hsub.
      assert (recursionStack st1 ⊆ recursionStack st) as Hsub1.
      { apply Hsub. intros r Hr. eapply rtc_r; [by apply Hchain|done]. }
      pose proof (IH st1 b st' Hres) as Hpost.
      destruct b.
      * apply Hpost; [|done]. intros r Hr. apply Hchain. set_solver.
      * etrans; [|exact Hsub1]. apply Hpost; [|done].
        intros r Hr. apply Hchain. set_solver.
Qed.

Lemma cycleDfs_reach fuel : ∀ n st b st',
  cycleDfs fuel adj n st = Some (b, st') →
  (∀ r, r ∈ recursionStack st → rtc R r n) →
  if b then ∃ x, rtc R n x ∧ tc R x x else recursionStack st' ⊆ recursionStack st.
Proof.
  induction fuel as [|fuel IH]; intros n st b st' Hres Hchain; [done|].
  simpl in Hres.
  destruct (cycleLoop _ _ _) as [[[|] st1]|] eqn:Hloop; [| |done].
  - simplify_eq.
    apply (cycleLoop_reach (cycleDfs fuel adj) n IH _ _ true st' Hloop).
    + simpl. intros r [->%elem_of_singleton|Hr]%elem_of_union; [done|by apply Hchain].
    + intros c Hc. rewrite buildAdjacencyList_successors in Hc. by apply elem_of_successors.
  - simplify_eq. simpl.
    pose proof (cycleLoop_reach (cycleDfs fuel adj) n IH _ _ false st1 Hloop) as Hsub.
    simpl in Hsub. cut (recursionStack st1 ⊆ {[n]} ∪ recursionStack st); [set_solver|].
    apply Hsub.
    + intros r [->%elem_of_singleton|Hr]%elem_of_union; [done|by apply Hchain].
    + intros c Hc. rewrite buildAdjacencyList_successors in Hc. by apply elem_of_successors.
Qed.

Lemma cycleRoots_reach fuel : ∀ ids st,
  recursionStack st = ∅ → cycleRoots fuel adj ids st = Some true →
  ∃ s x, s ∈ ids ∧ rtc R s x ∧ tc R x x.
Proof.
  induction ids as [|n ids IH]; intros st Hstk Hres; simpl in Hres; [done|].
  destruct (decide (n ∈ visitedSet st)) as [Hn|Hn].
  { destruct (IH st Hstk Hres) as (s & x & ? & ? & ?). exists s, x. split; [by right|done]. }
  destruct (cycleDfs fuel adj n st) as [[[|] st1]|] eqn:Hdfs; [| |done].
  - destruct (cycleDfs_reach fuel n st true st1 Hdfs) as (x & ? & ?).
    { intros r Hr. rewrite Hstk in Hr. set_solver. }
    exists n, x. split; [by left|done].
  - pose proof (cycleDfs_reach fuel n st false st1 Hdfs) as Hsub. simpl in Hsub.
    destruct (IH st1) as (s & x & ? & ? & ?); [|done|].
    + assert (recursionStack st1 ⊆ recursionStack st) as Hsub1.
      { apply Hsub. intros r Hr. rewrite Hstk in Hr. set_solver. }
      rewrite Hstk in Hsub1. set_solver.
    + exists s, x. split; [by right|done].
Qed.
End cycle_reach.

Lemma hasCycle_false_reach nodes edges s x :
  hasCycle nodes edges = Some false → s ∈ nodeIds nodes →
  rtc (edgeRel edges) s x → ¬ tc (edgeRel edges) x x.
Proof.
  intros Hres Hs Hsx Hx.
  set (U := list_to_set (nodeIds nodes ++ (target <$> edges)) : gset string).
  destruct (cycleRoots_spec edges U) with (fuel := cycleFuel nodes edges)
    (ids := nodeIds nodes) (st := mkCycleState ∅ ∅) as (b & Hres' & Hpost).
  - intros a b (e & He & _ & <-). apply elem_of_list_to_set, elem_of_app. right.
    by apply list_elem_of_fmap_2.
  - split; unfold finished; simpl; set_solver.
  - done.
  - unfold cycleFuel, U. etrans; [apply size_list_to_set_le|].
    rewrite length_app. unfold nodeIds. rewrite !length_fmap. lia.
  - intros y Hy. apply elem_of_list_to_set, elem_of_app. by left.
  - unfold hasCycle in Hres. rewrite Hres in Hres'. simplify_eq.
    destruct Hpost as (st' & Hinv & Hstk & _ & Hall).
    assert (s ∈ finished st') as Hfin.
    { unfold finished. rewrite Hstk. specialize (Hall s Hs). set_solver. }
    apply (inv_acyclic _ _ Hinv x); [|done].
    by apply (finished_closed_rtc edges st' s).
Qed.

(** X11.  On every input, well-formed or not, [hasCycle] returns, and it
    answers [true] exactly when some directed cycle can be reached from a
    listed node along the edges (dangling ids included). *)
Theorem hasCycle_reachable_cycle nodes edges :
  ∃ b, hasCycle nodes edges = Some b ∧
       (b = true ↔ ∃ s x, s ∈ nodeIds nodes ∧ rtc (edgeRel edges) s x ∧
                          tc (edgeRel edges) x x).
Proof.
  destruct (hasCycle_total nodes edges) as [Ht|Hf].
  - exists true. split; [done|]. split; [intros _|done].
    by apply (cycleRoots_reach edges (cycleFuel nodes edges) (nodeIds nodes)
                (mkCycleState ∅ ∅)).
  - exists false. split; [done|]. split; [done|].
    intros (s & x & Hs & Hsx & Hx). by destruct (hasCycle_false_reach nodes edges s x).
Qed.

(** ** The topological generators on arbitrary graphs *)

Lemma zeroInDegree_sourceNodes nodes edges :
  zeroInDegree (calculateInDegrees nodes edges) (osetOfList (nodeIds nodes))
  = sourceNodes nodes edges.
Proof.
  unfold zeroInDegree, sourceNodes. apply list_filter_iff. intros x.
  rewrite calculateInDegrees_lookup. unfold inDegree. lia.
Qed.

Lemma topoLoop_full nodes edges fuel : ∀ remaining visited steps,
  NoDup remaining → (length remaining < fuel)%nat →
  ∃ T, topoLoop fuel (buildReverseAdjacencyList edges) (calculateInDegrees nodes edges)
         visited remaining steps = Some (steps ++ T) ∧
       Topo.removedNode <$> T = zeroInDegree (calculateInDegrees nodes edges) remaining ∧
       ∀ i r, T !! i = Some r →
         Topo.queue r = drop (S i) (zeroInDegree (calculateInDegrees nodes edges) remaining) ∧
         ∀ k, Topo.visited r !! k =
              if decide (k ∈ take (S i) (zeroInDegree (calculateInDegrees nodes edges) remaining))
              then Some 1 else visited !! k.
Proof.
  induction fuel as [|fuel IH]; intros remaining visited steps Hnd Hfuel; [lia|].
  simpl. destruct remaining as [|x0 rem0] eqn:Hrem.
  { exists []. rewrite app_nil_r. split_and!; try done. }
  rewrite <- Hrem in *. clear Hrem x0 rem0.
  destruct (zeroInDegree _ remaining) as [|r zs] eqn:Hz.
  { exists []. rewrite app_nil_r. split_and!; try done. }
  assert (r ∈ zeroInDegree (calculateInDegrees nodes edges) remaining) as Hr
    by (rewrite Hz; by left).
  apply list_elem_of_filter in Hr as [Hr0 Hrin].
  rewrite (reverse_adjacency_of_source nodes edges r Hr0). simpl.
  rewrite (zeroInDegree_delete _ remaining r zs Hnd Hz).
  destruct (IH (osetDelete r remaining) (<[r:=1]> visited)
              (steps ++ [Topo.mkStep r zs (<[r:=1]> visited)])) as (T & Hres & Hrem & Hq).
  { by apply NoDup_filter. }
  { assert (length (osetDelete r remaining) < length remaining)%nat; [|lia].
    apply (length_filter_lt _ _ r); [done|]. intros Hne. by apply Hne. }
  rewrite (zeroInDegree_delete _ remaining r zs Hnd Hz) in Hrem.
  exists (Topo.mkStep r zs (<[r:=1]> visited) :: T). split_and!.
  - rewrite Hres. by rewrite <- app_assoc.
  - by rewrite fmap_cons, Hrem.
  - intros [|i] r'; simpl.
    + intros [= <-]. simpl. split; [done|]. intros k.
      destruct (decide (k = r)) as [->|Hne].
      * rewrite lookup_insert_eq. rewrite decide_True; [done|by left].
      * rewrite lookup_insert_ne by done. rewrite decide_False; [done|].
        intros [?|[]%elem_of_nil]%elem_of_cons. done.
    + intros Hi. destruct (Hq i r' Hi) as [Hqueue Hvis].
      rewrite (zeroInDegree_delete _ remaining r zs Hnd Hz) in Hqueue, Hvis.
      split; [done|]. intros k. rewrite Hvis.
      destruct (decide (k ∈ take (S i) zs)) as [Hk|Hk].
      * rewrite decide_True; [done|by right].
      * destruct (decide (k = r)) as [->|Hne].
        -- rewrite lookup_insert_eq. rewrite decide_True; [done|by left].
        -- rewrite lookup_insert_ne by done. rewrite decide_False; [done|].
           intros [?|?]%elem_of_cons; done.
Qed.

Lemma topoSimpleLoop_spec nodes edges fuel : ∀ remaining steps,
  NoDup remaining → (length remaining < fuel)%nat →
  ∃ T, topoSimpleLoop fuel (buildReverseAdjacencyList edges) (calculateInDegrees nodes edges)
         remaining steps = Some (steps ++ T) ∧
       TopoSimple.removedNode <$> T = zeroInDegree (calculateInDegrees nodes edges) remaining ∧
       ∀ i r, T !! i = Some r →
         TopoSimple.remainingNodes r =
           filter (λ x, x ∉ take (S i) (zeroInDegree (calculateInDegrees nodes edges) remaining))
             remaining.
Proof.
  induction fuel as [|fuel IH]; intros remaining steps Hnd Hfuel; [lia|].
  simpl. destruct remaining as [|x0 rem0] eqn:Hrem.
  { exists []. rewrite app_nil_r. split_and!; try done. }
  rewrite <- Hrem in *. clear Hrem x0 rem0.
  destruct (zeroInDegree _ remaining) as [|r zs] eqn:Hz.
  { exists []. rewrite app_nil_r. split_and!; try done. }
  assert (r ∈ zeroInDegree (calculateInDegrees nodes edges) remaining) as Hr
    by (rewrite Hz; by left).
  apply list_elem_of_filter in Hr as [Hr0 Hrin].
  rewrite (reverse_adjacency_of_source nodes edges r Hr0). simpl.
  destruct (IH (osetDelete r remaining)
              (steps ++ [TopoSimple.mkStep r (osetDelete r remaining)]))
    as (T & Hres & Hrem & Hq).
  { by apply NoDup_filter. }
  { assert (length (osetDelete r remaining) < length remaining)%nat; [|lia].
    apply (length_filter_lt _ _ r); [done|]. intros Hne. by apply Hne. }
  rewrite (zeroInDegree_delete _ remaining r zs Hnd Hz) in Hrem.
  exists (TopoSimple.mkStep r (osetDelete r remaining) :: T). split_and!.
  - rewrite Hres. by rewrite <- app_assoc.
  - by rewrite fmap_cons, Hrem.
  - intros [|i] r'; simpl.
    + intros [= <-]. simpl. unfold osetDelete. apply list_filter_iff. intros x.
      rewrite elem_of_cons, elem_of_nil. tauto.
    + intros Hi. rewrite (Hq i r' Hi).
      rewrite (zeroInDegree_delete _ remaining r zs Hnd Hz).
      unfold osetDelete. rewrite list_filter_filter. apply list_filter_iff. intros x.
      rewrite elem_of_cons. tauto.
Qed.

Lemma fallbackVisited_lookup nodes removedNode remainingNodes k :
  fallbackVisited nodes removedNode remainingNodes !! k =
    if decide (k ∈ nodeIds nodes)
    then Some (if decide (k = removedNode ∨ k ∉ remainingNodes) then 1 else 0)
    else None.
Proof.
  unfold fallbackVisited.
  assert (∀ m : gmap string Z,
    fold_left (λ m n,
      if decide (node_id n = removedNode ∨ node_id n ∉ remainingNodes)
      then <[node_id n := 1]> m else <[node_id n := 0]> m) nodes m !! k =
    if decide (k ∈ nodeIds nodes)
    then Some (if decide (k = removedNode ∨ k ∉ remainingNodes) then 1 else 0)
    else m !! k) as Hgen; [|by rewrite Hgen, lookup_empty].
  induction nodes as [|n nodes IH]; intros m; simpl; [done|]. rewrite IH.
  destruct (decide (k ∈ nodeIds nodes)) as [Hin|Hin].
  { rewrite (decide_True (P := k ∈ node_id n :: nodeIds nodes)); [done|by right]. }
  destruct (decide (k = node_id n)) as [->|Hne].
  - rewrite (decide_True (P := node_id n ∈ node_id n :: nodeIds nodes)) by by left.
    destruct (decide (node_id n = removedNode ∨ node_id n ∉ remainingNodes));
      by rewrite lookup_insert_eq.
  - rewrite (decide_False (P := k ∈ node_id n :: nodeIds nodes)).
    + destruct (decide (node_id n = removedNode ∨ node_id n ∉ remainingNodes));
        by rewrite lookup_insert_ne.
    + intros [?|?]%elem_of_cons; done.
Qed.

(** X12.  On every graph the detailed topological generator returns, and
    its trace removes exactly the distinct nodes that have no incoming
    edge in the input graph, in node order; the queue of a record is the
    rest of these nodes, and its visited map marks the nodes removed so
    far with 1 and every other node with 0. *)
Theorem topological_trace_is_source_nodes nodes edges :
  ∃ T, topologicalSortStepsDetailed nodes edges = Some T ∧
       Topo.removedNode <$> T = sourceNodes nodes edges ∧
       ∀ i r, T !! i = Some r →
         Topo.queue r = drop (S i) (sourceNodes nodes edges) ∧
         ∀ k, Topo.visited r !! k =
              if decide (k ∈ nodeIds nodes)
              then Some (if decide (k ∈ take (S i) (sourceNodes nodes edges)) then 1 else 0)
              else None.
Proof.
  destruct (osetOfList_spec (nodeIds nodes)) as (Hnd & Hin & _).
  destruct (topoLoop_full nodes edges (S (length (osetOfList (nodeIds nodes))))
              (osetOfList (nodeIds nodes)) (initVisited nodes) []) as (T & Hres & Hrem & HT);
    [done|lia|].
  rewrite zeroInDegree_sourceNodes in Hrem, HT.
  exists T. split_and!; [exact Hres|done|].
  intros i r Hi. destruct (HT i r Hi) as [Hq Hvis]. split; [done|].
  intros k. rewrite Hvis, initVisited_lookup.
  destruct (decide (k ∈ take (S i) (sourceNodes nodes edges))) as [Hk|Hk]; [|done].
  rewrite decide_True; [done|]. apply Hin.
  apply elem_of_take in Hk as (j & Hj & _). apply list_elem_of_lookup_2 in Hj.
  unfold sourceNodes in Hj. by apply list_elem_of_filter in Hj as [_ ?].
Qed.

(** X13.  The simple topological generator returns a trace that removes
    the same nodes in the same order as the detailed one; the remaining
    nodes of a record are the distinct node ids without the nodes removed
    so far. *)
Theorem topologicalSortSteps_agrees nodes edges :
  ∃ T L, topologicalSortStepsDetailed nodes edges = Some T ∧
         topologicalSortSteps nodes edges = Some L ∧
         TopoSimple.removedNode <$> L = Topo.removedNode <$> T ∧
         ∀ i s, L !! i = Some s →
           TopoSimple.remainingNodes s =
             filter (λ x, x ∉ take (S i) (TopoSimple.removedNode <$> L))
               (osetOfList (nodeIds nodes)).
Proof.
  destruct (osetOfList_spec (nodeIds nodes)) as (Hnd & Hin & _).
  destruct (topoLoop_full nodes edges (S (length (osetOfList (nodeIds nodes))))
              (osetOfList (nodeIds nodes)) (initVisited nodes) []) as (T & Hres & Hrem & _);
    [done|lia|].
  destruct (topoSimpleLoop_spec nodes edges (S (length (osetOfList (nodeIds nodes))))
              (osetOfList (nodeIds nodes)) []) as (S' & Hres' & Hrem' & HS);
    [done|lia|].
  exists T, S'. split_and!; [exact Hres|exact Hres'|congruence|].
  intros i s Hi. rewrite Hrem'. by apply HS.
Qed.

(** X14.  The visited map the canvas rebuilds from a simple step (its
    fallback when a detailed step is missing) is the visited map of the
    detailed step of the same index. *)
Theorem fallbackVisited_agrees nodes edges :
  ∃ T L, topologicalSortStepsDetailed nodes edges = Some T ∧
         topologicalSortSteps nodes edges = Some L ∧
         length L = length T ∧
         ∀ i r s, T !! i = Some r → L !! i = Some s →
           fallbackVisited nodes (TopoSimple.removedNode s) (TopoSimple.remainingNodes s)
           = Topo.visited r.
Proof.
  destruct (osetOfList_spec (nodeIds nodes)) as (Hnd & Hin & _).
  destruct (topoLoop_full nodes edges (S (length (osetOfList (nodeIds nodes))))
              (osetOfList (nodeIds nodes)) (initVisited nodes) []) as (T & Hres & Hrem & HT);
    [done|lia|].
  destruct (topoSimpleLoop_spec nodes edges (S (length (osetOfList (nodeIds nodes))))
              (osetOfList (nodeIds nodes)) []) as (S' & Hres' & Hrem' & HS);
    [done|lia|].
  exists T, S'. split_and!; [exact Hres|exact Hres'| |].
  { by rewrite <- (length_fmap TopoSimple.removedNode), Hrem', <- Hrem, length_fmap. }
  intros i r s Hr Hs. apply map_eq. intros k.
  destruct (HT i r Hr) as [_ Hvis]. rewrite Hvis, fallbackVisited_lookup, initVisited_lookup.
  rewrite (HS i s Hs).
  set (Z := zeroInDegree (calculateInDegrees nodes edges) (osetOfList (nodeIds nodes))) in *.
  assert (Z !! i = Some (TopoSimple.removedNode s)) as Hzi.
  { rewrite <- Hrem', list_lookup_fmap, Hs. done. }
  assert (TopoSimple.removedNode s ∈ take (S i) Z) as Hrin.
  { apply elem_of_take. exists i. split; [done|lia]. }
  assert (∀ x, x ∈ Z → x ∈ nodeIds nodes) as HZ.
  { intros x Hx. apply Hin. unfold Z, zeroInDegree in Hx.
    by apply list_elem_of_filter in Hx as [_ ?]. }
  destruct (decide (k ∈ nodeIds nodes)) as [Hk|Hk].
  - destruct (decide (k ∈ take (S i) Z)) as [Hkt|Hkt].
    + rewrite decide_True; [done|]. right. intros [Hno _]%list_elem_of_filter. done.
    + rewrite decide_False; [done|]. intros [->|Hno]; [done|].
      apply Hno. apply list_elem_of_filter. split; [done|by apply Hin].
  - rewrite decide_False; [done|]. intros Hkt. apply Hk, HZ.
    apply elem_of_take in Hkt as (j & Hj & _). by apply list_elem_of_lookup_2 in Hj.
Qed.

(** ** The simple DFS traversal *)

Section dfs_simple.
Variable edges : list GraphEdge.
Variable U : gset string.
Hypothesis U_targets : ∀ a b, edgeRel edges a b → b ∈ U.

Local Abbreviation R := (edgeRel edges).
Local Abbreviation adj := (buildAdjacencyList edges).

Lemma dfsSimpleLoop_spec (rec : string → DfsSimpleState → option DfsSimpleState)
    (fuel : nat) (n : string) :
  (∀ c st, c ∉ simpleVisited st → c ∈ U →
     (size (U ∖ simpleVisited st) ≤ fuel)%nat →
     ∃ st' new, rec c st = Some st' ∧ dfsSimplePost edges [c] st st' (c :: new)) →
  ∀ neighbors st,
    (size (U ∖ simpleVisited st) ≤ fuel)%nat →
    (∀ c, c ∈ neighbors → R n c) →
    ∃ st' new, dfsSimpleLoop rec neighbors st = Some st' ∧
      dfsSimplePost edges neighbors st st' new ∧
      (∀ c, c ∈ neighbors → c ∈ simpleVisited st').
Proof.
  intros Hrec. induction neighbors as [|c rest IH]; intros st Hfuel Hsucc.
  - exists st, []. split; [done|]. split; [split|].
    + by rewrite app_nil_r.
    + set_solver.
    + constructor.
    + intros x Hx. by apply elem_of_nil in Hx.
    + intros x Hx. by apply elem_of_nil in Hx.
    + intros x y Hx. by apply elem_of_nil in Hx.
    + intros i x Hx. by rewrite lookup_nil in Hx.
    + intros c Hc. by apply elem_of_nil in Hc.
  - simpl. assert (R n c) as Hnc by (apply Hsucc; left).
    assert (∀ c', c' ∈ rest → R n c') as Hrest by (intros; apply Hsucc; by right).
    destruct (decide (c ∈ simpleVisited st)) as [Hvis|Hvis].
    + destruct (IH st Hfuel Hrest) as (st' & new & Hres & Hpost & Hall).
      exists st', new. split; [done|]. destruct Hpost as [Htr Hv Hnd Hfr Hre Hcl Hpa].
      split; [split; try done|].
      * intros x Hx. destruct (Hre x Hx) as (r & Hr & Hrx). exists r. split; [by right|done].
      * intros i x Hx. destruct (Hpa i x Hx) as [Hr|Hp]; [left; by right|by right].
      * intros c' [->|Hc']%elem_of_cons; [set_solver|by apply Hall].
    + destruct (Hrec c st Hvis) as (st1 & new1 & Hres1 & Hpost1); [by apply (U_targets n)|done|].
      rewrite Hres1. destruct Hpost1 as [Htr1 Hv1 Hnd1 Hfr1 Hre1 Hcl1 Hpa1].
      destruct (IH st1) as (st' & new2 & Hres & Hpost & Hall); [|done|].
      { etrans; [|exact Hfuel]. apply subseteq_size. set_solver. }
      destruct Hpost as [Htr2 Hv2 Hnd2 Hfr2 Hre2 Hcl2 Hpa2].
      exists st', ((c :: new1) ++ new2). split; [done|]. split; [split|].
      * by rewrite Htr2, Htr1, app_assoc.
      * rewrite Hv2, Hv1, list_to_set_app_L. set_solver.
      * apply NoDup_app. split_and!; [done| |done].
        intros x Hx1 Hx2. apply (Hfr2 x Hx2). rewrite Hv1. set_solver.
      * intros x [Hx|Hx]%elem_of_app; [by apply Hfr1|].
        intros Hxv. apply (Hfr2 x Hx). rewrite Hv1. set_solver.
      * intros x [Hx|Hx]%elem_of_app.
        -- destruct (Hre1 x Hx) as (r & ->%list_elem_of_singleton & Hrx).
           exists c. split; [by left|done].
        -- destruct (Hre2 x Hx) as (r & Hr & Hrx). exists r. split; [by right|done].
      * intros x y [Hx|Hx]%elem_of_app Hxy; [|by apply (Hcl2 x)].
        rewrite Hv2. apply elem_of_union. left. by apply (Hcl1 x).
      * intros i x Hi. apply lookup_app_Some in Hi as [Hi|[Hlen Hi]].
        -- destruct (Hpa1 i x Hi) as [->%list_elem_of_singleton|(j & p & Hj & Hp & Hpx)].
           ++ left. by left.
           ++ right. exists j, p. split_and!; [done| |done].
              by apply lookup_app_l_Some.
        -- destruct (Hpa2 _ x Hi) as [Hr|(j & p & Hj & Hp & Hpx)]; [left; by right|].
           right. exists (length (c :: new1) + j)%nat, p. split_and!; [lia| |done].
           by rewrite lookup_app_r, Nat.add_comm, Nat.add_sub by lia.
      * intros c' [->|Hc']%elem_of_cons; [|by apply Hall].
        rewrite Hv2, Hv1. set_solver.
Qed.

Lemma dfsSimpleVisit_spec fuel : ∀ n st,
  n ∉ simpleVisited st → n ∈ U →
  (size (U ∖ simpleVisited st) ≤ fuel)%nat →
  ∃ st' new, dfsSimpleVisit fuel adj n st = Some st' ∧
             dfsSimplePost edges [n] st st' (n :: new).
Proof.
  induction fuel as [|fuel IH]; intros n st Hn HnU Hfuel.
  { exfalso. assert (size (U ∖ simpleVisited st) ≠ 0)%nat; [|lia].
    intros Hz%size_empty_inv. set_solver. }
  simpl. set (st1 := mkDfsSimpleState _ _).
  destruct (dfsSimpleLoop_spec (dfsSimpleVisit fuel adj) fuel n IH
              (default [] (adj !! n)) st1) as (st' & new & Hres & Hpost & Hall).
  { unfold st1. simpl.
    assert (size (U ∖ simpleVisited st)
            = S (size (U ∖ ({[n]} ∪ simpleVisited st))))%nat; [|lia].
    replace (U ∖ simpleVisited st) with ({[n]} ∪ U ∖ ({[n]} ∪ simpleVisited st)).
    - rewrite size_union by set_solver. by rewrite size_singleton.
    - apply set_eq. intros x. rewrite elem_of_union, !elem_of_difference, elem_of_union,
        elem_of_singleton. destruct (decide (x = n)); naive_solver. }
  { intros c Hc. rewrite buildAdjacencyList_successors in Hc. by apply elem_of_successors. }
  exists st', new. split; [done|].
  destruct Hpost as [Htr Hv Hnd Hfr Hre Hcl Hpa]. unfold st1 in *. simpl in *.
  assert (∀ c, R n c → c ∈ default [] (adj !! n)) as Hadj.
  { intros c Hc. rewrite buildAdjacencyList_successors. by apply elem_of_successors. }
  assert (∀ c, c ∈ default [] (adj !! n) → R n c) as Hadj'.
  { intros c Hc. rewrite buildAdjacencyList_successors in Hc. by apply elem_of_successors. }
  split.
  - rewrite Htr. by rewrite <- app_assoc.
  - rewrite Hv, list_to_set_cons. set_solver.
  - apply NoDup_cons. split; [|done]. intros Hx. apply (Hfr n Hx). set_solver.
  - intros x [->|Hx]%elem_of_cons; [done|]. specialize (Hfr x Hx). set_solver.
  - intros x [->|Hx]%elem_of_cons; [exists n; split; [by left|done]|].
    destruct (Hre x Hx) as (r & Hr & Hrx). exists n. split; [by left|].
    eapply rtc_l; [by apply Hadj'|done].
  - intros x y [->|Hx]%elem_of_cons Hxy; [|by apply (Hcl x)].
    by apply Hall, Hadj.
  - intros [|i] x Hi; simpl in Hi.
    + left. simplify_eq. by left.
    + right. destruct (Hpa i x Hi) as [Hr|(j & p & Hj & Hp & Hpx)].
      * exists 0%nat, n. split_and!; [lia|done|by apply Hadj'].
      * exists (S j), p. split_and!; [lia|done|done].
Qed.
End dfs_simple.

Lemma dfsSteps_start nodes edges startNodeId s :
  startNode nodes startNodeId = Some s →
  ∃ st' new,
    dfsSimpleVisit (dfsSimpleFuel edges) (buildAdjacencyList edges) s (mkDfsSimpleState ∅ [])
      = Some st' ∧
    dfsSteps nodes edges startNodeId = Some (s :: new) ∧
    dfsSimplePost edges [s] (mkDfsSimpleState ∅ []) st' (s :: new).
Proof.
  intros Hstart. unfold dfsSteps. rewrite Hstart.
  set (U := list_to_set (s :: (target <$> edges)) : gset string).
  destruct (dfsSimpleVisit_spec edges U) with (fuel := dfsSimpleFuel edges) (n := s)
    (st := mkDfsSimpleState ∅ []) as (st' & new & Hres & Hpost).
  - intros a b (e & He & _ & <-). apply elem_of_list_to_set. right.
    by apply list_elem_of_fmap_2.
  - set_solver.
  - apply elem_of_list_to_set. by left.
  - unfold dfsSimpleFuel, U. etrans; [apply subseteq_size|].
    { apply subseteq_difference_l. reflexivity. }
    etrans; [apply size_list_to_set_le|]. simpl. by rewrite length_fmap.
  - exists st', new. rewrite Hres. split; [done|]. split; [|done].
    simpl. by rewrite (sp_traversal _ _ _ _ _ Hpost).
Qed.

(** X15.  When a traversal is started, [dfsSteps] returns a list without
    repetition that begins with the start id and holds exactly the ids
    reachable from it along the edges; every later entry comes after an id
    with an edge to it. *)
Theorem dfsSteps_reachable nodes edges startNodeId s :
  startNode nodes startNodeId = Some s →
  ∃ L, dfsSteps nodes edges startNodeId = Some L ∧
       head L = Some s ∧ NoDup L ∧
       (∀ x, x ∈ L ↔ rtc (edgeRel edges) s x) ∧
       (∀ i x, L !! i = Some x → (0 < i)%nat →
          ∃ j p, (j < i)%nat ∧ L !! j = Some p ∧ edgeRel edges p x).
Proof.
  intros Hstart.
  destruct (dfsSteps_start nodes edges startNodeId s Hstart)
    as (st' & new & _ & Hres & [Htr Hv Hnd Hfr Hre Hcl Hpa]).
  exists (s :: new). split_and!; [done|done|done| |].
  - intros x. split.
    + intros Hx. destruct (Hre x Hx) as (r & ->%list_elem_of_singleton & Hrx). done.
    + intros Hsx. revert x Hsx. apply (rtc_ind_r (λ x, x ∈ s :: new)); [by left|].
      intros x y _ Hxy Hx. pose proof (Hcl x y Hx Hxy) as Hy.
      rewrite Hv in Hy. cbn [simpleVisited] in Hy.
      apply elem_of_union in Hy as [Hy|Hy]; [set_solver|].
      by apply (elem_of_list_to_set (C := gset string)) in Hy.
  - intros i x Hi Hpos. destruct (Hpa i x Hi) as [->%list_elem_of_singleton|Hp]; [|done].
    exfalso. destruct i as [|i]; [lia|]. simpl in Hi.
    apply NoDup_cons in Hnd as [Hs _]. apply Hs. by eapply list_elem_of_lookup_2.
Qed.

Lemma dfsSteps_reachable_witness :
  ∃ L, dfsSteps createSampleDAG.1 createSampleDAG.2 None = Some L ∧
       head L = Some "A" ∧ NoDup L ∧
       (∀ x, x ∈ L ↔ rtc (edgeRel createSampleDAG.2) "A" x) ∧
       (∀ i x, L !! i = Some x → (0 < i)%nat →
          ∃ j p, (j < i)%nat ∧ L !! j = Some p ∧ edgeRel createSampleDAG.2 p x).
Proof.
  apply (dfsSteps_reachable createSampleDAG.1 createSampleDAG.2 None "A").
  reflexivity.
Defined.

Section dfs_agree.
Variables (nodes : list GraphNode) (edges : list GraphEdge).
Hypothesis Hwf : edgesReferenceNodes nodes edges.

Local Abbreviation adj := (buildAdjacencyList edges).

Lemma dfsPushOrder_app T1 T2 : dfsPushOrder (T1 ++ T2) = dfsPushOrder T1 ++ dfsPushOrder T2.
Proof. unfold dfsPushOrder. by rewrite filter_app, fmap_app. Qed.

Lemma neighbors_listed n c : c ∈ default [] (adj !! n) → c ∈ nodeIds nodes.
Proof.
  rewrite buildAdjacencyList_successors.
  intros (e & He & _ & <-)%elem_of_successors.
  by apply (edgesReferenceNodes_elem nodes edges e).
Qed.

Lemma dfsLoop_sim (rec1 : string → DfsState → option DfsState)
    (rec2 : string → DfsSimpleState → option DfsSimpleState) :
  (∀ c st sst st' sst', c ∈ nodeIds nodes → c ∉ simpleVisited sst → dfsSim nodes st sst →
     rec1 c st = Some st' → rec2 c sst = Some sst' →
     dfsSim nodes st' sst' ∧ simpleVisited sst ⊆ simpleVisited sst' ∧
     (length (dfsTrace st') + 3 * length (traversal sst)
      = length (dfsTrace st) + 3 * length (traversal sst'))%nat) →
  ∀ neighbors st sst st' sst',
    (∀ c, c ∈ neighbors → c ∈ nodeIds nodes) → dfsSim nodes st sst →
    dfsLoop rec1 neighbors st = Some st' → dfsSimpleLoop rec2 neighbors sst = Some sst' →
    dfsSim nodes st' sst' ∧ simpleVisited sst ⊆ simpleVisited sst' ∧
    (length (dfsTrace st') + 3 * length (traversal sst)
     = length (dfsTrace st) + 3 * length (traversal sst'))%nat.
Proof.
  intros Hrec. induction neighbors as [|c rest IH]; intros st sst st' sst' Hl Hsim H1 H2.
  { simpl in *. by simplify_eq. }
  simpl in H1, H2. assert (c ∈ nodeIds nodes) as Hc by (apply Hl; by left).
  assert (∀ c', c' ∈ rest → c' ∈ nodeIds nodes) as Hl' by (intros; apply Hl; by right).
  pose proof (proj1 Hsim c Hc) as Hvc.
  destruct (decide (c ∈ simpleVisited sst)) as [Hin|Hin].
  - rewrite decide_False in H1 by (rewrite Hvc; done). by apply (IH st sst).
  - rewrite decide_True in H1 by done.
    destruct (rec1 c st) as [st1|] eqn:Hr1; [|done].
    destruct (rec2 c sst) as [sst1|] eqn:Hr2; [|done].
    destruct (Hrec c st sst st1 sst1) as (Hsim1 & Hsub1 & Hlen1); try done.
    destruct (IH st1 sst1 st' sst') as (Hsim' & Hsub' & Hlen'); try done.
    split_and!; [done|set_solver|lia].
Qed.

Lemma dfsVisit_sim fuel1 : ∀ fuel2 n stk st sst st' sst',
  n ∈ nodeIds nodes → n ∉ simpleVisited sst → dfsSim nodes st sst →
  dfsVisit fuel1 adj n stk st = Some st' → dfsSimpleVisit fuel2 adj n sst = Some sst' →
  dfsSim nodes st' sst' ∧ simpleVisited sst ⊆ simpleVisited sst' ∧
  (length (dfsTrace st') + 3 * length (traversal sst)
   = length (dfsTrace st) + 3 * length (traversal sst'))%nat.
Proof.
  induction fuel1 as [|fuel1 IH]; intros [|fuel2] n stk [V T] [W L] st' sst' Hn Hnew Hsim H1 H2;
    try done.
  simpl in H1, H2. simpl in Hnew.
  destruct (dfsLoop _ _ _) as [[V1 T1]|] eqn:Hloop1; [|done].
  destruct (decide (0 < length (stk ++ [n]))%nat) as [_|Hlen];
    [|rewrite length_app in Hlen; simpl in Hlen; lia].
  simplify_eq. simpl.
  destruct Hsim as [Hmarks Horder]. simpl in Hmarks, Horder.
  assert (dfsSim nodes
            (mkDfsState (<[n:=1]> V)
               ((T ++ [DFS.mkStep n (stk ++ [n]) V]) ++ [DFS.mkStep n (stk ++ [n]) (<[n:=1]> V)]))
            (mkDfsSimpleState ({[n]} ∪ W) (L ++ [n]))) as Hsim1.
  { split; simpl.
    - intros k Hk. destruct (decide (k = n)) as [->|Hne].
      + rewrite lookup_insert_eq. rewrite decide_True; [done|set_solver].
      + rewrite lookup_insert_ne by done. rewrite (Hmarks k Hk).
        destruct (decide (k ∈ W)).
        * rewrite decide_True; [done|set_solver].
        * rewrite decide_False; [done|set_solver].
    - rewrite !dfsPushOrder_app, Horder. unfold dfsPushOrder.
      rewrite filter_cons_True.
      2: { simpl. rewrite (Hmarks n Hn). by rewrite decide_False. }
      rewrite filter_cons_False.
      2: { simpl. by rewrite lookup_insert_eq. }
      rewrite !filter_nil. simpl. by rewrite app_nil_r. }
  destruct (dfsLoop_sim (λ nb, dfsVisit fuel1 adj nb (stk ++ [n])) (dfsSimpleVisit fuel2 adj)
              (λ c st sst st' sst', IH fuel2 c (stk ++ [n]) st sst st' sst')
              (default [] (adj !! n)) _ _ _ _ (neighbors_listed n) Hsim1 Hloop1 H2)
    as ([Hmarks' Horder'] & Hsub & Hlen).
  simpl in *. split_and!; [split; simpl| |].
  - done.
  - rewrite dfsPushOrder_app, Horder'. unfold dfsPushOrder.
    rewrite filter_cons_False.
    2: { simpl. rewrite (Hmarks' n Hn). rewrite decide_True; [done|set_solver]. }
    rewrite filter_nil. simpl. by rewrite app_nil_r.
  - set_solver.
  - rewrite !length_app in Hlen. rewrite !length_app. simpl in *. lia.
Qed.
End dfs_agree.

(** X16.  On a graph whose edge endpoints are existing node ids, started
    at a listed node (or not started at all), the list [dfsSteps] returns
    is the order in which the trace of [dfsStepsDetailed] pushes the
    nodes, and the trace has three records for each entry of the list. *)
Theorem dfsSteps_is_push_order nodes edges startNodeId :
  edgesReferenceNodes nodes edges →
  (∀ s, startNode nodes startNodeId = Some s → s ∈ nodeIds nodes) →
  ∃ T L, dfsStepsDetailed nodes edges startNodeId = Some T ∧
         dfsSteps nodes edges startNodeId = Some L ∧
         dfsPushOrder T = L ∧ length T = (3 * length L)%nat.
Proof.
  intros Hwf Hlisted.
  destruct (startNode nodes startNodeId) as [s|] eqn:Hstart.
  2: { exists [], []. unfold dfsStepsDetailed, dfsSteps. rewrite Hstart. done. }
  specialize (Hlisted s eq_refl).
  destruct (dfsSteps_start nodes edges startNodeId s Hstart) as (sst' & new & Hres2 & HL & Hpost).
  destruct (dfsStepsDetailed_total nodes edges startNodeId) as [T HT].
  exists T, (s :: new).
  unfold dfsStepsDetailed in HT. rewrite Hstart in HT.
  destruct (dfsVisit _ _ _ _ _) as [st'|] eqn:Hres1; [|done].
  simpl in HT. simplify_eq.
  assert (dfsSim nodes (mkDfsState (initVisited nodes) []) (mkDfsSimpleState ∅ [])) as Hsim.
  { split; simpl; [|done]. intros k Hk. rewrite initVisited_lookup.
    rewrite decide_True by done. rewrite decide_False; [done|set_solver]. }
  assert (s ∉ simpleVisited (mkDfsSimpleState ∅ [])) as Hfresh by (simpl; set_solver).
  destruct (dfsVisit_sim nodes edges Hwf _ _ _ _ _ _ _ _ Hlisted Hfresh Hsim Hres1 Hres2)
    as ([_ Horder] & _ & Hlen).
  rewrite (sp_traversal _ _ _ _ _ Hpost) in Horder, Hlen. simpl in Horder, Hlen.
  split_and!; [|done|done|simpl; lia].
  unfold dfsStepsDetailed. rewrite Hstart, Hres1. done.
Qed.

Lemma dfsSteps_is_push_order_witness :
  ∃ T L, dfsStepsDetailed createSampleDAG.1 createSampleDAG.2 None = Some T ∧
         dfsSteps createSampleDAG.1 createSampleDAG.2 None = Some L ∧
         dfsPushOrder T = L ∧ length T = (3 * length L)%nat.
Proof.
  apply (dfsSteps_is_push_order createSampleDAG.1 createSampleDAG.2 None).
  - apply (bool_decide_unpack _). vm_compute. exact I.
  - intros s Hs. injection Hs as <-. apply (bool_decide_unpack _). vm_compute. exact I.
Defined.

Section dfs_stack.
Variables (edges : list GraphEdge) (s : string).

Local Abbreviation adj := (buildAdjacencyList edges).
Local Abbreviation okRecord := (λ r, isPathFrom edges s (DFS.stack r) ∧ onOrOffStack edges s r).

Lemma isPathFrom_snoc l n c :
  isPathFrom edges s (l ++ [n]) → edgeRel edges n c → isPathFrom edges s ((l ++ [n]) ++ [c]).
Proof.
  intros [Hhead Hpath] Hnc. split.
  - right. destruct Hhead as [Hnil|Hhead]; [by destruct l|]. by destruct l.
  - intros i a b Ha Hb.
    apply lookup_app_Some in Hb as [Hb|[Hlen Hb]].
    + apply lookup_lt_Some in Hb as Hlt.
      rewrite lookup_app_l in Ha by lia. by apply (Hpath i).
    + apply list_lookup_singleton_Some in Hb as [Hi <-].
      rewrite length_app in Hlen, Hi. simpl in Hlen, Hi.
      assert (i = length l) as -> by lia.
      rewrite <- app_assoc in Ha. simpl in Ha.
      rewrite (list_lookup_middle l [c] n (length l) eq_refl) in Ha.
      by simplify_eq.
Qed.

Lemma isPathFrom_prefix l n : isPathFrom edges s (l ++ [n]) → isPathFrom edges s l.
Proof.
  intros [Hhead Hpath]. split.
  - destruct l as [|x l]; [by left|right]. destruct Hhead as [?|Hhead]; [done|]. done.
  - intros i a b Ha Hb. apply (Hpath i).
    + by apply lookup_app_l_Some.
    + by apply lookup_app_l_Some.
Qed.

Lemma dfsLoop_stacks (rec : string → DfsState → option DfsState) (n : string) :
  (∀ c st st', edgeRel edges n c → (∀ r, r ∈ dfsTrace st → okRecord r) →
     rec c st = Some st' → ∀ r, r ∈ dfsTrace st' → okRecord r) →
  ∀ neighbors st st',
    (∀ c, c ∈ neighbors → edgeRel edges n c) → (∀ r, r ∈ dfsTrace st → okRecord r) →
    dfsLoop rec neighbors st = Some st' → ∀ r, r ∈ dfsTrace st' → okRecord r.
Proof.
  intros Hrec. induction neighbors as [|c rest IH]; intros st st' Hsucc Hok Hres;
    simpl in Hres.
  { by simplify_eq. }
  assert (∀ c', c' ∈ rest → edgeRel edges n c') as Hrest by (intros; apply Hsucc; by right).
  destruct (decide (dfsVisited st !! c = Some 0)); [|by apply (IH st)].
  destruct (rec c st) as [st1|] eqn:Hc; [|done].
  apply (IH st1); [done| |done]. apply (Hrec c st); [|done|done]. apply Hsucc. by left.
Qed.

Lemma dfsVisit_stacks fuel : ∀ n stk st st',
  isPathFrom edges s (stk ++ [n]) →
  (stk = [] ∧ n = s) ∨ (∃ p, last stk = Some p ∧ edgeRel edges p n) →
  (∀ r, r ∈ dfsTrace st → okRecord r) →
  dfsVisit fuel adj n stk st = Some st' → ∀ r, r ∈ dfsTrace st' → okRecord r.
Proof.
  induction fuel as [|fuel IH]; intros n stk [V T] st' Hpath Hparent Hok Hres; [done|].
  simpl in Hres, Hok.
  destruct (dfsLoop _ _ _) as [[V1 T1]|] eqn:Hloop; [|done].
  destruct (decide (0 < length (stk ++ [n]))%nat) as [_|Hlen];
    [|rewrite length_app in Hlen; simpl in Hlen; lia].
  simplify_eq. simpl.
  assert (∀ r, r ∈ T1 → okRecord r) as Hok1.
  { apply (dfsLoop_stacks (λ nb, dfsVisit fuel adj nb (stk ++ [n])) n) with
      (neighbors := default [] (adj !! n))
      (st := mkDfsState (<[n:=1]> V)
               ((T ++ [DFS.mkStep n (stk ++ [n]) V]) ++ [DFS.mkStep n (stk ++ [n]) (<[n:=1]> V)]))
      (st' := mkDfsState V1 T1); [| | |done].
    - intros c st st' Hnc Hst Hc. apply (IH c (stk ++ [n]) st st'); [|right|done|done].
      + by apply isPathFrom_snoc.
      + exists n. split; [apply last_snoc|done].
    - intros c Hc. rewrite buildAdjacencyList_successors in Hc. by apply elem_of_successors.
    - simpl. intros r [[Hr| ->%list_elem_of_singleton]%elem_of_app| ->%list_elem_of_singleton]%elem_of_app.
      + by apply Hok.
      + split; [done|]. left. simpl. apply last_snoc.
      + split; [done|]. left. simpl. apply last_snoc. }
  intros r [Hr| ->%list_elem_of_singleton]%elem_of_app; [by apply Hok1|].
  rewrite removelast_last. split; simpl.
  - by apply (isPathFrom_prefix stk n).
  - unfold onOrOffStack. simpl. destruct Hparent as [[-> ->]|Hp]; [right; by left|by do 2 right].
Qed.
End dfs_stack.

(** X17.  In every record of a DFS trace the stack is a path along the
    edges that begins at the start node, and the current node is on top of
    the stack or was just popped from it (the stack is then empty and the
    node is the start, or the top of the stack has an edge to it). *)
Theorem dfs_stack_is_path nodes edges startNodeId :
  ∃ T, dfsStepsDetailed nodes edges startNodeId = Some T ∧
       ∀ s r, startNode nodes startNodeId = Some s → r ∈ T →
         isPathFrom edges s (DFS.stack r) ∧ onOrOffStack edges s r.
Proof.
  destruct (dfsStepsDetailed_total nodes edges startNodeId) as [T HT].
  exists T. split; [done|]. intros s r Hstart Hr.
  unfold dfsStepsDetailed in HT. rewrite Hstart in HT.
  destruct (dfsVisit _ _ _ _ _) as [st'|] eqn:Hres; [|done].
  simpl in HT. simplify_eq.
  apply (dfsVisit_stacks edges s (dfsFuel nodes) s [] (mkDfsState (initVisited nodes) []) st');
    [|by left| |done|done].
  - split; [by right|]. intros [|i] a b Ha Hb; done.
  - intros r' Hr'. by apply elem_of_nil in Hr'.
Qed.

(** ** What the BFS trace covers *)

Section bfs_cover.
Variables (nodes : list GraphNode) (edges : list GraphEdge).

Local Abbreviation adj := (buildAdjacencyList edges).

Lemma elem_of_oneSet (V : gmap string Z) k : k ∈ oneSet V ↔ V !! k = Some 1.
Proof.
  unfold oneSet. rewrite elem_of_dom. split.
  - intros [v Hv]. apply map_lookup_filter_Some in Hv as [Hv Hz]. simpl in Hz. by subst.
  - intros Hk. exists 1. by apply map_lookup_filter_Some.
Qed.

Lemma oneSet_insert (V : gmap string Z) c :
  V !! c ≠ Some 1 → size (oneSet (<[c:=1]> V)) = S (size (oneSet V)).
Proof.
  intros Hc. assert (oneSet (<[c:=1]> V) = {[c]} ∪ oneSet V) as ->.
  { apply set_eq. intros k. rewrite elem_of_union, elem_of_singleton, !elem_of_oneSet.
    destruct (decide (k = c)) as [->|Hne].
    - rewrite lookup_insert_eq. naive_solver.
    - rewrite lookup_insert_ne by done. naive_solver. }
  rewrite size_union, size_singleton; [done|].
  intros k ->%elem_of_singleton Hk. by apply elem_of_oneSet in Hk.
Qed.

Lemma bfsNeighbors_current u : ∀ neighbors st,
  bfsCurrent nodes st →
  bfsCurrent nodes (bfsNeighbors u neighbors st) ∧
  (∀ k, bfsVisited st !! k = Some 1 → bfsVisited (bfsNeighbors u neighbors st) !! k = Some 1) ∧
  (∀ c, c ∈ neighbors → c ∈ nodeIds nodes →
        bfsVisited (bfsNeighbors u neighbors st) !! c = Some 1) ∧
  (∀ k, bfsVisited (bfsNeighbors u neighbors st) !! k = Some 1 →
        bfsVisited st !! k = Some 1 ∨ k ∈ bfsQueue (bfsNeighbors u neighbors st)) ∧
  (∀ k, k ∈ bfsQueue st → k ∈ bfsQueue (bfsNeighbors u neighbors st)).
Proof.
  induction neighbors as [|c rest IH]; intros st Hcur; simpl.
  { split_and!; try done; auto. intros c Hc. by apply elem_of_nil in Hc. }
  destruct (decide (bfsVisited st !! c = Some 0)) as [Hzero|Hzero].
  - set (st1 := mkBfsState _ _ _).
    assert (bfsCurrent nodes st1) as Hcur1.
    { destruct Hcur as (_ & Hl & Hcount). split_and!.
      - eexists _, _. unfold st1. simpl. split_and!; done.
      - intros k Hk. unfold st1. simpl. destruct (decide (k = c)) as [->|Hne].
        + right. apply lookup_insert_eq.
        + rewrite lookup_insert_ne by done. by apply Hl.
      - unfold st1. simpl. rewrite oneSet_insert by congruence.
        rewrite !length_app. simpl. lia. }
    destruct (IH st1 Hcur1) as (Hc' & Hmono & Hall & Hnew & Hq). split_and!.
    + done.
    + intros k Hk. apply Hmono. unfold st1. simpl.
      destruct (decide (k = c)) as [->|Hne]; [apply lookup_insert_eq|].
      by rewrite lookup_insert_ne.
    + intros c' [->|Hc'']%elem_of_cons Hl; [|by apply Hall].
      apply Hmono. unfold st1. simpl. apply lookup_insert_eq.
    + intros k Hk. destruct (Hnew k Hk) as [Hk1|Hk1]; [|by right].
      unfold st1 in Hk1. simpl in Hk1. destruct (decide (k = c)) as [->|Hne].
      * right. apply Hq. unfold st1. simpl. apply elem_of_app. right. by left.
      * rewrite lookup_insert_ne in Hk1 by done. by left.
    + intros k Hk. apply Hq. unfold st1. simpl. apply elem_of_app. by left.
  - destruct (IH st Hcur) as (Hc' & Hmono & Hall & Hnew & Hq). split_and!; try done.
    intros c' [->|Hc'']%elem_of_cons Hl; [|by apply Hall].
    apply Hmono. destruct Hcur as (_ & Hl01 & _). by destruct (Hl01 c Hl).
Qed.

Lemma bfsLoop_closed fuel : ∀ st Tf,
  bfsCurrent nodes st → bfsLoop fuel adj st = Some Tf →
  ∃ T r, Tf = T ++ [r] ∧ BFS.queue r = [] ∧
    (length Tf = 2 * size (oneSet (BFS.visited r)))%nat ∧
    (∀ k, bfsVisited st !! k = Some 1 → BFS.visited r !! k = Some 1) ∧
    (∀ x c, BFS.visited r !! x = Some 1 → listedEdge nodes edges x c →
            BFS.visited r !! c = Some 1 ∨
            (bfsVisited st !! x = Some 1 ∧ x ∉ bfsQueue st)).
Proof.
  induction fuel as [|fuel IH]; intros [Q V T] Tf Hcur Hres; [done|].
  simpl in Hres. destruct Q as [|u Q].
  { simplify_eq. destruct Hcur as ((T' & r & HT & Hv & Hq) & _ & Hcount). simpl in *.
    exists T', r. split_and!; [done|done|rewrite Hv; lia|by rewrite Hv|].
    intros x c Hx _. right. rewrite Hv in Hx. split; [done|]. apply not_elem_of_nil. }
  set (st1 := mkBfsState Q V (T ++ [BFS.mkStep u Q V])) in *.
  assert (bfsCurrent nodes st1) as Hcur1.
  { destruct Hcur as (_ & Hl & Hcount). split_and!; [|done|].
    - eexists _, _. unfold st1. simpl. done.
    - unfold st1. simpl in *. rewrite length_app. simpl. lia. }
  destruct (bfsNeighbors_current u (default [] (adj !! u)) st1 Hcur1)
    as (Hcur2 & Hmono & Hall & Hnew & Hq).
  destruct (IH _ Tf Hcur2 Hres) as (T' & r & HT & Hrq & Hlen & Hmono' & Hclosed).
  exists T', r. split_and!; [done|done|done| |].
  - intros k Hk. by apply Hmono', Hmono.
  - intros x c Hx Hxc. destruct (Hclosed x c Hx Hxc) as [Hc|[Hx2 Hxq]]; [by left|].
    destruct (decide (x = u)) as [->|Hne].
    + left. apply Hmono', Hall; [|by destruct Hxc].
      rewrite buildAdjacencyList_successors. apply elem_of_successors. by destruct Hxc.
    + right. simpl. destruct (Hnew x Hx2) as [Hx1|Hx1]; [|done].
      split; [done|]. intros [?|HxQ]%elem_of_cons; [done|]. apply Hxq, Hq. done.
Qed.
End bfs_cover.

Lemma bfs_cover_all nodes edges startNodeId s :
  startNode nodes startNodeId = Some s →
  ∃ T r, bfsStepsDetailed nodes edges startNodeId = Some (T ++ [r]) ∧
    BFS.queue r = [] ∧
    (∀ m, BFS.visited r !! m = Some 1 ↔ rtc (listedEdge nodes edges) s m) ∧
    (∀ m r', r' ∈ T ++ [r] → BFS.visited r' !! m = Some 1 →
       rtc (listedEdge nodes edges) s m) ∧
    (length (T ++ [r]) = 2 * size (oneSet (BFS.visited r)))%nat.
Proof.
  intros Hstart.
  destruct (bfsStepsDetailed_inv nodes edges s startNodeId Hstart)
    as (Tf & O & V & rest & Hres & HTf & Hinv).
  assert (∀ m r', r' ∈ Tf → BFS.visited r' !! m = Some 1 → rtc (listedEdge nodes edges) s m)
    as Hsound.
  { intros m r' Hr Hm.
    destruct (bi_trace _ _ _ _ _ _ _ _ Hinv r' Hr) as (Or & rest' & HO & Hones & _).
    destruct (bi_dist _ _ _ _ _ _ _ _ Hinv m) as [d Hd].
    - rewrite HO. apply elem_of_app. left. by apply Hones.
    - by eapply shortest_rtc. }
  pose proof Hres as Hres'. unfold bfsStepsDetailed in Hres'. rewrite Hstart in Hres'.
  assert (bfsCurrent nodes
            (mkBfsState [s] (<[s:=1]> (initVisited nodes))
               [BFS.mkStep s [s] (<[s:=1]> (initVisited nodes))])) as Hcur.
  { split_and!; simpl.
    - by exists [], (BFS.mkStep s [s] (<[s:=1]> (initVisited nodes))).
    - intros k Hk. destruct (decide (k = s)) as [->|Hne].
      + right. apply lookup_insert_eq.
      + rewrite lookup_insert_ne by done. left. rewrite initVisited_lookup.
        by rewrite decide_True.
    - rewrite oneSet_insert by apply initVisited_not_one.
      assert (oneSet (initVisited nodes) = ∅) as ->; [|by rewrite size_empty].
      apply set_eq. intros k. rewrite elem_of_oneSet.
      pose proof (initVisited_not_one nodes k). set_solver. }
  destruct (bfsLoop_closed nodes edges _ _ Tf Hcur Hres')
    as (T & r & HT & Hq & Hlen & Hmono & Hclosed).
  simpl in Hmono, Hclosed.
  exists T, r. rewrite <- HT. split_and!; [done|done| |done|done].
  intros m. split.
  - apply Hsound. rewrite HT. apply elem_of_app. right. by left.
  - intros Hm. revert m Hm. apply (rtc_ind_r (λ m, BFS.visited r !! m = Some 1)).
    + apply Hmono. apply lookup_insert_eq.
    + intros x c Hsx Hxc Hx. destruct (Hclosed x c Hx Hxc) as [Hc|[Hx1 Hxq]]; [done|].
      exfalso. apply Hxq. destruct (decide (x = s)) as [->|Hne]; [by left|].
      rewrite lookup_insert_ne in Hx1 by done.
      by destruct (initVisited_not_one nodes x).
Qed.

Lemma bfs_cover_start nodes edges startNodeId s :
  startNode nodes startNodeId = Some s →
  ∃ T r, bfsStepsDetailed nodes edges startNodeId = Some (T ++ [r]) ∧
    BFS.queue r = [] ∧
    (∀ m, BFS.visited r !! m = Some 1 ↔ rtc (listedEdge nodes edges) s m) ∧
    (length (T ++ [r]) = 2 * size (oneSet (BFS.visited r)))%nat.
Proof.
  intros Hstart.
  destruct (bfs_cover_all nodes edges startNodeId s Hstart) as (T & r & ? & ? & ? & _ & ?).
  by exists T, r.
Qed.

(** X18.  When a traversal is started, the BFS trace ends with a record
    whose queue is empty and whose map marks exactly the ids reachable
    from the start through listed nodes; no record marks any other id, and
    the trace has two records for each marked id. *)
Theorem bfs_marks_reachable nodes edges startNodeId s :
  startNode nodes startNodeId = Some s →
  ∃ T r, bfsStepsDetailed nodes edges startNodeId = Some (T ++ [r]) ∧
    BFS.queue r = [] ∧
    (∀ m, BFS.visited r !! m = Some 1 ↔ rtc (listedEdge nodes edges) s m) ∧
    (∀ m r', r' ∈ T ++ [r] → BFS.visited r' !! m = Some 1 →
       rtc (listedEdge nodes edges) s m) ∧
    (length (T ++ [r]) = 2 * size (oneSet (BFS.visited r)))%nat.
Proof. apply bfs_cover_all. Qed.

Lemma bfs_marks_reachable_witness :
  ∃ T r, bfsStepsDetailed createSampleDAG.1 createSampleDAG.2 None = Some (T ++ [r]) ∧
    BFS.queue r = [] ∧
    (∀ m, BFS.visited r !! m = Some 1 ↔ rtc (listedEdge createSampleDAG.1 createSampleDAG.2) "A" m) ∧
    (∀ m r', r' ∈ T ++ [r] → BFS.visited r' !! m = Some 1 →
       rtc (listedEdge createSampleDAG.1 createSampleDAG.2) "A" m) ∧
    (length (T ++ [r]) = 2 * size (oneSet (BFS.visited r)))%nat.
Proof.
  apply (bfs_marks_reachable createSampleDAG.1 createSampleDAG.2 None "A").
  reflexivity.
Defined.

(** ** The generated graphs *)

Lemma nodeIdOf_inj i j : nodeIdOf i = nodeIdOf j → i = j.
Proof.
  unfold nodeIdOf. intros Heq. simpl in Heq. simplify_eq.
  by apply (inj (pretty : nat → string)).
Qed.

Lemma nodeIds_randomNodes numNodes x :
  x ∈ nodeIds (randomNodes numNodes) ↔ ∃ i, (i < numNodes)%nat ∧ x = nodeIdOf i.
Proof.
  unfold nodeIds, randomNodes. rewrite <- list_fmap_compose, list_elem_of_fmap. split.
  - intros (i & -> & Hi). apply elem_of_seq in Hi. exists i. split; [lia|done].
  - intros (i & Hi & ->). exists i. split; [done|]. apply elem_of_seq. lia.
Qed.

Lemma NoDup_nodeIds_randomNodes numNodes : NoDup (nodeIds (randomNodes numNodes)).
Proof.
  unfold nodeIds, randomNodes. rewrite <- list_fmap_compose.
  apply NoDup_fmap_2; [|apply NoDup_seq].
  intros i j Heq. by apply nodeIdOf_inj.
Qed.

Section forward.
Variable edges : list GraphEdge.
Hypothesis Hforward : ∀ e, e ∈ edges →
  ∃ i j, source e = nodeIdOf i ∧ target e = nodeIdOf j ∧ (i < j)%nat.

Lemma forward_tc x y :
  tc (edgeRel edges) x y → ∃ i j, x = nodeIdOf i ∧ y = nodeIdOf j ∧ (i < j)%nat.
Proof.
  induction 1 as [x y (e & He & <- & <-)|x y z (e & He & <- & <-) _ (j' & k & Hj' & -> & Hlt)].
  - by apply Hforward.
  - destruct (Hforward e He) as (i & j & Hs & Ht & Hij).
    rewrite Ht in Hj'. apply nodeIdOf_inj in Hj' as <-.
    exists i, k. split_and!; [done|done|lia].
Qed.

Lemma forward_acyclic : ¬ hasDirectedCycle edges.
Proof.
  intros [x Hx]. destruct (forward_tc x x Hx) as (i & j & -> & Heq & Hlt).
  apply nodeIdOf_inj in Heq. lia.
Qed.

Lemma forward_hasCycle nodes : hasCycle nodes edges = Some false.
Proof.
  destruct (hasCycle_total nodes edges) as [Ht|Hf]; [|done].
  destruct forward_acyclic. by apply (hasCycle_true_cyclic nodes).
Qed.
End forward.

Lemma edgeExists_true edges sourceId targetId :
  edgeExists edges sourceId targetId = true → edgeRel edges sourceId targetId.
Proof.
  unfold edgeExists. intros (e & He & Hb)%existsb_exists.
  apply bool_decide_eq_true in Hb as [? ?]. exists e. split; [by apply list_elem_of_In|done].
Qed.

Section random_more.
Variables (nodes : list GraphNode) (numEdges : nat) (rnd : nat → nat * nat).

Lemma randomEdges_complete left : ∀ attempt edges edgeCount edges',
  (∀ e, e ∈ edges → ∃ i j, source e = nodeIdOf i ∧ target e = nodeIdOf j ∧ (i < j)%nat) →
  length edges = edgeCount →
  edge_id <$> edges = (λ k, "edge-" +:+ pretty k) <$> seq 0 edgeCount →
  randomEdges left attempt numEdges nodes rnd edges edgeCount = Some edges' →
  (∀ a b, edgeRel edges a b → edgeRel edges' a b) ∧
  edge_id <$> edges' = (λ k, "edge-" +:+ pretty k) <$> seq 0 (length edges') ∧
  ((length edges' < numEdges)%nat →
   ∀ k, (attempt ≤ k < attempt + left)%nat → ((rnd k).1 < (rnd k).2)%nat →
        edgeRel edges' (nodeIdOf (rnd k).1) (nodeIdOf (rnd k).2)).
Proof.
  induction left as [|left IH]; intros attempt edges edgeCount edges' Hfwd Hlen Hids Hres;
    simpl in Hres.
  { simplify_eq. split_and!; [done|done|]. intros _ k Hk. lia. }
  destruct (decide (edgeCount < numEdges)%nat) as [Hlt|Hge].
  2: { simplify_eq. split_and!; [done|done|]. intros Hlt. lia. }
  assert (∀ edges1 edgeCount1,
    (∀ a b, edgeRel edges a b → edgeRel edges1 a b) →
    (((rnd attempt).1 < (rnd attempt).2)%nat →
       edgeRel edges1 (nodeIdOf (rnd attempt).1) (nodeIdOf (rnd attempt).2)) →
    (∀ e, e ∈ edges1 → ∃ i j, source e = nodeIdOf i ∧ target e = nodeIdOf j ∧ (i < j)%nat) →
    length edges1 = edgeCount1 →
    edge_id <$> edges1 = (λ k, "edge-" +:+ pretty k) <$> seq 0 edgeCount1 →
    randomEdges left (S attempt) numEdges nodes rnd edges1 edgeCount1 = Some edges' →
    (∀ a b, edgeRel edges a b → edgeRel edges' a b) ∧
    edge_id <$> edges' = (λ k, "edge-" +:+ pretty k) <$> seq 0 (length edges') ∧
    ((length edges' < numEdges)%nat →
     ∀ k, (attempt ≤ k < attempt + S left)%nat → ((rnd k).1 < (rnd k).2)%nat →
          edgeRel edges' (nodeIdOf (rnd k).1) (nodeIdOf (rnd k).2))) as Hstep.
  { intros edges1 edgeCount1 Hsub Hnow Hfwd1 Hlen1 Hids1 Hres1.
    destruct (IH (S attempt) edges1 edgeCount1 edges' Hfwd1 Hlen1 Hids1 Hres1)
      as (Hsub' & Hids' & Hall).
    split_and!; [by auto|done|].
    intros Hshort k Hk Hfk. destruct (decide (k = attempt)) as [->|Hne].
    - by apply Hsub', Hnow.
    - apply Hall; [done|lia|done]. }
  destruct (decide ((rnd attempt).1 < (rnd attempt).2)%nat) as [Hf|Hb].
  2: { apply (Hstep edges edgeCount); try done. }
  destruct (edgeExists edges _ _) eqn:Hex.
  { apply (Hstep edges edgeCount); try done. intros _. by apply edgeExists_true. }
  set (sourceId := nodeIdOf (rnd attempt).1) in *.
  set (targetId := nodeIdOf (rnd attempt).2) in *.
  rewrite (forward_hasCycle (edges ++ [mkEdge ("e-" +:+ pretty edgeCount) sourceId targetId]))
    in Hres.
  2: { intros e [He| ->%list_elem_of_singleton]%elem_of_app; [by apply Hfwd|].
       by exists (rnd attempt).1, (rnd attempt).2. }
  apply (Hstep (edges ++ [mkEdge ("edge-" +:+ pretty edgeCount) sourceId targetId])
           (S edgeCount)); try done.
  - intros a b (e & He & Hs & Ht). exists e. split; [|done]. apply elem_of_app. by left.
  - intros _. exists (mkEdge ("edge-" +:+ pretty edgeCount) sourceId targetId).
    split; [|done]. apply elem_of_app. right. by left.
  - intros e [He| ->%list_elem_of_singleton]%elem_of_app; [by apply Hfwd|].
    by exists (rnd attempt).1, (rnd attempt).2.
  - rewrite length_app. simpl. lia.
  - rewrite fmap_app, Hids, seq_S, fmap_app. done.
Qed.
End random_more.

Lemma generateRandomDAG_more numNodes numEdges rnd :
  ∃ edges, generateRandomDAG numNodes numEdges rnd = Some (randomNodes numNodes, edges) ∧
    randomInv (randomNodes numNodes) numEdges rnd edges (length edges) ∧
    edge_id <$> edges = (λ k, "edge-" +:+ pretty k) <$> seq 0 (length edges) ∧
    ((length edges < numEdges)%nat →
     ∀ k, (k < numEdges * 10)%nat → ((rnd k).1 < (rnd k).2)%nat →
          edgeRel edges (nodeIdOf (rnd k).1) (nodeIdOf (rnd k).2)).
Proof.
  destruct (generateRandomDAG_spec numNodes numEdges rnd) as (edges & Hres & Hinv).
  exists edges. split; [done|]. split; [done|].
  unfold generateRandomDAG in Hres.
  destruct (randomEdges _ _ _ _ _ _ _) as [edges0|] eqn:Hloop; [|done].
  simpl in Hres. simplify_eq.
  destruct (randomEdges_complete _ _ _ _ _ _ _ _ ltac:(by intros e ?%elem_of_nil)
              eq_refl eq_refl Hloop) as (_ & Hids & Hall).
  split; [done|]. intros Hshort k Hk. apply Hall; [done|lia].
Qed.

(** X19.  For drawn indices within range, [generateRandomDAG] returns a
    well-formed graph: [numNodes] nodes with distinct ids, edges that join
    listed nodes, no directed cycle, and edge ids [edge-0], [edge-1], ...
    in order. *)
Theorem generateRandomDAG_wellformed (numNodes numEdges : nat) (rnd : nat → nat * nat) :
  (∀ k, ((rnd k).1 < numNodes)%nat ∧ ((rnd k).2 < numNodes)%nat) →
  ∃ nodes edges, generateRandomDAG numNodes numEdges rnd = Some (nodes, edges) ∧
    length nodes = numNodes ∧ NoDup (nodeIds nodes) ∧
    edgesReferenceNodes nodes edges ∧ ¬ hasDirectedCycle edges ∧
    edge_id <$> edges = (λ k, "edge-" +:+ pretty k) <$> seq 0 (length edges).
Proof.
  intros Hrnd.
  destruct (generateRandomDAG_more numNodes numEdges rnd) as (edges & Hres & Hinv & Hids & _).
  exists (randomNodes numNodes), edges. destruct Hinv as [_ _ Hfwd _].
  split_and!; [done| |apply NoDup_nodeIds_randomNodes| | |done].
  - unfold randomNodes. by rewrite length_fmap, length_seq.
  - apply Forall_forall. intros e He. destruct (Hfwd e He) as (k & -> & -> & _).
    destruct (Hrnd k). split; apply nodeIds_randomNodes; eauto.
  - apply forward_acyclic. intros e He. destruct (Hfwd e He) as (k & ? & ? & ?). eauto.
Qed.

Lemma generateRandomDAG_wellformed_witness :
  ∃ nodes edges,
    generateRandomDAG 4 3 (λ k, (k mod 4, (k * 3 + 1) mod 4)%nat) = Some (nodes, edges) ∧
    length nodes = 4%nat ∧ NoDup (nodeIds nodes) ∧
    edgesReferenceNodes nodes edges ∧ ¬ hasDirectedCycle edges ∧
    edge_id <$> edges = (λ k, "edge-" +:+ pretty k) <$> seq 0 (length edges).
Proof.
  apply (generateRandomDAG_wellformed 4 3 (λ k, (k mod 4, (k * 3 + 1) mod 4)%nat)).
  intros k. cbv beta. cbn [fst snd]. split; apply Nat.mod_upper_bound; lia.
Defined.

(** X20.  The cycle test of the generator never rejects an edge: when the
    result has fewer than [numEdges] edges, every pair of indices drawn in
    increasing order within the [10 * numEdges] attempts is an edge of
    the result. *)
Theorem generateRandomDAG_keeps_forward_pairs (numNodes numEdges : nat)
    (rnd : nat → nat * nat) :
  ∃ nodes edges, generateRandomDAG numNodes numEdges rnd = Some (nodes, edges) ∧
    ((length edges < numEdges)%nat →
     ∀ k, (k < numEdges * 10)%nat → ((rnd k).1 < (rnd k).2)%nat →
          edgeRel edges (nodeIdOf (rnd k).1) (nodeIdOf (rnd k).2)).
Proof.
  destruct (generateRandomDAG_more numNodes numEdges rnd) as (edges & Hres & _ & _ & Hall).
  by exists (randomNodes numNodes), edges.
Qed.

(** X21.  The adjacency matrix of a generated graph is exact: for every
    pair of its nodes the entry is 1 if the graph has the edge and 0
    otherwise (the ids [node-i] contain a dash, but their keys do not
    clash). *)
Theorem generateRandomDAG_matrix_exact (numNodes numEdges : nat) (rnd : nat → nat * nat) :
  ∃ nodes edges, generateRandomDAG numNodes numEdges rnd = Some (nodes, edges) ∧
    ∀ a b, a ∈ nodeIds nodes → b ∈ nodeIds nodes →
      (edgeRel edges a b ∧ getAdjacencyMatrix nodes edges !! pairKey a b = Some 1) ∨
      (¬ edgeRel edges a b ∧ getAdjacencyMatrix nodes edges !! pairKey a b = Some 0).
Proof.
  destruct (generateRandomDAG_more numNodes numEdges rnd) as (edges & Hres & Hinv & _).
  exists (randomNodes numNodes), edges. split; [done|]. intros a b Ha Hb.
  destruct Hinv as [_ _ Hfwd _].
  apply nodeIds_randomNodes in Ha as Ha'. destruct Ha' as (i & _ & ->).
  assert (noKeyClash edges (nodeIdOf i) b) as Hno.
  { apply Forall_forall. intros e He Hk. destruct (Hfwd e He) as (k & Hs & _ & _).
    rewrite Hs in Hk |- *. by apply nodeIdOf_pairKey_inj. }
  destruct (matrix_exact_aux (randomNodes numNodes) edges (nodeIdOf i) b Hno) as [Hone Hzero].
  destruct (getAdjacencyMatrix _ _ !! _) as [v|] eqn:Hv.
  - destruct (decide (v = 1)) as [->|Hne].
    + left. split; [by apply Hone|done].
    + right. assert (¬ edgeRel edges (nodeIdOf i) b) as Hrel.
      { intros Hrel. apply Hone in Hrel. congruence. }
      split; [done|]. by rewrite <- (Hzero Ha Hb Hrel).
  - right. assert (¬ edgeRel edges (nodeIdOf i) b) as Hrel.
    { intros Hrel. apply Hone in Hrel. congruence. }
    split; [done|]. by rewrite <- (Hzero Ha Hb Hrel).
Qed.

(** ** Step counts *)

Section dfs_count.
Variable edges : list GraphEdge.

Local Abbreviation adj := (buildAdjacencyList edges).

Lemma oneSet_subseteq_insert (V : gmap string Z) c : oneSet V ⊆ oneSet (<[c:=1]> V).
Proof.
  intros k. rewrite !elem_of_oneSet. destruct (decide (k = c)) as [->|Hne].
  - by rewrite lookup_insert_eq.
  - by rewrite lookup_insert_ne.
Qed.

Lemma dfsLoop_count (rec : string → DfsState → option DfsState) :
  (∀ c st st', dfsVisited st !! c ≠ Some 1 → rec c st = Some st' → dfsCount st st') →
  ∀ neighbors st st', dfsLoop rec neighbors st = Some st' → dfsCount st st'.
Proof.
  intros Hrec. induction neighbors as [|c rest IH]; intros st st' Hres; simpl in Hres.
  { simplify_eq. by unfold dfsCount. }
  destruct (decide (dfsVisited st !! c = Some 0)) as [Hzero|Hzero]; [|by apply IH].
  destruct (rec c st) as [st1|] eqn:Hc; [|done].
  assert (dfsCount st st1) as H1 by (apply (Hrec c); [congruence|done]).
  pose proof (IH st1 st' Hres) as H2. unfold dfsCount in *. lia.
Qed.

Lemma dfsVisit_count fuel : ∀ n stk st st',
  dfsVisited st !! n ≠ Some 1 → dfsVisit fuel adj n stk st = Some st' →
  dfsCount st st'.
Proof.
  induction fuel as [|fuel IH]; intros n stk [V T] st' Hn Hres; [done|].
  simpl in Hres, Hn.
  destruct (dfsLoop _ _ _) as [[V1 T1]|] eqn:Hloop; [|done].
  destruct (decide (0 < length (stk ++ [n]))%nat) as [_|Hlen];
    [|rewrite length_app in Hlen; simpl in Hlen; lia].
  simplify_eq.
  pose proof (dfsLoop_count (λ nb, dfsVisit fuel adj nb (stk ++ [n]))
                (λ c st st', IH c (stk ++ [n]) st st') _ _ _ Hloop) as Hcount.
  unfold dfsCount in *. simpl in *.
  rewrite oneSet_insert in Hcount by done.
  rewrite !length_app in Hcount. rewrite length_app. simpl in *. lia.
Qed.
End dfs_count.

Lemma dfsVisit_final nodes edges s :
  s ∈ nodeIds nodes →
  ∃ st', dfsVisit (dfsFuel nodes) (buildAdjacencyList edges) s []
           (mkDfsState (initVisited nodes) []) = Some st' ∧
         ∀ m, dfsVisited st' !! m = Some 1 ↔ rtc (listedEdge nodes edges) s m.
Proof.
  intros Hs.
  assert (initVisited nodes !! s = Some 0) as Hs0.
  { rewrite initVisited_lookup. by rewrite decide_True. }
  destruct (dfsVisit_spec nodes edges (dfsFuel nodes) s [] (mkDfsState (initVisited nodes) []))
    as ([V' T] & new & Hres & Htr & Hpost & Hs1); simpl in *.
  - apply okV_initVisited.
  - done.
  - intros x Hx. by apply elem_of_nil in Hx.
  - unfold dfsFuel. pose proof (zeroSet_initVisited nodes). lia.
  - exists (mkDfsState V' T). split; [done|]. simpl.
    assert (∀ m, rtc (listedEdge nodes edges) s m → newly (initVisited nodes) V' m) as Hall.
    { apply (rtc_ind_r (λ m, newly (initVisited nodes) V' m)); [by split|].
      intros m c Hsm [Hmc Hc] IH. split.
      - rewrite initVisited_lookup. by rewrite decide_True.
      - destruct (post_records _ _ _ _ _ _ _ Hpost m IH)
          as (pre & push & visit & inner & pop & post & -> & _ & _ & _ & _ & _ & Hsucc & _).
        eapply grows_one; [|by apply Hsucc].
        apply (post_snap _ _ _ _ _ _ _ Hpost). rewrite !elem_of_app, !elem_of_cons. auto. }
    intros m. split.
    + intros Hm. apply (post_reach _ _ _ _ _ _ _ Hpost).
      destruct (post_grows _ _ _ _ _ _ _ Hpost m) as [Heq|[H0 _]]; [|by split].
      rewrite Hm in Heq. by destruct (initVisited_not_one nodes m).
    + intros Hm. by destruct (Hall m Hm).
Qed.

Lemma stepCount_nonempty {A} nodes (steps : option (list A)) :
  nodes ≠ [] → stepCount nodes steps = length <$> steps.
Proof. by destruct nodes. Qed.

(** X22.  The step counts the controls panel shows: the topological count
    is the number of distinct nodes without incoming edge; the DFS count
    is three times, and the BFS count twice, the number of ids reachable
    from the first node through listed nodes, which is at most the number
    of nodes. *)
Theorem step_counts nodes edges :
  ∃ (t d b : nat) (reached : gset string),
    maxSteps topological nodes edges = Some t ∧
    maxSteps dfs nodes edges = Some d ∧
    maxSteps bfs nodes edges = Some b ∧
    t = length (sourceNodes nodes edges) ∧
    d = (3 * size reached)%nat ∧ b = (2 * size reached)%nat ∧
    (size reached ≤ length nodes)%nat ∧
    (∀ s, startNode nodes None = Some s →
          ∀ m, m ∈ reached ↔ rtc (listedEdge nodes edges) s m) ∧
    (startNode nodes None = None → reached = ∅).
Proof.
  unfold maxSteps, topologicalStepCount, dfsStepCount, bfsStepCount.
  destruct (decide (nodes = [])) as [->|Hne].
  { exists 0%nat, 0%nat, 0%nat, ∅. split_and!; done. }
  rewrite !stepCount_nonempty by done.
  destruct (topoLoop_full nodes edges (S (length (osetOfList (nodeIds nodes))))
              (osetOfList (nodeIds nodes)) (initVisited nodes) []) as (Tt & Ht & Hrem & _);
    [by destruct (osetOfList_spec (nodeIds nodes))|lia|].
  rewrite zeroInDegree_sourceNodes in Hrem.
  assert (length Tt = length (sourceNodes nodes edges)) as Hlt
    by by rewrite <- Hrem, length_fmap.
  change (topoLoop _ _ _ _ _ _) with (topologicalSortStepsDetailed nodes edges) in Ht.
  rewrite Ht. simpl.
  destruct (startNode nodes None) as [s|] eqn:Hstart.
  2: { exists (length Tt), 0%nat, 0%nat, ∅.
       unfold dfsStepsDetailed, bfsStepsDetailed. rewrite Hstart.
       split_and!; try done. rewrite size_empty. lia. }
  assert (s ∈ nodeIds nodes) as Hs.
  { unfold startNode in Hstart. simpl in Hstart.
    destruct nodes as [|n0 nodes']; [done|]. simpl in Hstart.
    destruct (truthy (node_id n0)); simplify_eq. by left. }
  destruct (dfsVisit_final nodes edges s Hs) as (st' & Hd & Hdreach).
  pose proof (dfsVisit_count edges _ s [] (mkDfsState (initVisited nodes) []) st'
                (initVisited_not_one nodes s) Hd) as Hdc.
  destruct (bfs_cover_start nodes edges None s Hstart)
    as (Tb & r & Hb & _ & Hbreach & Hblen).
  exists (length Tt), (length (dfsTrace st')), (length (Tb ++ [r])), (oneSet (dfsVisited st')).
  assert (oneSet (BFS.visited r) = oneSet (dfsVisited st')) as Heq.
  { apply set_eq. intros m. rewrite !elem_of_oneSet, Hbreach, Hdreach. done. }
  split_and!.
  - done.
  - unfold dfsStepsDetailed. rewrite Hstart, Hd. done.
  - rewrite Hb. done.
  - done.
  - unfold dfsCount in Hdc. simpl in Hdc.
    assert (oneSet (initVisited nodes) = ∅) as Hempty.
    { apply set_eq. intros k. rewrite elem_of_oneSet.
      pose proof (initVisited_not_one nodes k). set_solver. }
    rewrite Hempty, size_empty in Hdc. lia.
  - rewrite Hblen, Heq. done.
  - etrans; [apply (subseteq_size _ (list_to_set (nodeIds nodes)))|].
    + intros m Hm. apply elem_of_oneSet, Hdreach in Hm. apply elem_of_list_to_set.
      apply rtc_inv_r in Hm as [<-|(y & _ & _ & Hx)]; done.
    + etrans; [apply size_list_to_set_le|]. unfold nodeIds. by rewrite length_fmap.
  - intros s' [= <-] m. by rewrite elem_of_oneSet.
  - done.
Qed.
